(** * Movie search: record store, strategies and result cache

    A shallow embedding of [MovieDataConsoleApplication.py]: the [Movie]
    record, the three search strategies, [MovieDataSource] (lazy reload on
    a newer modification time, index rebuild) and [MovieManager.search]
    behind [functools.lru_cache].

    Python values are modelled by the cases the program can tell apart;
    exceptions are values of [exn] and every operation that can raise
    returns a [result].  Stateful code is written in a state-and-exception
    monad [M] in which the state reached before an exception is kept, as
    in Python. *)

From Stdlib Require Import ZArith Lia Ascii String.
From stdpp Require Import base option list strings gmap pretty.

Local Open Scope string_scope.
Local Open Scope Z_scope.

(** ** Exceptions and results *)

Inductive exn :=
  | FileNotFoundError
  | OSError
  | KeyError (k : string)
  | ValueError
  | TypeError
  | AttributeError.

Inductive result (A : Type) :=
  | Ok (a : A)
  | Raise (e : exn).
Arguments Ok {A} a.
Arguments Raise {A} e.

#[global] Instance result_ret : MRet result := @Ok.
#[global] Instance result_bind : MBind result := λ A B f r,
  match r with Ok a => f a | Raise e => Raise e end.
#[global] Instance result_fmap : FMap result := λ A B f r,
  match r with Ok a => Ok (f a) | Raise e => Raise e end.

(** ** Strings

    A [str] is modelled by the Rocq [string] of its UTF-8 bytes, so that
    equality and the substring test are those of Python.  [str.lower],
    [str.strip] and [int] are exact on ASCII text.  [str.lower] also
    knows the Greek sigma, whose capital it lower-cases by position;
    the other characters outside ASCII are left as they are, which is
    not what Python does for all of them: the statements that depend on
    it are about ASCII text. *)

Definition ascii_lower (c : ascii) : ascii :=
  let n := Ascii.N_of_ascii c in
  if ((65 <=? n) && (n <=? 90))%N then Ascii.ascii_of_N (n + 32) else c.

(** The cased characters of ASCII are its letters. *)
Definition is_cased (c : ascii) : bool :=
  let n := Ascii.N_of_ascii c in
  ((65 <=? n) && (n <=? 90) || (97 <=? n) && (n <=? 122))%N.

(** The case-ignorable characters of ASCII: apostrophe, full stop,
    colon, circumflex and grave accent. *)
Definition is_case_ignorable (c : ascii) : bool :=
  let n := Ascii.N_of_ascii c in
  ((n =? 39) || (n =? 46) || (n =? 58) || (n =? 94) || (n =? 96))%N.

(** The capital sigma U+03A3 is the bytes CE A3; the small sigma U+03C3
    is CF 83 and the final sigma U+03C2 is CF 82. *)
Definition is_capital_sigma (c d : ascii) : bool :=
  ((Ascii.N_of_ascii c =? 206) && (Ascii.N_of_ascii d =? 163))%N.

Definition is_small_sigma (c d : ascii) : bool :=
  ((Ascii.N_of_ascii c =? 207)
   && ((Ascii.N_of_ascii d =? 130) || (Ascii.N_of_ascii d =? 131)))%N.

(** Whether a cased letter follows, after case-ignorable characters
    only. *)
Fixpoint cased_follows (s : string) : bool :=
  match s with
  | EmptyString => false
  | String c s' =>
      if is_case_ignorable c then cased_follows s'
      else is_cased c
           || match s' with
              | String d _ => is_capital_sigma c d || is_small_sigma c d
              | EmptyString => false
              end
  end.

(** [str.lower] from a position of the text; [after_cased] tells whether
    a cased letter comes before it, followed by case-ignorable
    characters only.  A capital sigma in that position which no cased
    letter follows is a final sigma. *)
Fixpoint lower_from (after_cased : bool) (s : string) : string :=
  match s with
  | EmptyString => EmptyString
  | String c s' =>
      match s' with
      | String d s'' =>
          if is_capital_sigma c d then
            String "207"%char
              (String (if after_cased && negb (cased_follows s'')
                       then "130"%char else "131"%char)
                 (lower_from true s''))
          else if is_small_sigma c d then
            String c (String d (lower_from true s''))
          else
            String (ascii_lower c)
              (lower_from (if is_case_ignorable c then after_cased else is_cased c) s')
      | EmptyString => String (ascii_lower c) EmptyString
      end
  end.

Definition lower (s : string) : string := lower_from false s.

(** [startswith p s]: [s.startswith(p)]. *)
Fixpoint startswith (p s : string) : bool :=
  match p, s with
  | EmptyString, _ => true
  | String _ _, EmptyString => false
  | String a p', String b s' => bool_decide (a = b) && startswith p' s'
  end.

(** [str_contains q s]: the Python test [q in s] on two strings. *)
Fixpoint str_contains (q s : string) : bool :=
  startswith q s ||
  match s with
  | EmptyString => false
  | String _ s' => str_contains q s'
  end.

(** ** Python values reaching [search] as the query

    The parameter is annotated [Any]; the model holds the values the
    console and a direct caller ordinarily pass: [None], an [int], a
    [float] and a [str].  [bool] is a subclass of [int] and is covered by
    [PInt].  A float is a finite double [m * 2^e]; nan and the infinities
    are left out, and so are the other types ([bytes], which has a
    [lower] of its own, and objects with their own [__eq__]): what is
    stated of every [pyval] is stated of these four kinds. *)

Inductive pyval :=
  | PNone
  | PInt (z : Z)
  | PFloat (m e : Z)
  | PStr (s : string).

(** [int == float], which Python decides exactly. *)
Definition int_eq_float (z m e : Z) : bool :=
  if 0 <=? e then z =? m * 2 ^ e else z * 2 ^ (- e) =? m.

(** [float == float] on finite doubles. *)
Definition float_eq (m1 e1 m2 e2 : Z) : bool :=
  if e1 <=? e2 then m1 =? m2 * 2 ^ (e2 - e1) else m1 * 2 ^ (e1 - e2) =? m2.

(** [a == b]. *)
Definition py_eq (a b : pyval) : bool :=
  match a, b with
  | PNone, PNone => true
  | PInt x, PInt y => x =? y
  | PInt x, PFloat m e => int_eq_float x m e
  | PFloat m e, PInt y => int_eq_float y m e
  | PFloat m1 e1, PFloat m2 e2 => float_eq m1 e1 m2 e2
  | PStr s, PStr t => bool_decide (s = t)
  | _, _ => false
  end.

(** [v.lower()]: only [str] has the method. *)
Definition py_lower (v : pyval) : result string :=
  match v with
  | PStr s => Ok (lower s)
  | _ => Raise AttributeError
  end.

(** ** Records *)

Inductive SearchCriteria := TITLE | YEAR | DIRECTOR.

#[global] Instance SearchCriteria_eq_dec : EqDecision SearchCriteria.
Proof. solve_decision. Defined.

(** The dataclass does not check its annotations: [title] and [director]
    hold whatever the row gave, a [str] or [None]. *)
Record Movie := {
  title : option string;
  release_year : Z;
  director : option string
}.

#[global] Instance Movie_eq_dec : EqDecision Movie.
Proof. solve_decision. Defined.

(** [field.lower()] on a field of a [Movie]. *)
Definition field_lower (f : option string) : result string :=
  match f with
  | Some s => Ok (lower s)
  | None => Raise AttributeError
  end.

(** ** Search strategies *)

(** A list comprehension [[m for m in movies if p m]] whose test can
    raise: the first exception ends the comprehension. *)
Fixpoint comprehension (p : Movie → result bool) (movies : list Movie)
  : result (list Movie) :=
  match movies with
  | [] => Ok []
  | m :: rest =>
      b ← p m;
      tl ← comprehension p rest;
      Ok (if b : bool then m :: tl else tl)
  end.

Definition TitleSearchStrategy_search (movies : list Movie) (query : pyval)
  : result (list Movie) :=
  q ← py_lower query;
  comprehension (λ movie, t ← field_lower (title movie); Ok (str_contains q t)) movies.

Definition YearSearchStrategy_search (movies : list Movie) (query : pyval)
  : result (list Movie) :=
  comprehension (λ movie, Ok (py_eq (PInt (release_year movie)) query)) movies.

Definition DirectorSearchStrategy_search (movies : list Movie) (query : pyval)
  : result (list Movie) :=
  q ← py_lower query;
  comprehension (λ movie, t ← field_lower (director movie); Ok (str_contains q t)) movies.

(** [MovieManager._search_strategies]. *)
Definition _search_strategies (criteria : SearchCriteria)
  : list Movie → pyval → result (list Movie) :=
  match criteria with
  | TITLE => TitleSearchStrategy_search
  | YEAR => YearSearchStrategy_search
  | DIRECTOR => DirectorSearchStrategy_search
  end.

(** ** The source file

    [csv.reader] is taken as given: a readable file is the list of its
    lines, each already split into cells (a blank line is the empty
    list).  [int] and [csv.DictReader] are modelled from their library
    behaviour. *)

(** [str.isspace] on ASCII: the blanks that [str.strip] removes. *)
Definition is_space (c : ascii) : bool :=
  let n := Ascii.N_of_ascii c in
  ((9 <=? n) && (n <=? 13) || (28 <=? n) && (n <=? 32))%N.

(** The blanks that [int] skips around a number: tab, line feed,
    vertical tab, form feed, carriage return and space, and not the four
    separators 28 to 31 that [str.strip] removes too. *)
Definition is_int_space (c : ascii) : bool :=
  let n := Ascii.N_of_ascii c in
  ((9 <=? n) && (n <=? 13) || (n =? 32))%N.

Fixpoint lstrip_of (blank : ascii → bool) (s : string) : string :=
  match s with
  | EmptyString => EmptyString
  | String c s' => if blank c then lstrip_of blank s' else s
  end.

Fixpoint rstrip_of (blank : ascii → bool) (s : string) : string :=
  match s with
  | EmptyString => EmptyString
  | String c s' =>
      let r := rstrip_of blank s' in
      if blank c && bool_decide (r = EmptyString) then EmptyString else String c r
  end.

(** [str.lstrip] and [str.rstrip]. *)
Definition lstrip (s : string) : string := lstrip_of is_space s.
Definition rstrip (s : string) : string := rstrip_of is_space s.

Definition digit_value (c : ascii) : option Z :=
  let n := Ascii.N_of_ascii c in
  if ((48 <=? n) && (n <=? 57))%N then Some (Z.of_N n - 48) else None.

(** Decimal digits, with single underscores allowed between digits. *)
Fixpoint parse_digits (after_digit : bool) (acc : Z) (s : string) : option Z :=
  match s with
  | EmptyString => if after_digit then Some acc else None
  | String c s' =>
      match digit_value c with
      | Some d => parse_digits true (10 * acc + d) s'
      | None =>
          if bool_decide (c = "_"%char) && after_digit
          then parse_digits false acc s'
          else None
      end
  end.

(** The number of digits of a numeral, underscores not counted. *)
Fixpoint count_digits (s : string) : N :=
  match s with
  | EmptyString => 0%N
  | String c s' =>
      ((if digit_value c is Some _ then 1 else 0) + count_digits s')%N
  end.

(** The interpreter's default limit on the digits of a decimal numeral
    ([sys.get_int_max_str_digits()], since CPython 3.11). *)
Definition int_max_str_digits : N := 4300.

(** [int(s)] for a [str]: blanks around (those of [is_int_space], not
    the separators), an optional sign, digits, at most
    [int_max_str_digits] of them.  Exact on ASCII text.  [int] also
    reads the blanks and the decimal digits of other scripts, which is
    not modelled: text outside ASCII raises here. *)
Definition int_of_str (s : string) : result Z :=
  let s := rstrip_of is_int_space (lstrip_of is_int_space s) in
  let '(neg, body) :=
    match s with
    | String "-"%char b => (true, b)
    | String "+"%char b => (false, b)
    | _ => (false, s)
    end in
  match parse_digits false 0 body with
  | Some n =>
      if (int_max_str_digits <? count_digits body)%N then Raise ValueError
      else Ok (if neg : bool then - n else n)
  | None => Raise ValueError
  end.

(** [int(v)] for a cell of a row: [int(None)] is a [TypeError]. *)
Definition py_int (v : option string) : result Z :=
  match v with
  | Some s => int_of_str s
  | None => Raise TypeError
  end.

(** One row of [csv.DictReader]: [dict(zip(fieldnames, row))], then the
    keys a short row leaves over are set to [restval], which is [None].
    The cells a long row has in excess go under the key [None], which no
    subscript of the program reads; they are dropped here. *)
Definition dict_row (fieldnames row : list string) : gmap string (option string) :=
  let d := foldl (λ d kv, <[kv.1 := Some kv.2]> d) ∅ (zip fieldnames row) in
  foldl (λ d k, <[k := None]> d) d (drop (length row) fieldnames).

(** The first line is the header, whatever it holds; blank lines after it
    are skipped. *)
Definition DictReader (lines : list (list string))
  : list (gmap string (option string)) :=
  match lines with
  | [] => []
  | fieldnames :: rest =>
      dict_row fieldnames <$> filter (λ row, row ≠ []) rest
  end.

(** [row[key]]. *)
Definition subscript (row : gmap string (option string)) (key : string)
  : result (option string) :=
  match row !! key with
  | Some v => Ok v
  | None => Raise (KeyError key)
  end.

(** The body of the loop of [_load_movies]: keyword arguments are
    evaluated left to right. *)
Definition make_movie (row : gmap string (option string)) : result Movie :=
  t ← subscript row "title";
  y ← subscript row "release_year";
  y ← py_int y;
  d ← subscript row "director";
  Ok {| title := t; release_year := y; director := d |}.

(** [for row in reader: ... movies.append(movie)]. *)
Fixpoint read_movies (rows : list (gmap string (option string)))
  : result (list Movie) :=
  match rows with
  | [] => Ok []
  | row :: rest =>
      movie ← make_movie row;
      tl ← read_movies rest;
      Ok (movie :: tl)
  end.

(** A file: its modification time and what reading it gives, the lines
    or the error of [open] (an error met while reading is taken to come
    before the first row reaches the loop).  The float of
    [os.path.getmtime] is only ever compared, and is modelled by an
    integer number of ticks. *)
Record file := {
  st_mtime : Z;
  content : result (list (list string))
}.

Definition getmtime (fs : gmap string file) (name : string) : result Z :=
  match fs !! name with
  | Some f => Ok (st_mtime f)
  | None => Raise FileNotFoundError
  end.

Definition open_csv (fs : gmap string file) (name : string)
  : result (list (list string)) :=
  match fs !! name with
  | Some f => content f
  | None => Raise FileNotFoundError
  end.

(** ** The index

    [_index] is a [defaultdict] of [defaultdict(list)]: a subscript
    creates the entry it does not find. *)

Definition index_touch (field : string)
    (idx : gmap string (gmap string (list Movie))) : gmap string (gmap string (list Movie)) :=
  match idx !! field with
  | Some _ => idx
  | None => <[field := ∅]> idx
  end.

(** [idx[field][key].append(movie)]. *)
Definition index_append (field key : string) (movie : Movie)
    (idx : gmap string (gmap string (list Movie))) : gmap string (gmap string (list Movie)) :=
  let inner := default ∅ (idx !! field) in
  <[field := <[key := (default [] (inner !! key) ++ [movie])%list]> inner]> idx.

(** First loop of [_build_index]. *)
Fixpoint index_years (movies : list Movie)
    (idx : gmap string (gmap string (list Movie))) : gmap string (gmap string (list Movie)) :=
  match movies with
  | [] => idx
  | movie :: rest =>
      index_years rest (index_append "year" (pretty (release_year movie)) movie idx)
  end.

(** Second loop: [self._index['director']] is subscripted before
    [movie.director.lower()] is evaluated, so the entry exists when the
    latter raises. *)
Fixpoint index_directors (movies : list Movie)
    (idx : gmap string (gmap string (list Movie)))
  : result () * gmap string (gmap string (list Movie)) :=
  match movies with
  | [] => (Ok (), idx)
  | movie :: rest =>
      let idx := index_touch "director" idx in
      match field_lower (director movie) with
      | Ok key => index_directors rest (index_append "director" key movie idx)
      | Raise e => (Raise e, idx)
      end
  end.

(** ** Program state *)

(** A list object: its identity and its items.  The program never
    changes a list once it is stored in [_movies], so the items travel
    with the identity. *)
Record snapshot := {
  list_id : nat;
  items : list Movie
}.

Record MovieDataSource := {
  filename : string;
  _movies : option snapshot;
  _last_modified : Z;
  _index : gmap string (gmap string (list Movie))
}.

(** The state of [functools.lru_cache] around [MovieManager.search]:
    the entries, most recently used first, and the two counters of
    [cache_info()]. *)
Record lru := {
  entries : list ((SearchCriteria * pyval) * list Movie);
  hits : nat;
  misses : nat
}.

Inductive log_record :=
  | LogInfo (msg : string)
  | LogError (e : exn).

(** A [MovieManager] with its data source and the cache of its [search],
    the log written so far, and the next fresh object identity. *)
Record State := {
  data_source : MovieDataSource;
  search_cache : lru;
  log : list log_record;
  next_id : nat
}.

Definition set_movies (v : option snapshot) (d : MovieDataSource) : MovieDataSource :=
  {| filename := filename d; _movies := v;
     _last_modified := _last_modified d; _index := _index d |}.

Definition set_last_modified (t : Z) (d : MovieDataSource) : MovieDataSource :=
  {| filename := filename d; _movies := _movies d;
     _last_modified := t; _index := _index d |}.

Definition set_index (idx : gmap string (gmap string (list Movie)))
    (d : MovieDataSource) : MovieDataSource :=
  {| filename := filename d; _movies := _movies d;
     _last_modified := _last_modified d; _index := idx |}.

Definition with_data_source (f : MovieDataSource → MovieDataSource) (s : State) : State :=
  {| data_source := f (data_source s); search_cache := search_cache s;
     log := log s; next_id := next_id s |}.

Definition with_search_cache (f : lru → lru) (s : State) : State :=
  {| data_source := data_source s; search_cache := f (search_cache s);
     log := log s; next_id := next_id s |}.

Definition with_log (r : log_record) (s : State) : State :=
  {| data_source := data_source s; search_cache := search_cache s;
     log := (log s ++ [r])%list; next_id := next_id s |}.

(** ** The monad of stateful code that can raise *)

Definition M (A : Type) : Type := State → result A * State.

#[global] Instance M_ret : MRet M := λ A a s, (Ok a, s).
#[global] Instance M_bind : MBind M := λ A B f m s,
  match m s with
  | (Ok a, s') => f a s'
  | (Raise e, s') => (Raise e, s')
  end.

Definition raise {A} (e : exn) : M A := λ s, (Raise e, s).
Definition lift {A} (r : result A) : M A := λ s, (r, s).
Definition gets {A} (f : State → A) : M A := λ s, (Ok (f s), s).
Definition modify (f : State → State) : M () := λ s, (Ok (), f s).

(** [try: body except Exception as e: handler e]. *)
Definition try_except {A} (body : M A) (handler : exn → M A) : M A := λ s,
  match body s with
  | (Ok a, s') => (Ok a, s')
  | (Raise e, s') => handler e s'
  end.

(** [[]]: a new list object. *)
Definition new_list : M nat := λ s,
  (Ok (next_id s),
   {| data_source := data_source s; search_cache := search_cache s;
      log := log s; next_id := S (next_id s) |}).

(** [for movie in v]: [None] is not iterable. *)
Definition iterate (v : option snapshot) : result (list Movie) :=
  match v with
  | Some l => Ok (items l)
  | None => Raise TypeError
  end.

(** ** [MovieDataSource] *)

Definition MovieDataSource_init (name : string) : MovieDataSource :=
  {| filename := name; _movies := None; _last_modified := 0; _index := ∅ |}.

Definition _build_index : M () :=
  modify (with_data_source (set_index ∅));;
  v ← gets (_movies ∘ data_source);
  movies ← lift (iterate v);
  modify (with_data_source (λ d, set_index (index_years movies (_index d)) d));;
  idx ← gets (_index ∘ data_source);
  modify (with_data_source (set_index (index_directors movies idx).2));;
  lift (index_directors movies idx).1.

Definition _load_movies (fs : gmap string file) : M () :=
  name ← gets (filename ∘ data_source);
  modify (with_log (LogInfo ("Loading movies from " +:+ name)));;
  try_except
    (id ← new_list;
     lines ← lift (open_csv fs name);
     movies ← lift (read_movies (DictReader lines));
     modify (with_data_source (set_movies (Some {| list_id := id; items := movies |})));;
     _build_index)
    (λ e, modify (with_log (LogError e));; raise e).

(** The block under [with self._lock:] in the property [movies]. *)
Definition movies_locked (fs : gmap string file) (current_mtime : Z)
  : M (option snapshot) :=
  v ← gets (_movies ∘ data_source);
  last ← gets (_last_modified ∘ data_source);
  (if bool_decide (v = None) || (last <? current_mtime)
   then _load_movies fs;;
        modify (with_data_source (set_last_modified current_mtime))
   else mret ());;
  gets (_movies ∘ data_source).

(** The property [movies]: the modification time is read, then the lock
    is taken. *)
Definition movies (fs : gmap string file) : M (option snapshot) :=
  name ← gets (filename ∘ data_source);
  current_mtime ← lift (getmtime fs name);
  movies_locked fs current_mtime.

(** ** [MovieManager] *)

Definition maxsize : nat := 128.

(** Keys of the cache are compared with [==] component by component. *)
Definition key_eq (k1 k2 : SearchCriteria * pyval) : bool :=
  bool_decide (k1.1 = k2.1) && py_eq k1.2 k2.2.

(** Looks [k] up: the entry found and the other entries, in order. *)
Fixpoint cache_get (k : SearchCriteria * pyval)
    (es : list ((SearchCriteria * pyval) * list Movie))
  : option (((SearchCriteria * pyval) * list Movie)
            * list ((SearchCriteria * pyval) * list Movie)) :=
  match es with
  | [] => None
  | e :: rest =>
      if key_eq k e.1 then Some (e, rest)
      else match cache_get k rest with
           | Some (found, rest') => Some (found, e :: rest')
           | None => None
           end
  end.

(** What follows the call on a miss: nothing if the key got in meanwhile,
    else the new entry goes first and, when the cache is full, the least
    recently used one is dropped. *)
Definition cache_put (k : SearchCriteria * pyval) (v : list Movie) (c : lru) : lru :=
  {| entries :=
       match cache_get k (entries c) with
       | Some _ => entries c
       | None =>
           if bool_decide (maxsize ≤ length (entries c))%nat
           then (k, v) :: removelast (entries c)
           else (k, v) :: entries c
       end;
     hits := hits c; misses := misses c |}.

(** The undecorated body of [MovieManager.search]. *)
Definition search_body (fs : gmap string file) (criteria : SearchCriteria)
    (query : pyval) : M (list Movie) :=
  let strategy := _search_strategies criteria in
  v ← movies fs;
  l ← lift (iterate v);
  lift (strategy l query).

(** [MovieManager.search] under [@lru_cache(maxsize=128)]. *)
Definition search (fs : gmap string file) (criteria : SearchCriteria)
    (query : pyval) : M (list Movie) :=
  c ← gets search_cache;
  match cache_get (criteria, query) (entries c) with
  | Some (found, rest) =>
      modify (with_search_cache (λ c,
        {| entries := found :: rest; hits := S (hits c); misses := misses c |}));;
      mret found.2
  | None =>
      modify (with_search_cache (λ c,
        {| entries := entries c; hits := hits c; misses := S (misses c) |}));;
      r ← search_body fs criteria query;
      modify (with_search_cache (cache_put (criteria, query) r));;
      mret r
  end.

(** A manager just built.  [lru_cache] on a method keeps one cache for
    the class, with [self] in each key: a program that builds one manager,
    as [main] does, sees the cache as the manager's own, which is how it
    is modelled. *)
Definition MovieManager_init (name : string) : State :=
  {| data_source := MovieDataSource_init name;
     search_cache := {| entries := []; hits := 0; misses := 0 |};
     log := []; next_id := 0 |}.

(** ** Derived notions used in the statements *)

(** The matching rule in the words of the specification: [q] occurs in
    [t] as a substring when letter case is ignored. *)
Definition ci_substring (q t : string) : Prop :=
  ∃ pre post, lower t = pre +:+ lower q +:+ post.

(** A field that is a string and matches. *)
Definition field_matches (q : string) (f : option string) : Prop :=
  ∃ t, f = Some t ∧ ci_substring q t.

(** What a load reads from the file: [open], [csv.DictReader] and the
    loop of [_load_movies] together. *)
Definition load_rows (fs : gmap string file) (name : string) : result (list Movie) :=
  lines ← open_csv fs name;
  read_movies (DictReader lines).

(** What [_build_index] leaves in [_index] for a list of records. *)
Definition build_index_of (movies : list Movie)
  : result () * gmap string (gmap string (list Movie)) :=
  index_directors movies (index_years movies ∅).

(** The sequence stored under [idx[field][key]], empty when absent. *)
Definition index_get (idx : gmap string (gmap string (list Movie)))
    (field key : string) : list Movie :=
  default [] (default ∅ (idx !! field) !! key).

(** The number of records held by one index. *)
Definition index_size (idx : gmap string (gmap string (list Movie)))
    (field : string) : nat :=
  map_fold (λ _ l n, length l + n)%nat 0%nat (default ∅ (idx !! field)).

(** The record list and the two indices agree in count. *)
Definition counts_agree (d : MovieDataSource) : Prop :=
  ∀ snap, _movies d = Some snap →
    index_size (_index d) "year" = length (items snap)
    ∧ index_size (_index d) "director" = length (items snap).

(** Each index holds, under each key, the records of the list that
    share the key, in the order of the list. *)
Definition index_groups (d : MovieDataSource) : Prop :=
  ∀ snap, _movies d = Some snap →
    (∀ y, index_get (_index d) "year" (pretty y)
          = filter (λ m, release_year m = y) (items snap))
    ∧ (∀ key, index_get (_index d) "director" key
          = filter (λ m, lower <$> director m = Some key) (items snap)).

(** Whether [movies] reloads. *)
Definition stale (d : MovieDataSource) (current_mtime : Z) : Prop :=
  _movies d = None ∨ _last_modified d < current_mtime.

(** A row on which the loop of [_load_movies] raises: a required column
    is not in the header, or the year cell is absent or is not an
    integer. *)
Definition bad_row (row : gmap string (option string)) : Prop :=
  row !! "title" = None
  ∨ row !! "release_year" = None
  ∨ row !! "release_year" = Some None
  ∨ (∃ cell, row !! "release_year" = Some (Some cell) ∧ int_of_str cell = Raise ValueError)
  ∨ row !! "director" = None.

(** The state with the index emptied: what is left when the index is
    disregarded. *)
Definition forget_index (s : State) : State :=
  with_data_source (set_index ∅) s.

(** ** Concurrent callers of [movies]

    Each caller runs the property once: it reads the modification time,
    takes the lock when it is free, runs the block under
    [with self._lock:], and gives the lock back on the way out, with the
    value or the exception of the block.  The environment may rewrite or
    remove a file between any two steps. *)

Inductive pc :=
  | Start
  | HaveTime (current_mtime : Z)
  | Inside (current_mtime : Z)
  | Leaving (r : result (option snapshot))
  | Done (r : result (option snapshot)).

Inductive event :=
  | Stat (i : nat)
  | Enter (i : nat)
  | Block (i : nat)
  | Exit (i : nat)
  | Touch (name : string) (f : option file).

Record config := {
  state : State;
  files : gmap string file;
  locked : bool;
  callers : list pc
}.

Definition exec (ev : event) (c : config) : option config :=
  match ev with
  | Stat i =>
      match callers c !! i with
      | Some Start =>
          let next :=
            match getmtime (files c) (filename (data_source (state c))) with
            | Ok t => HaveTime t
            | Raise e => Done (Raise e)
            end in
          Some {| state := state c; files := files c; locked := locked c;
                  callers := <[i := next]> (callers c) |}
      | _ => None
      end
  | Enter i =>
      match callers c !! i with
      | Some (HaveTime t) =>
          if locked c then None
          else Some {| state := state c; files := files c; locked := true;
                       callers := <[i := Inside t]> (callers c) |}
      | _ => None
      end
  | Block i =>
      match callers c !! i with
      | Some (Inside t) =>
          let r := movies_locked (files c) t (state c) in
          Some {| state := r.2; files := files c; locked := locked c;
                  callers := <[i := Leaving r.1]> (callers c) |}
      | _ => None
      end
  | Exit i =>
      match callers c !! i with
      | Some (Leaving r) =>
          Some {| state := state c; files := files c; locked := false;
                  callers := <[i := Done r]> (callers c) |}
      | _ => None
      end
  | Touch name f =>
      Some {| state := state c;
              files := match f with
                       | Some f => <[name := f]> (files c)
                       | None => delete name (files c)
                       end;
              locked := locked c;
              callers := callers c |}
  end.

Fixpoint run (evs : list event) (c : config) : option config :=
  match evs with
  | [] => Some c
  | ev :: rest =>
      match exec ev c with
      | Some c' => run rest c'
      | None => None
      end
  end.

(** A caller between taking the lock and giving it back. *)
Definition in_block (p : option pc) : Prop :=
  match p with
  | Some (Inside _) | Some (Leaving _) => True
  | _ => False
  end.

(** A caller whose block has raised [AttributeError]. *)
Definition raised_attribute_error (p : option pc) : Prop :=
  p = Some (Leaving (Raise AttributeError)) ∨ p = Some (Done (Raise AttributeError)).

(** The discipline of the lock: a caller in the block holds the lock, no
    two callers are in the block, and a caller about to leave with a
    value holds what the data source holds. *)
Definition disciplined (c : config) : Prop :=
  (∀ i, in_block (callers c !! i) → locked c = true)
  ∧ (∀ i j, in_block (callers c !! i) → in_block (callers c !! j) → i = j)
  ∧ (∀ i v, callers c !! i = Some (Leaving (Ok v)) →
       v = _movies (data_source (state c)) ∧ is_Some v).

(** A manager just built, with [n] callers about to call [movies]. *)
Definition initial (name : string) (fs : gmap string file) (n : nat) : config :=
  {| state := MovieManager_init name; files := fs; locked := false;
     callers := replicate n Start |}.

(** ** States a load leaves *)

(** After the log line and the fresh list of [_load_movies]. *)
Definition load_started (s : State) : State :=
  {| data_source := data_source s; search_cache := search_cache s;
     log := (log s ++ [LogInfo ("Loading movies from " +:+ filename (data_source s))])%list;
     next_id := S (next_id s) |}.

(** After the new list is stored and [_build_index] has run on it, to
    its end or to the record on which it raises. *)
Definition load_installed (movies : list Movie) (s : State) : State :=
  with_data_source
    (λ d, set_index (build_index_of movies).2
            (set_movies (Some {| list_id := next_id s; items := movies |}) d))
    (load_started s).


(** ** Notions of the statements, defined apart from the code *)

(** Text within ASCII. *)
Fixpoint ascii_text (s : string) : bool :=
  match s with
  | EmptyString => true
  | String c s' => (Ascii.N_of_ascii c <? 128)%N && ascii_text s'
  end.


(** Every character of [s] passes the test [p]. *)
Fixpoint all_chars (p : ascii → bool) (s : string) : bool :=
  match s with
  | EmptyString => true
  | String c s' => p c && all_chars p s'
  end.

(** Every character of [s] is one of [l]. *)
Definition chars_in (l : list ascii) (s : string) : bool :=
  all_chars (λ c, bool_decide (c ∈ l)) s.

(** The same character, or the same letter of A to Z in its two cases
    (a capital is 32 below its small letter). *)
Definition same_letter (a b : ascii) : bool :=
  let x := Ascii.N_of_ascii a in
  let y := Ascii.N_of_ascii b in
  ((x =? y)
   || ((65 <=? x) && (x <=? 90) && (y =? x + 32))
   || ((65 <=? y) && (y <=? 90) && (x =? y + 32)))%N.






(** The blanks of ASCII that [str.strip] removes: those of [int] and the
    separators 28 to 31. *)
Definition str_blanks : list ascii :=
  [" "; "009"; "010"; "011"; "012"; "013"; "028"; "029"; "030"; "031"]%char.

(** The blanks [int] accepts around a number. *)
Definition int_blanks : list ascii :=
  [" "; "009"; "010"; "011"; "012"; "013"]%char.

(** [cell] is a decimal numeral of the integer [y]: blanks, an optional
    sign, zeros, the digits of [y] as [str] writes them, blanks; no more
    digits than the interpreter reads. *)
Definition int_literal (cell : string) (y : Z) : Prop :=
  ∃ pre sign zeros post,
    cell = pre +:+ sign +:+ zeros +:+ pretty (Z.abs y) +:+ post
    ∧ chars_in int_blanks pre = true
    ∧ chars_in int_blanks post = true
    ∧ chars_in ["0"%char] zeros = true
    ∧ ((sign = "" ∧ 0 ≤ y) ∨ (sign = "+" ∧ 0 ≤ y) ∨ (sign = "-" ∧ y ≤ 0))
    ∧ (String.length zeros + String.length (pretty (Z.abs y)) ≤ 4300)%nat.

(** The float [m * 2^e] is the integer [y]. *)
Definition float_is_int (m e y : Z) : Prop :=
  (0 ≤ e ∧ y = m * 2 ^ e) ∨ (e < 0 ∧ m = y * 2 ^ (- e)).

(** The float [m * 2^e] has a fractional part. *)
Definition float_fractional (m e : Z) : Prop :=
  e < 0 ∧ ¬ (2 ^ (- e) | m).
(** ** The example of the specification *)

Definition inception : Movie :=
  {| title := Some "Inception"; release_year := 2010; director := Some "Nolan" |}.
Definition interstellar : Movie :=
  {| title := Some "Interstellar"; release_year := 2014; director := Some "Nolan" |}.

Definition two_movies_csv : list (list string) :=
  [ ["title"; "release_year"; "director"];
    ["Inception"; "2010"; "Nolan"];
    ["Interstellar"; "2014"; "Nolan"] ].

Definition two_movies_file : file :=
  {| st_mtime := 100; content := Ok two_movies_csv |}.

Definition two_movies_fs : gmap string file :=
  {[ "movies.csv" := two_movies_file ]}.

(** A manager just built on [movies.csv]. *)
Definition fresh : State := MovieManager_init "movies.csv".


(** A file whose second row stops after the year. *)
Definition short_row_csv : list (list string) :=
  [ ["title"; "release_year"; "director"];
    ["Inception"; "2010"; "Nolan"];
    ["Interstellar"; "2014"] ].

Definition short_row_file : file :=
  {| st_mtime := 150; content := Ok short_row_csv |}.

(** A file whose last column is the title, with a row that stops before
    it. *)
Definition no_title_csv : list (list string) :=
  [ ["release_year"; "director"; "title"];
    ["2010"; "Nolan"] ].

Definition no_title_fs : gmap string file :=
  {[ "movies.csv" := {| st_mtime := 100; content := Ok no_title_csv |} ]}.

(** A file with a year that is not a number. *)
Definition bad_year_csv : list (list string) :=
  [ ["title"; "release_year"; "director"];
    ["Inception"; "2010"; "Nolan"];
    ["Interstellar"; "twenty-fourteen"; "Nolan"] ].

Definition bad_year_file : file :=
  {| st_mtime := 150; content := Ok bad_year_csv |}.

Definition bad_year_fs : gmap string file :=
  {[ "movies.csv" := bad_year_file ]}.

(** The two-record file rewritten later with one record. *)
Definition one_movie_csv : list (list string) :=
  [ ["title"; "release_year"; "director"];
    ["Dunkirk"; "2017"; "Nolan"] ].

Definition one_movie_file : file :=
  {| st_mtime := 200; content := Ok one_movie_csv |}.

Definition dunkirk : Movie :=
  {| title := Some "Dunkirk"; release_year := 2017; director := Some "Nolan" |}.

(** The manager after a first call of [movies] on the two-record file. *)
Definition loaded : State := (movies two_movies_fs fresh).2.



(** A capital sigma, and a title that ends in one before a letter is
    added. *)
Definition capital_sigma : string := String "206"%char (String "163"%char "").
Definition small_sigma : string := String "207"%char (String "131"%char "").
Definition final_sigma : string := String "207"%char (String "130"%char "").


(** A manager with a full cache: after the searches of the years 127
    down to 0 on the two-record file, the cache holds 128 answers, the
    year 0 used last and the year 127 least recently. *)
Definition full_cache : State :=
  foldl (λ s i, (search two_movies_fs YEAR (PInt (Z.of_nat i)) s).2) fresh
    (reverse (seq 0 128)).

(** ** [ConsoleUI]

    What the console shows is a sequence of events: a line printed, or a
    call of [input] with its prompt.  The text of an exception is not
    modelled: a line built from [str(e)] is an event that carries the
    exception.  In the log, [LogError e] stands for an error record built
    from [str(e)], whatever its fixed prefix. *)

Inductive output :=
  | Print (line : string)
  | Input (prompt : string)
  | PrintError (prefix : string) (e : exn).

#[global] Instance exn_eq_dec : EqDecision exn.
Proof. solve_decision. Defined.

#[global] Instance output_eq_dec : EqDecision output.
Proof. solve_decision. Defined.

Definition newline : string := String "010"%char "".

(** [s * n]. *)
Fixpoint str_repeat (s : string) (n : nat) : string :=
  match n with
  | O => ""
  | S n' => s +:+ str_repeat s n'
  end.

(** A field of a [Movie] inside an f-string: [None] is shown as [None]. *)
Definition str_field (f : option string) : string := default "None" f.

(** [str.strip()], exact on ASCII text: it removes the blanks of
    [str.isspace], among them the four separators that [int] does not
    skip. *)
Definition strip (s : string) : string := rstrip (lstrip s).

(** [display_movies]: its [print] calls, one event each; [printed_text]
    below gives the text they write. *)
Definition ConsoleUI_display_movies (movies : list Movie) : list output :=
  match movies with
  | [] => [Print (newline +:+ "No movies found.")]
  | _ =>
      Print (newline +:+ "Search Results:") ::
      Print (str_repeat "-" 50) ::
      (movie ← movies;
       [ Print ("Title: " +:+ str_field (title movie));
         Print ("Year: " +:+ pretty (release_year movie));
         Print ("Director: " +:+ str_field (director movie));
         Print (str_repeat "-" 50) ])
  end.

(** The text the [print] calls of [out] write, each line with its end
    of line. *)
Fixpoint printed_text (out : list output) : string :=
  match out with
  | [] => ""
  | Print line :: out' => line +:+ String "010"%char (printed_text out')
  | _ :: out' => printed_text out'
  end.

(** A field that is a string without a line feed. *)
Definition one_line (f : option string) : Prop :=
  ∃ t, f = Some t ∧ all_chars (λ c, negb (bool_decide (c = "010"%char))) t = true.

Definition menu : list output :=
  [ Print (newline +:+ "Movie Data Management");
    Print "1. Search Movie by Name";
    Print "2. Search Movie by Release Year";
    Print "3. Search Movie by Director";
    Print "4. Exit";
    Input (newline +:+ "Enter your choice (1-4): ") ].

(** The call of [input] that reads the choice. *)
Definition choice_prompt : output := Input (newline +:+ "Enter your choice (1-4): ").

(** The [if]/[elif] chain of [run] after the test for ['4']: the prompt
    of the second [input] and what is done with the line it reads; [None]
    for the [else] branch. *)
Definition request (fs : gmap string file) (choice : string)
  : option (string * (string → M (list Movie))) :=
  if decide (choice = "1") then
    Some ("Enter movie name: ",
          λ line, let query := strip line in search fs TITLE (PStr query))
  else if decide (choice = "2") then
    Some ("Enter release year: ",
          λ line, year ← lift (int_of_str (strip line)); search fs YEAR (PInt year))
  else if decide (choice = "3") then
    Some ("Enter director name: ",
          λ line, let query := strip line in search fs DIRECTOR (PStr query))
  else None.

(** The end of one turn of the loop: the results are displayed, or one of
    the two [except] clauses reports the exception. *)
Definition report (r : result (list Movie) * State) : list output * State :=
  match r with
  | (Ok results, s) => (ConsoleUI_display_movies results, s)
  | (Raise ValueError, s) => ([PrintError "Invalid input: " ValueError], s)
  | (Raise e, s) =>
      ([Print "An unexpected error occurred. Please try again."],
       with_log (LogError e) s)
  end.

(** How far a session has gone on the lines given.  [run] returns on
    the choice ['4'] only: [Exited].  [InputEnded] is no end of the
    session: the lines given are read, and the output and the state are
    those of the program at the [input] that finds no line.  What
    follows is not modelled: at a terminal the program waits there; on a
    closed stream [input] raises [EOFError], which the second [except]
    clause logs, and the loop repeats that for ever. *)
Inductive outcome := Exited | InputEnded.

(** [ConsoleUI.run] on the lines typed by the user (each without its end
    of line), the files being those of [fs] during the whole session. *)
Fixpoint ConsoleUI_run (fs : gmap string file) (lines : list string) (s : State)
  : outcome * list output * State :=
  match lines with
  | [] => (InputEnded, menu, s)
  | line :: lines =>
      let choice := strip line in
      if decide (choice = "4") then
        (Exited, menu ++ [Print "Exiting application."], s)%list
      else
        match request fs choice with
        | None =>
            let '(ended, out, s') := ConsoleUI_run fs lines s in
            (ended, menu ++ Print "Invalid choice. Please try again." :: out, s')%list
        | Some (prompt, call) =>
            match lines with
            | [] => (InputEnded, menu ++ [Input prompt], s)%list
            | line :: lines =>
                let '(shown, s1) := report (call line s) in
                let '(ended, out, s') := ConsoleUI_run fs lines s1 in
                (ended, menu ++ Input prompt :: shown ++ out, s')%list
            end
        end
  end.

(** [main]: neither the constructors nor [run] raise an [Exception], so
    the [except] clause of [main] is never entered. *)
Definition main (fs : gmap string file) (lines : list string)
  : outcome * list output * State :=
  ConsoleUI_run fs lines (MovieManager_init "movies.csv").

(** The state after [lru_cache] has counted a miss. *)
Definition miss_counted (s : State) : State :=
  with_search_cache
    (λ c, {| entries := entries c; hits := hits c; misses := S (misses c) |}) s.

(** Some call of [display_movies] is among the output: each call starts
    with one of its two headings. *)
Definition displays_results (out : list output) : Prop :=
  Print (newline +:+ "Search Results:") ∈ out
  ∨ Print (newline +:+ "No movies found.") ∈ out.

(** ** Progress of the callers *)

(** The lock is held by a caller in the block. *)
Definition lock_owned (c : config) : Prop :=
  locked c = true → ∃ i, in_block (callers c !! i).

(** Every call has returned or raised. *)
Definition all_done (c : config) : Prop :=
  ∀ i p, callers c !! i = Some p → ∃ r, p = Done r.

(** The steps of the callers themselves. *)
Definition caller_step (ev : event) : Prop :=
  match ev with
  | Touch _ _ => False
  | _ => True
  end.
(** * Properties *)

(** ** Strings *)

Example lower_mixed : lower "Christopher NOLAN, 2010" = "christopher nolan, 2010".
Proof. reflexivity. Qed.

Example str_contains_inner :
  str_contains "ter" "interstellar" = true
  ∧ str_contains "" "" = true
  ∧ str_contains "xyz" "interstellar" = false.
Proof. by repeat split. Qed.

Example lower_sigma :
  lower ("A" +:+ capital_sigma) = "a" +:+ final_sigma
  ∧ lower ("A" +:+ capital_sigma +:+ "B") = "a" +:+ small_sigma +:+ "b"
  ∧ lower (capital_sigma +:+ capital_sigma) = small_sigma +:+ final_sigma
  ∧ lower ("A." +:+ capital_sigma +:+ ".") = "a." +:+ final_sigma +:+ "."
  ∧ lower ("1" +:+ capital_sigma) = "1" +:+ small_sigma.
Proof. by repeat split. Qed.

Lemma ascii_lower_idemp c : ascii_lower (ascii_lower c) = ascii_lower c.
Proof. by destruct c as [[] [] [] [] [] [] [] []]. Qed.

(** Outside ASCII [ascii_lower] changes nothing. *)
Lemma ascii_lower_high (c : ascii) (n : N) :
  (128 <=? n)%N = true → Ascii.N_of_ascii (ascii_lower c) = n → Ascii.N_of_ascii c = n.
Proof.
  destruct c as [[] [] [] [] [] [] [] []]; intros Hn Hc; try exact Hc;
    subst n; vm_compute in Hn; discriminate.
Qed.

Lemma lower_from_cons2 (b : bool) (c d : ascii) (s : string) :
  lower_from b (String c (String d s))
  = if is_capital_sigma c d then
      String "207"%char
        (String (if b && negb (cased_follows s) then "130"%char else "131"%char)
           (lower_from true s))
    else if is_small_sigma c d then String c (String d (lower_from true s))
    else String (ascii_lower c)
           (lower_from (if is_case_ignorable c then b else is_cased c) (String d s)).
Proof. done. Qed.

Lemma lower_from_head (b : bool) (d : ascii) (t : string) :
  ∃ d1 rest, lower_from b (String d t) = String d1 rest
    ∧ (d1 = ascii_lower d ∨ Ascii.N_of_ascii d1 = 207%N).
Proof.
  destruct t as [|e t]; [by eexists _, _; split; [|left]|].
  rewrite lower_from_cons2. destruct (is_capital_sigma d e) eqn:Hcap.
  - eexists _, _. split; [done|]. by right.
  - destruct (is_small_sigma d e) eqn:Hsmall.
    + eexists _, _. split; [done|]. right.
      unfold is_small_sigma in Hsmall. apply andb_true_iff in Hsmall as [Hd _].
      by apply N.eqb_eq in Hd.
    + eexists _, _. split; [done|]. by left.
Qed.

(** Lower-casing the two bytes that are no sigma leaves no sigma. *)
Lemma sigma_after_lower (c d d1 : ascii) :
  is_capital_sigma c d = false → is_small_sigma c d = false →
  d1 = ascii_lower d ∨ Ascii.N_of_ascii d1 = 207%N →
  is_capital_sigma (ascii_lower c) d1 = false
  ∧ is_small_sigma (ascii_lower c) d1 = false.
Proof.
  intros Hcap Hsmall Hd1. split.
  - destruct (is_capital_sigma (ascii_lower c) d1) eqn:H; [|done].
    unfold is_capital_sigma in *. apply andb_true_iff in H as [Hc Hd].
    apply N.eqb_eq in Hc, Hd. apply ascii_lower_high in Hc; [|done].
    destruct Hd1 as [->|Hd1]; [|congruence].
    apply ascii_lower_high in Hd; [|done].
    by rewrite Hc, Hd in Hcap.
  - destruct (is_small_sigma (ascii_lower c) d1) eqn:H; [|done].
    unfold is_small_sigma in *. apply andb_true_iff in H as [Hc Hd].
    apply N.eqb_eq in Hc. apply ascii_lower_high in Hc; [|done].
    rewrite Hc in Hsmall. simpl in Hsmall.
    destruct Hd1 as [->|Hd1]; [|by rewrite Hd1 in Hd].
    apply orb_true_iff in Hd as [Hd|Hd]; apply N.eqb_eq in Hd;
      apply ascii_lower_high in Hd; try done; by rewrite Hd in Hsmall.
Qed.

Lemma lower_from_idemp (b b' : bool) (s : string) :
  lower_from b' (lower_from b s) = lower_from b s.
Proof.
  assert (Hgen : ∀ n s, (String.length s ≤ n)%nat →
            ∀ b b', lower_from b' (lower_from b s) = lower_from b s);
    [|by apply (Hgen (String.length s))].
  clear. intros n. induction n as [|n IH]; intros s Hn b b'.
  { destruct s; [done|simpl in Hn; lia]. }
  destruct s as [|c [|d s]]; [done|simpl; by rewrite ascii_lower_idemp|].
  simpl in Hn. rewrite lower_from_cons2.
  destruct (is_capital_sigma c d) eqn:Hcap; [|destruct (is_small_sigma c d) eqn:Hsmall].
  - rewrite lower_from_cons2.
    destruct (b && negb (cased_follows s)); simpl; by rewrite IH by lia.
  - rewrite lower_from_cons2, Hcap, Hsmall. by rewrite IH by lia.
  - destruct (lower_from_head (if is_case_ignorable c then b else is_cased c) d s)
      as (d1 & rest & Heq & Hd1).
    destruct (sigma_after_lower c d d1 Hcap Hsmall Hd1) as [Hcap' Hsmall'].
    rewrite Heq, lower_from_cons2, Hcap', Hsmall', <- Heq.
    rewrite IH by (simpl; lia). by rewrite ascii_lower_idemp.
Qed.

Lemma lower_idemp s : lower (lower s) = lower s.
Proof. apply lower_from_idemp. Qed.


(** The two cases of a letter are the characters that [ascii_lower]
    sends to the same one. *)
Lemma same_letter_lower (a b : ascii) :
  same_letter a b = bool_decide (ascii_lower a = ascii_lower b).
Proof.
  assert (Hn : ∀ c, Ascii.N_of_ascii (ascii_lower c)
                 = (if (65 <=? Ascii.N_of_ascii c) && (Ascii.N_of_ascii c <=? 90)
                    then Ascii.N_of_ascii c + 32 else Ascii.N_of_ascii c)%N).
  { intros c. by destruct c as [[] [] [] [] [] [] [] []]. }
  assert (Hinj : ∀ c d, Ascii.N_of_ascii c = Ascii.N_of_ascii d → c = d).
  { intros c d H. by rewrite <- (Ascii.ascii_N_embedding c), H, Ascii.ascii_N_embedding. }
  assert (Heq : ascii_lower a = ascii_lower b
                ↔ Ascii.N_of_ascii (ascii_lower a) = Ascii.N_of_ascii (ascii_lower b)).
  { split; [by intros ->|apply Hinj]. }
  unfold same_letter. rewrite (bool_decide_ext _ _ Heq), !Hn.
  destruct (N.leb_spec 65 (Ascii.N_of_ascii a)), (N.leb_spec (Ascii.N_of_ascii a) 90),
    (N.leb_spec 65 (Ascii.N_of_ascii b)), (N.leb_spec (Ascii.N_of_ascii b) 90);
    simpl; repeat case_bool_decide;
    repeat match goal with
    | |- context [(?x =? ?y)%N] => destruct (N.eqb_spec x y)
    end; simpl; try done; lia.
Qed.



Lemma same_letter_refl (a : ascii) : same_letter a a = true.
Proof. rewrite same_letter_lower. by apply bool_decide_eq_true. Qed.







Lemma startswith_spec p s : startswith p s = true ↔ ∃ post, s = p +:+ post.
Proof.
  revert s. induction p as [|a p IH]; intros s; simpl.
  - split; [intros _; by exists s | done].
  - destruct s as [|b s]; simpl.
    + split; [done | intros [post Hp]; discriminate].
    + rewrite andb_true_iff, bool_decide_eq_true, IH. split.
      * intros [-> [post ->]]. by exists post.
      * intros [post Hp]. injection Hp as -> ->. eauto.
Qed.

Lemma str_contains_spec q s :
  str_contains q s = true ↔ ∃ pre post, s = pre +:+ q +:+ post.
Proof.
  induction s as [|c s IH]; simpl.
  - rewrite orb_false_r, startswith_spec. split.
    + intros [post Hp]. by exists EmptyString, post.
    + intros [[|a pre] [post Hp]]; [by exists post | discriminate].
  - rewrite orb_true_iff, startswith_spec, IH. split.
    + intros [[post Hp] | (pre & post & ->)].
      * by exists EmptyString, post.
      * by exists (String c pre), post.
    + intros [[|a pre] [post Hp]].
      * left. by exists post.
      * right. injection Hp as -> ->. eauto.
Qed.

#[global] Instance ci_substring_dec q t : Decision (ci_substring q t).
Proof.
  refine (cast_if (decide (str_contains (lower q) (lower t) = true)));
    unfold ci_substring; by rewrite <- str_contains_spec.
Defined.

#[global] Instance field_matches_dec q f : Decision (field_matches q f).
Proof.
  refine (match f with
          | Some t => cast_if (decide (ci_substring q t))
          | None => right _
          end); unfold field_matches.
  - eauto.
  - intros (t' & [= <-] & ?). done.
  - intros (t' & ? & ?). done.
Defined.

Lemma field_matches_Some q t :
  bool_decide (field_matches q (Some t)) = str_contains (lower q) (lower t).
Proof.
  destruct (str_contains (lower q) (lower t)) eqn:E.
  - apply bool_decide_eq_true. exists t. split; [done|].
    by apply str_contains_spec.
  - apply bool_decide_eq_false. intros (t' & [= <-] & H).
    apply str_contains_spec in H. congruence.
Qed.

(** ** Comprehensions *)

Lemma comprehension_filter (p : Movie → result bool) (P : Movie → Prop)
    `{!∀ m, Decision (P m)} (l : list Movie) :
  Forall (λ m, p m = Ok (bool_decide (P m))) l →
  comprehension p l = Ok (filter P l).
Proof.
  induction 1 as [|m l Hm _ IH]; simpl; [done|].
  rewrite Hm, IH. simpl. rewrite filter_cons. by case_bool_decide; case_decide.
Qed.

Lemma comprehension_ext (p p' : Movie → result bool) (l : list Movie) :
  (∀ m, p m = p' m) → comprehension p l = comprehension p' l.
Proof. intros E. induction l as [|m l IH]; simpl; [done|]. by rewrite E, IH. Qed.

Lemma comprehension_fmap (f : Movie → Movie) (p : Movie → result bool) (l : list Movie) :
  (∀ m, p (f m) = p m) →
  comprehension p (f <$> l) = fmap (M := list) f <$> comprehension p l.
Proof.
  intros E. induction l as [|m l IH]; [done|].
  rewrite fmap_cons. cbn [comprehension]. rewrite E, IH.
  destruct (p m) as [b|e]; [|done].
  destruct (comprehension p l); [|done]. by destruct b.
Qed.

(** ** Strategies *)

Lemma title_search_str (movies : list Movie) (q : string) :
  TitleSearchStrategy_search movies (PStr q) =
  comprehension (λ m, t ← field_lower (title m); Ok (str_contains (lower q) t)) movies.
Proof. done. Qed.

Lemma director_search_str (movies : list Movie) (q : string) :
  DirectorSearchStrategy_search movies (PStr q) =
  comprehension (λ m, t ← field_lower (director m); Ok (str_contains (lower q) t)) movies.
Proof. done. Qed.

Lemma field_search_filter (field : Movie → option string) (movies : list Movie) (q : string) :
  Forall (λ m, is_Some (field m)) movies →
  comprehension (λ m, t ← field_lower (field m); Ok (str_contains (lower q) t)) movies
  = Ok (filter (λ m, field_matches q (field m)) movies).
Proof.
  intros Hty. apply comprehension_filter.
  eapply Forall_impl; [exact Hty|]. intros m [t Ht]. simpl in *. rewrite Ht. simpl.
  by rewrite field_matches_Some.
Qed.

Lemma field_search_recase (field : Movie → option string) (f : Movie → Movie)
    (movies : list Movie) (q : string) :
  (∀ m, lower <$> field (f m) = lower <$> field m) →
  comprehension (λ m, t ← field_lower (field m); Ok (str_contains q t)) (f <$> movies)
  = fmap (M := list) f <$>
    comprehension (λ m, t ← field_lower (field m); Ok (str_contains q t)) movies.
Proof.
  intros E. apply comprehension_fmap. intros m. specialize (E m).
  destruct (field (f m)), (field m); simpl in *; congruence.
Qed.

Lemma year_search_int (movies : list Movie) (y : Z) :
  YearSearchStrategy_search movies (PInt y) = Ok (filter (λ m, release_year m = y) movies).
Proof.
  apply comprehension_filter, Forall_forall. intros m _. simpl. f_equal.
  destruct (Z.eqb_spec (release_year m) y).
  - by rewrite bool_decide_eq_true_2.
  - by rewrite bool_decide_eq_false_2.
Qed.

Lemma year_search_never_matches (movies : list Movie) (q : pyval) :
  (∀ y, py_eq (PInt y) q = false) → YearSearchStrategy_search movies q = Ok [].
Proof.
  intros Hq. unfold YearSearchStrategy_search.
  induction movies as [|m l IH]; [done|].
  cbn [comprehension]. cbn beta. by rewrite Hq, IH.
Qed.

Lemma year_search_total (movies : list Movie) (q : pyval) :
  ∃ res, YearSearchStrategy_search movies q = Ok res.
Proof.
  unfold YearSearchStrategy_search.
  induction movies as [|m l [res IH]]; [by eexists|].
  cbn [comprehension]. cbn beta. rewrite IH. by eexists.
Qed.










(** ** The Year strategy and values that are no integer *)

Lemma int_eq_float_spec (z m e : Z) :
  int_eq_float z m e = true ↔ float_is_int m e z.
Proof.
  unfold int_eq_float, float_is_int. destruct (Z.leb_spec 0 e).
  - rewrite Z.eqb_eq. split; [by left|]. intros [[_ ?]|[? _]]; [done|lia].
  - rewrite Z.eqb_eq. split; [by right|]. intros [[? _]|[_ ?]]; [lia|done].
Qed.

Lemma float_fractional_no_int (m e z : Z) :
  float_fractional m e → int_eq_float z m e = false.
Proof.
  intros [He Hdiv]. destruct (int_eq_float z m e) eqn:E; [|done].
  apply int_eq_float_spec in E as [[? _]|[_ E]]; [lia|].
  destruct Hdiv. by exists z.
Qed.

Lemma year_search_float_int (movies : list Movie) (m e y : Z) :
  float_is_int m e y →
  YearSearchStrategy_search movies (PFloat m e)
  = Ok (filter (λ r, release_year r = y) movies).
Proof.
  intros Hy. apply comprehension_filter, Forall_forall. intros r _. simpl. f_equal.
  case_bool_decide as Hr.
  - apply int_eq_float_spec. by rewrite Hr.
  - destruct (int_eq_float (release_year r) m e) eqn:E; [|done].
    apply int_eq_float_spec in E. destruct Hr.
    destruct Hy as [[? ->]|[He ->]], E as [[? E]|[? E]]; try lia.
    apply Z.mul_cancel_r in E; [done|]. apply Z.pow_nonzero; lia.
Qed.

Example year_search_fraction :
  float_fractional 4021 (-1)
  ∧ YearSearchStrategy_search [inception; interstellar] (PFloat 4021 (-1)) = Ok [].
Proof.
  split; [|reflexivity]. split; [done|]. intros [k Hk]. simpl in Hk. lia.
Qed.

(** C10, as stated, fails: the float 2010.0 is not an integer, yet
    [2010 == 2010.0] holds and the record of 2010 is returned. *)
Lemma C10_float_year_matches :
  (∀ z, PFloat 2010 0 ≠ PInt z)
  ∧ YearSearchStrategy_search [inception; interstellar] (PFloat 2010 0) = Ok [inception].
Proof. split; [done|]. reflexivity. Qed.

(** C10, amended: for every list of records and every argument that is
    a string, [None] or a float with a fractional part, the Year
    strategy returns the empty list; a float that is an integer returns
    the records of that year; and for an argument of these kinds or an
    [int] the strategy never raises. *)
Theorem C10_year_no_integer_value (movies : list Movie) :
  (∀ s, YearSearchStrategy_search movies (PStr s) = Ok [])
  ∧ YearSearchStrategy_search movies PNone = Ok []
  ∧ (∀ m e, float_fractional m e →
       YearSearchStrategy_search movies (PFloat m e) = Ok [])
  ∧ (∀ m e y, float_is_int m e y →
       YearSearchStrategy_search movies (PFloat m e)
       = Ok (filter (λ r, release_year r = y) movies))
  ∧ (∀ q, ∃ res, YearSearchStrategy_search movies q = Ok res).
Proof.
  split; [|split; [|split; [|split]]].
  - intros s. by apply year_search_never_matches.
  - by apply year_search_never_matches.
  - intros m e Hfr. apply year_search_never_matches. intros y. simpl.
    by apply float_fractional_no_int.
  - intros m e y. apply year_search_float_int.
  - intros q. apply year_search_total.
Qed.
(** ** The index *)

Section index.
Implicit Types idx : gmap string (gmap string (list Movie)).
Implicit Types inner : gmap string (list Movie).

Lemma inner_size_insert inner key (movie : Movie) :
  map_fold (λ _ l n, length l + n)%nat 0%nat
    (<[key := (default [] (inner !! key) ++ [movie])%list]> inner)
  = S (map_fold (λ _ (l : list Movie) n, length l + n)%nat 0%nat inner).
Proof.
  destruct (inner !! key) as [old|] eqn:Hk; simpl.
  - rewrite <- insert_delete_eq.
    rewrite map_fold_insert_L; [|intros; lia|apply lookup_delete_eq].
    rewrite (map_fold_delete_L _ _ key old inner); [|intros; lia|done].
    rewrite length_app. simpl. lia.
  - rewrite map_fold_insert_L; [|intros; lia|done]. done.
Qed.

Lemma index_size_append idx field key movie field' :
  index_size (index_append field key movie idx) field'
  = (index_size idx field' + if decide (field = field') then 1 else 0)%nat.
Proof.
  unfold index_size, index_append. case_decide as Hf.
  - subst. rewrite lookup_insert_eq. simpl. rewrite inner_size_insert. lia.
  - rewrite lookup_insert_ne by done. lia.
Qed.

Lemma index_size_touch idx field field' :
  index_size (index_touch field idx) field' = index_size idx field'.
Proof.
  unfold index_size, index_touch. destruct (idx !! field) eqn:Hf; [done|].
  destruct (decide (field = field')) as [->|Hne].
  - by rewrite lookup_insert_eq, Hf.
  - by rewrite lookup_insert_ne.
Qed.

Lemma index_size_years movies idx field :
  index_size (index_years movies idx) field
  = (index_size idx field + if decide (field = "year") then length movies else 0)%nat.
Proof.
  revert idx. induction movies as [|m l IH]; intros idx; simpl.
  - case_decide; lia.
  - rewrite IH, index_size_append. repeat case_decide; subst; try done; lia.
Qed.

Lemma index_get_append idx field key movie field' key' :
  index_get (index_append field key movie idx) field' key'
  = (index_get idx field' key'
     ++ if decide (field = field' ∧ key = key') then [movie] else [])%list.
Proof.
  unfold index_get, index_append.
  destruct (decide (field = field')) as [->|Hf].
  - rewrite lookup_insert_eq. simpl.
    destruct (decide (key = key')) as [->|Hk].
    + rewrite lookup_insert_eq. simpl. by rewrite decide_True.
    + rewrite lookup_insert_ne by done. rewrite decide_False by (by intros [??]).
      by rewrite app_nil_r.
  - rewrite lookup_insert_ne by done. rewrite decide_False by (by intros [??]).
    by rewrite app_nil_r.
Qed.

Lemma index_get_touch idx field field' key :
  index_get (index_touch field idx) field' key = index_get idx field' key.
Proof.
  unfold index_get, index_touch. destruct (idx !! field) eqn:Hf; [done|].
  destruct (decide (field = field')) as [->|Hne].
  - by rewrite lookup_insert_eq, Hf.
  - by rewrite lookup_insert_ne.
Qed.

Lemma index_get_years movies idx field key :
  index_get (index_years movies idx) field key
  = (index_get idx field key
     ++ if decide (field = "year")
        then filter (λ m, pretty (release_year m) = key) movies else [])%list.
Proof.
  revert idx. induction movies as [|m l IH]; intros idx; simpl.
  - case_decide; by rewrite app_nil_r.
  - rewrite IH, index_get_append, <- app_assoc. f_equal.
    destruct (decide (field = "year")) as [->|Hf].
    + rewrite filter_cons. destruct (decide (pretty (release_year m) = key)).
      * by rewrite decide_True.
      * by rewrite decide_False by (by intros [??]).
    + by rewrite decide_False by (by intros [??]).
Qed.

(** The second loop raises nothing but [AttributeError], and exactly
    when some director is [None]. *)
Lemma index_directors_raises movies idx e :
  (index_directors movies idx).1 = Raise e →
  e = AttributeError ∧ ¬ Forall (λ m, is_Some (director m)) movies.
Proof.
  revert idx. induction movies as [|m l IH]; intros idx; simpl; [done|].
  destruct (director m) as [d|] eqn:Hd; simpl.
  - intros H. apply IH in H as [-> Hl]. split; [done|].
    intros Hall. apply Hl. by inversion Hall.
  - intros [= <-]. split; [done|]. intros Hall. inversion Hall as [|?? [? Hs] ?].
    congruence.
Qed.

Lemma index_directors_ok movies idx :
  Forall (λ m, is_Some (director m)) movies →
  (index_directors movies idx).1 = Ok ().
Proof.
  intros Hall. destruct ((index_directors movies idx).1) as [[]|e] eqn:E; [done|].
  by apply index_directors_raises in E as [_ ?].
Qed.

Lemma index_size_directors movies idx field :
  (index_directors movies idx).1 = Ok () →
  index_size (index_directors movies idx).2 field
  = (index_size idx field
     + if decide (field = "director") then length movies else 0)%nat.
Proof.
  revert idx. induction movies as [|m l IH]; intros idx; simpl.
  - intros _. case_decide; lia.
  - destruct (director m) as [d|]; simpl; [|done]. intros H.
    rewrite IH, index_size_append, index_size_touch by done.
    repeat case_decide; subst; try done; lia.
Qed.

Lemma index_get_directors movies idx field key :
  (index_directors movies idx).1 = Ok () →
  index_get (index_directors movies idx).2 field key
  = (index_get idx field key
     ++ if decide (field = "director")
        then filter (λ m, lower <$> director m = Some key) movies else [])%list.
Proof.
  revert idx. induction movies as [|m l IH]; intros idx; simpl.
  - intros _. case_decide; by rewrite app_nil_r.
  - destruct (director m) as [d|] eqn:Hd; simpl; [|done]. intros H.
    rewrite IH, index_get_append, index_get_touch, <- app_assoc by done. f_equal.
    destruct (decide (field = "director")) as [->|Hf].
    + rewrite filter_cons, Hd. simpl.
      destruct (decide (lower d = key)) as [->|Hk].
      * by rewrite !decide_True.
      * rewrite !decide_False; [done|congruence|by intros [??]].
    + by rewrite decide_False by (by intros [??]).
Qed.

(** A full rebuild from an empty index: both counts are the length of
    the list, and each key holds the records sharing it. *)
Lemma build_index_counts movies :
  (build_index_of movies).1 = Ok () →
  index_size (build_index_of movies).2 "year" = length movies
  ∧ index_size (build_index_of movies).2 "director" = length movies.
Proof.
  unfold build_index_of. intros H.
  rewrite !index_size_directors, !index_size_years by done.
  unfold index_size. rewrite lookup_empty. simpl. rewrite map_fold_empty.
  repeat case_decide; try done; lia.
Qed.

Lemma build_index_groups movies :
  (build_index_of movies).1 = Ok () →
  (∀ y, index_get (build_index_of movies).2 "year" (pretty y)
        = filter (λ m, release_year m = y) movies)
  ∧ (∀ key, index_get (build_index_of movies).2 "director" key
        = filter (λ m, lower <$> director m = Some key) movies).
Proof.
  unfold build_index_of. intros H. split.
  - intros y. rewrite index_get_directors, index_get_years by done.
    unfold index_get at 1. rewrite lookup_empty. simpl.
    rewrite lookup_empty, app_nil_r. simpl.
    apply list_filter_iff. intros m. split; [apply (inj pretty)|congruence].
  - intros key. rewrite index_get_directors, index_get_years by done.
    unfold index_get at 1. rewrite lookup_empty. simpl.
    by rewrite lookup_empty.
Qed.
End index.

(** ** [MovieDataSource] *)

Ltac unfold_M :=
  unfold mbind, M_bind, mret, M_ret, gets, modify, lift, raise, try_except,
    new_list, compose in *.

Lemma _load_movies_eq (fs : gmap string file) (s : State) :
  _load_movies fs s =
    match load_rows fs (filename (data_source s)) with
    | Raise e => (Raise e, with_log (LogError e) (load_started s))
    | Ok movies =>
        match (build_index_of movies).1 with
        | Ok _ => (Ok (), load_installed movies s)
        | Raise e => (Raise e, with_log (LogError e) (load_installed movies s))
        end
    end.
Proof.
  unfold _load_movies, _build_index, load_rows, load_installed, load_started,
    build_index_of. unfold_M. simpl.
  destruct (open_csv fs (filename (data_source s))) as [lines|e]; simpl; [|done].
  destruct (read_movies (DictReader lines)) as [movies|e]; simpl; [|done].
  destruct (index_directors movies (index_years movies ∅)) as [[[]|e] idx]; done.
Qed.

Lemma movies_locked_eq (fs : gmap string file) (t : Z) (s : State) :
  movies_locked fs t s =
    if decide (stale (data_source s) t)
    then match _load_movies fs s with
         | (Ok _, s1) =>
             (Ok (_movies (data_source s1)),
              with_data_source (set_last_modified t) s1)
         | (Raise e, s1) => (Raise e, s1)
         end
    else (Ok (_movies (data_source s)), s).
Proof.
  unfold movies_locked. unfold_M. cbn beta.
  case_decide as Hst; unfold stale in Hst.
  - assert (bool_decide (_movies (data_source s) = None)
            || (_last_modified (data_source s) <? t) = true) as ->.
    { destruct Hst as [->|Hlt]; [done|].
      apply orb_true_iff. right. by apply Z.ltb_lt. }
    by destruct (_load_movies fs s) as [[[]|e] s1].
  - assert (bool_decide (_movies (data_source s) = None)
            || (_last_modified (data_source s) <? t) = false) as ->; [|done].
    apply orb_false_iff. split; [apply bool_decide_eq_false; tauto|].
    apply Z.ltb_ge. lia.
Qed.

Lemma movies_eq (fs : gmap string file) (s : State) :
  movies fs s =
    match getmtime fs (filename (data_source s)) with
    | Ok t => movies_locked fs t s
    | Raise e => (Raise e, s)
    end.
Proof.
  unfold movies. unfold_M. simpl.
  by destruct (getmtime fs (filename (data_source s))).
Qed.

(** Neither the load nor the property touches the cache of [search]. *)
Lemma _load_movies_frame (fs : gmap string file) (s : State) :
  search_cache (_load_movies fs s).2 = search_cache s
  ∧ filename (data_source (_load_movies fs s).2) = filename (data_source s)
  ∧ _last_modified (data_source (_load_movies fs s).2) = _last_modified (data_source s).
Proof.
  rewrite _load_movies_eq.
  destruct (load_rows fs (filename (data_source s))) as [movies|e]; [|done].
  by destruct ((build_index_of movies).1).
Qed.

Lemma movies_locked_frame (fs : gmap string file) (t : Z) (s : State) :
  search_cache (movies_locked fs t s).2 = search_cache s
  ∧ filename (data_source (movies_locked fs t s).2) = filename (data_source s).
Proof.
  rewrite movies_locked_eq. case_decide; [|done].
  destruct (_load_movies_frame fs s) as (Hc & Hf & _).
  by destruct (_load_movies fs s) as [[[]|e] s1].
Qed.

Lemma movies_frame (fs : gmap string file) (s : State) :
  search_cache (movies fs s).2 = search_cache s
  ∧ filename (data_source (movies fs s).2) = filename (data_source s).
Proof.
  rewrite movies_eq. destruct (getmtime fs (filename (data_source s))); [|done].
  apply movies_locked_frame.
Qed.

(** A load that reads its rows and finds a director in each succeeds. *)
Lemma _load_movies_ok (fs : gmap string file) (s : State) (movies : list Movie) :
  load_rows fs (filename (data_source s)) = Ok movies →
  Forall (λ m, is_Some (director m)) movies →
  _load_movies fs s = (Ok (), load_installed movies s).
Proof.
  intros Hrows Hdir. rewrite _load_movies_eq, Hrows.
  unfold build_index_of. by rewrite index_directors_ok.
Qed.

(** A load that cannot read its rows changes nothing in the data source. *)
Lemma _load_movies_unread (fs : gmap string file) (s : State) (e : exn) :
  load_rows fs (filename (data_source s)) = Raise e →
  _load_movies fs s = (Raise e, with_log (LogError e) (load_started s)).
Proof. intros Hrows. by rewrite _load_movies_eq, Hrows. Qed.

(** When the block returns, it returns the list the data source now
    holds, and the data source is no longer stale for that time. *)
Lemma movies_locked_returns (fs : gmap string file) (t : Z) (s s' : State) v :
  movies_locked fs t s = (Ok v, s') →
  v = _movies (data_source s') ∧ is_Some v
  ∧ ¬ stale (data_source s') t
  ∧ filename (data_source s') = filename (data_source s).
Proof.
  rewrite movies_locked_eq. case_decide as Hst.
  - rewrite _load_movies_eq.
    destruct (load_rows fs (filename (data_source s))) as [ms|e]; [|done].
    destruct ((build_index_of ms).1); [|done].
    intros [= <- <-]. simpl. repeat split; eauto.
    unfold stale. simpl. intros [?|?]; [done|lia].
  - intros [= <- <-]. repeat split; [|done].
    unfold stale in Hst. destruct (_movies (data_source s)); [eauto|tauto].
Qed.

(** ** Reading rows *)

Example int_of_str_accepts :
  int_of_str "2010" = Ok 2010
  ∧ int_of_str " 2_010 " = Ok 2010
  ∧ int_of_str "-5" = Ok (-5)
  ∧ int_of_str "0042" = Ok 42.
Proof. by repeat split. Qed.

Example int_of_str_rejects :
  int_of_str "" = Raise ValueError
  ∧ int_of_str "2010.0" = Raise ValueError
  ∧ int_of_str "20__10" = Raise ValueError
  ∧ int_of_str "- 5" = Raise ValueError
  ∧ int_of_str "twenty" = Raise ValueError.
Proof. by repeat split. Qed.

Example dict_row_short :
  let row := dict_row ["title"; "release_year"; "director"] ["Interstellar"; "2014"] in
  row !! "title" = Some (Some "Interstellar")
  ∧ row !! "release_year" = Some (Some "2014")
  ∧ row !! "director" = Some None
  ∧ row !! "rating" = None.
Proof. by repeat split. Qed.

Example DictReader_skips_blank_lines :
  length (DictReader [ ["title"; "release_year"; "director"]; [];
                       ["Inception"; "2010"; "Nolan"]; [] ]) = 1%nat.
Proof. reflexivity. Qed.

Lemma foldl_insert_notin (l : list (string * string))
    (d : gmap string (option string)) (k : string) :
  k ∉ l.*1 →
  foldl (λ d kv, <[kv.1 := Some kv.2]> d) d l !! k = d !! k.
Proof.
  revert d. induction l as [|[k0 v0] l IH]; intros d Hk; simpl; [done|].
  rewrite fmap_cons, not_elem_of_cons in Hk. destruct Hk as [Hne Hk].
  rewrite IH by done. simpl. by rewrite lookup_insert_ne.
Qed.

Lemma foldl_insert_lookup (l : list (string * string))
    (d : gmap string (option string)) (i : nat) (k v : string) :
  NoDup l.*1 → l !! i = Some (k, v) →
  foldl (λ d kv, <[kv.1 := Some kv.2]> d) d l !! k = Some (Some v).
Proof.
  revert d i. induction l as [|[k0 v0] l IH]; intros d i Hnd Hi; [done|].
  rewrite fmap_cons, NoDup_cons in Hnd. destruct Hnd as [Hk0 Hnd].
  destruct i as [|i]; simpl in *.
  - injection Hi as -> ->. rewrite foldl_insert_notin by done.
    by rewrite lookup_insert_eq.
  - by eapply IH.
Qed.

(** On a row as long as a header without repeated names, each name
    gives the cell in its column. *)
Lemma dict_row_lookup (header row : list string) (i : nat) (k : string) :
  NoDup header → length row = length header → header !! i = Some k →
  dict_row header row !! k = Some (row !! i) ∧ is_Some (row !! i).
Proof.
  intros Hnd Hlen Hi. unfold dict_row.
  rewrite Hlen, drop_all. simpl.
  destruct (row !! i) as [cell|] eqn:Hcell.
  - split; [|eauto]. apply (foldl_insert_lookup _ _ i).
    + rewrite fst_zip by lia. done.
    + apply lookup_zip_Some. done.
  - apply lookup_ge_None in Hcell. apply lookup_lt_Some in Hi. lia.
Qed.

Lemma filter_nonblank (header : list string) (rows : list (list string)) (i : nat) :
  is_Some (header !! i) →
  Forall (λ r, length r = length header) rows →
  filter (λ row, row ≠ []) rows = rows.
Proof.
  intros [k Hk] Hall. apply lookup_lt_Some in Hk.
  induction Hall as [|r rows Hr _ IH]; [done|].
  rewrite filter_cons, IH. rewrite decide_True; [done|].
  intros ->. simpl in *. lia.
Qed.

Lemma int_of_str_raises (s : string) (e : exn) :
  int_of_str s = Raise e → e = ValueError.
Proof.
  unfold int_of_str.
  destruct (rstrip_of is_int_space (lstrip_of is_int_space s)) as [|c b] eqn:Hs; simpl.
  - intros [= <-]. done.
  - destruct (match c with
              | "-"%char => (true, b)
              | "+"%char => (false, b)
              | _ => (false, String c b)
              end) as [neg body].
    destruct (parse_digits false 0 body); [|by intros [= <-]].
    destruct (int_max_str_digits <? count_digits body)%N; [|done]. by intros [= <-].
Qed.

(** The loop body raises exactly on a bad row. *)
Lemma make_movie_bad_row (row : gmap string (option string)) :
  bad_row row ↔ ∃ e, make_movie row = Raise e.
Proof.
  unfold bad_row, make_movie, subscript.
  destruct (row !! "title") as [t|] eqn:Ht; simpl;
    [|split; [eauto|intros _; auto 7]].
  destruct (row !! "release_year") as [[cell|]|] eqn:Hy; simpl;
    [|split; [eauto|intros _; auto 7]..].
  destruct (int_of_str cell) as [z|e] eqn:Hz; simpl.
  - destruct (row !! "director") as [d|] eqn:Hd; simpl;
      [|split; [eauto|intros _; auto 7]].
    split; [|by intros [e ?]].
    intros [?|[?|[?|[(c & [= <-] & ?)|?]]]]; congruence.
  - pose proof (int_of_str_raises _ _ Hz) as ->. split; [eauto|].
    intros _. right. right. right. left. eauto.
Qed.

Lemma make_movie_raises (row : gmap string (option string)) (e : exn) :
  make_movie row = Raise e →
  e ∈ [KeyError "title"; KeyError "release_year"; TypeError; ValueError;
       KeyError "director"].
Proof.
  unfold make_movie, subscript.
  destruct (row !! "title") as [t|]; simpl; [|intros [= <-]; set_solver].
  destruct (row !! "release_year") as [[cell|]|]; simpl;
    [|intros [= <-]; set_solver..].
  destruct (int_of_str cell) as [z|e'] eqn:Hz; simpl.
  - destruct (row !! "director") as [d|]; simpl; [done|intros [= <-]; set_solver].
  - intros [= <-]. apply int_of_str_raises in Hz as ->. set_solver.
Qed.

Lemma read_movies_raises (rows : list (gmap string (option string))) :
  (∃ row, row ∈ rows ∧ bad_row row) ↔ ∃ e, read_movies rows = Raise e.
Proof.
  induction rows as [|row rows IH]; simpl.
  - split; [intros (row & Hin & _); by apply elem_of_nil in Hin | by intros [e ?]].
  - destruct (make_movie row) as [m|e] eqn:Hm; simpl.
    + destruct (read_movies rows) as [ms|e] eqn:Hms; simpl.
      * split; [|by intros [e ?]].
        intros (r & Hin & Hbad). apply elem_of_cons in Hin as [->|Hin].
        -- apply make_movie_bad_row in Hbad as [e He]. congruence.
        -- destruct (proj1 IH) as [e He]; [eauto|done].
      * split; [eauto|]. intros _.
        destruct (proj2 IH) as (r & Hin & Hbad); [eauto|].
        exists r. split; [by apply list_elem_of_further|done].
    + split; [eauto|]. intros _. exists row. split; [apply list_elem_of_here|].
      apply make_movie_bad_row. eauto.
Qed.

Lemma read_movies_raises_which (rows : list (gmap string (option string))) (e : exn) :
  read_movies rows = Raise e →
  e ∈ [KeyError "title"; KeyError "release_year"; TypeError; ValueError;
       KeyError "director"].
Proof.
  induction rows as [|row rows IH]; simpl; [done|].
  destruct (make_movie row) as [m|e'] eqn:Hm; simpl.
  - destruct (read_movies rows) as [ms|e'']; simpl; [done|].
    intros [= <-]. by apply IH.
  - intros [= <-]. by apply make_movie_raises in Hm.
Qed.
(** ** Blanks and numerals *)

Lemma string_app_nil_r (s : string) : s +:+ "" = s.
Proof. induction s as [|c s IH]; [done|]. by apply (f_equal (String c)). Qed.

Lemma string_app_assoc (a b c : string) : (a +:+ b) +:+ c = a +:+ (b +:+ c).
Proof. induction a as [|x a IH]; [done|]. by apply (f_equal (String x)). Qed.

Lemma string_app_cons (c : ascii) (s t : string) :
  String c s +:+ t = String c (s +:+ t).
Proof. done. Qed.

Lemma string_app_length (s t : string) :
  String.length (s +:+ t) = (String.length s + String.length t)%nat.
Proof. induction s as [|c s IH]; [done|]. rewrite string_app_cons. simpl. by rewrite IH. Qed.

Lemma all_chars_app (p : ascii → bool) (s t : string) :
  all_chars p (s +:+ t) = all_chars p s && all_chars p t.
Proof.
  induction s as [|c s IH]; [done|]. rewrite string_app_cons. simpl.
  by rewrite IH, andb_assoc.
Qed.

Lemma all_chars_impl (p q : ascii → bool) (s : string) :
  (∀ c, p c = true → q c = true) → all_chars p s = true → all_chars q s = true.
Proof.
  intros Hpq. induction s as [|c s IH]; [done|]. simpl.
  rewrite !andb_true_iff. intros [? ?]. auto.
Qed.

Section strip.
Variables blank : ascii → bool.

Lemma lstrip_of_head (s : string) :
  lstrip_of blank s = "" ∨ ∃ c t, lstrip_of blank s = String c t ∧ blank c = false.
Proof.
  induction s as [|c s IH]; [by left|]. simpl.
  destruct (blank c) eqn:Hc; [done|]. right. by exists c, s.
Qed.

Lemma lstrip_of_blanks (pre s : string) :
  all_chars blank pre = true → lstrip_of blank (pre +:+ s) = lstrip_of blank s.
Proof.
  induction pre as [|c pre IH]; [done|]. simpl. rewrite andb_true_iff.
  intros [Hc Hpre]. by rewrite Hc, IH.
Qed.

Lemma lstrip_of_solid (c : ascii) (s : string) :
  blank c = false → lstrip_of blank (String c s) = String c s.
Proof. intros Hc. simpl. by rewrite Hc. Qed.

Lemma rstrip_of_all_blank (post : string) :
  all_chars blank post = true → rstrip_of blank post = "".
Proof.
  induction post as [|c post IH]; [done|]. simpl. rewrite andb_true_iff.
  intros [Hc Hpost]. by rewrite IH, Hc.
Qed.

Lemma rstrip_of_blanks (s post : string) :
  all_chars blank post = true → rstrip_of blank (s +:+ post) = rstrip_of blank s.
Proof.
  intros Hpost. induction s as [|c s IH]; [by apply rstrip_of_all_blank|].
  rewrite string_app_cons. simpl. by rewrite IH.
Qed.

Lemma rstrip_of_solid (s : string) :
  all_chars (λ c, negb (blank c)) s = true → rstrip_of blank s = s.
Proof.
  induction s as [|c s IH]; [done|]. simpl. rewrite andb_true_iff.
  intros [Hc Hs]. apply negb_true_iff in Hc. by rewrite Hc, IH.
Qed.

Lemma rstrip_of_idemp (s : string) :
  rstrip_of blank (rstrip_of blank s) = rstrip_of blank s.
Proof.
  induction s as [|c s IH]; [done|]. simpl.
  destruct (blank c && bool_decide (rstrip_of blank s = "")) eqn:Hc; [done|].
  simpl. by rewrite IH, Hc.
Qed.

(** The first character of what [rstrip_of] leaves is the first
    character of the text. *)
Lemma rstrip_of_cons (c : ascii) (s : string) (d : ascii) (t : string) :
  rstrip_of blank (String c s) = String d t → d = c.
Proof.
  simpl. destruct (blank c && bool_decide (rstrip_of blank s = "")); [done|].
  by intros [= <- _].
Qed.

(** A text between blanks is what is left when they are stripped. *)
Lemma strip_of_core (pre core post : string) :
  all_chars blank pre = true → all_chars blank post = true →
  all_chars (λ c, negb (blank c)) core = true → core ≠ "" →
  rstrip_of blank (lstrip_of blank (pre +:+ core +:+ post)) = core.
Proof.
  intros Hpre Hpost Hcore Hne. rewrite lstrip_of_blanks by done.
  destruct core as [|c core]; [done|]. rewrite string_app_cons.
  pose proof Hcore as Hc. simpl in Hc. apply andb_true_iff in Hc as [Hc _].
  apply negb_true_iff in Hc. rewrite lstrip_of_solid by done.
  rewrite <- string_app_cons, rstrip_of_blanks by done. by apply rstrip_of_solid.
Qed.

End strip.

(** The blanks of [int] are blanks of [str.strip]. *)
Lemma is_int_space_is_space (c : ascii) : is_int_space c = true → is_space c = true.
Proof. by destruct c as [[] [] [] [] [] [] [] []]. Qed.

Section strip_sub.
Variables small large : ascii → bool.
Hypothesis sub : ∀ c, small c = true → large c = true.

Lemma lstrip_of_sub (s : string) :
  lstrip_of large (lstrip_of small s) = lstrip_of large s.
Proof.
  induction s as [|c s IH]; [done|]. simpl.
  destruct (small c) eqn:Hc; [by rewrite (sub c Hc)|done].
Qed.

Lemma rstrip_of_sub (s : string) :
  rstrip_of large (rstrip_of small s) = rstrip_of large s.
Proof.
  induction s as [|c s IH]; [done|]. simpl.
  destruct (small c && bool_decide (rstrip_of small s = "")) eqn:Hc.
  - apply andb_true_iff in Hc as [Hc Hr]. apply bool_decide_eq_true in Hr.
    rewrite Hr in IH. simpl in IH. by rewrite <- IH, (sub c Hc).
  - simpl. by rewrite IH.
Qed.

End strip_sub.

(** *** Digits *)

Lemma digit_value_pretty_N_char (d : N) :
  (d < 10)%N → digit_value (pretty_N_char d) = Some (Z.of_N d).
Proof.
  intros Hd.
  assert (d = 0 ∨ d = 1 ∨ d = 2 ∨ d = 3 ∨ d = 4 ∨ d = 5 ∨ d = 6 ∨ d = 7 ∨ d = 8 ∨ d = 9)%N
    as Hcases by lia.
  destruct Hcases as [->|[->|[->|[->|[->|[->|[->|[->|[->| ->]]]]]]]]]; reflexivity.
Qed.

Lemma digit_pretty_N_char (d : N) : is_Some (digit_value (pretty_N_char d)).
Proof. unfold pretty_N_char. repeat case_match; by eexists. Qed.

Lemma digit_value_range (c : ascii) (d : Z) : digit_value c = Some d → 0 ≤ d ≤ 9.
Proof.
  unfold digit_value.
  destruct (N.leb_spec 48 (Ascii.N_of_ascii c)), (N.leb_spec (Ascii.N_of_ascii c) 57);
    simpl; intros [= <-]; lia.
Qed.

(** A digit is no blank, no sign and no underscore. *)
Lemma digit_not_blank (c : ascii) :
  is_Some (digit_value c) →
  is_space c = false ∧ is_int_space c = false
  ∧ c ≠ "-"%char ∧ c ≠ "+"%char ∧ c ≠ "_"%char.
Proof. destruct c as [[] [] [] [] [] [] [] []]; intros [d Hd]; by vm_compute in Hd. Qed.

Lemma pretty_N_go_digits (x : N) (s : string) :
  all_chars (λ c, bool_decide (is_Some (digit_value c))) s = true →
  all_chars (λ c, bool_decide (is_Some (digit_value c))) (pretty_N_go x s) = true.
Proof.
  revert s. induction (N.lt_wf_0 x) as [x _ IH]; intros s Hs.
  destruct (decide (x = 0)%N) as [->|Hx]; [by rewrite pretty_N_go_0|].
  rewrite pretty_N_go_step by lia. apply IH; [apply N.div_lt; lia|].
  simpl. rewrite Hs, andb_true_r. apply bool_decide_eq_true, digit_pretty_N_char.
Qed.

Lemma pretty_N_go_head (x : N) (s : string) :
  (0 < x)%N → ∃ d t, pretty_N_go x s = String (pretty_N_char d) t.
Proof.
  revert s. induction (N.lt_wf_0 x) as [x _ IH]; intros s Hx.
  rewrite pretty_N_go_step by done.
  destruct (decide (x `div` 10 = 0)%N) as [->|Hdiv].
  - rewrite pretty_N_go_0. by eexists _, _.
  - apply IH; [by apply N.div_lt|by apply N.neq_0_lt_0].
Qed.

Lemma pretty_N_go_length (x : N) (s : string) (k : nat) :
  (x < 10 ^ N.of_nat k)%N →
  (String.length (pretty_N_go x s) ≤ String.length s + k)%nat.
Proof.
  revert x s. induction k as [|k IH]; intros x s Hx.
  - assert (x = 0%N) as -> by (simpl in Hx; lia). rewrite pretty_N_go_0. lia.
  - destruct (decide (x = 0)%N) as [->|Hx0]; [rewrite pretty_N_go_0; lia|].
    rewrite pretty_N_go_step by lia.
    etrans; [apply IH|simpl; lia].
    rewrite Nat2N.inj_succ, N.pow_succ_r' in Hx.
    apply N.Div0.div_lt_upper_bound. lia.
Qed.

Lemma parse_digits_pretty_N_go (x : N) (s : string) (after_digit : bool) :
  (0 < x)%N →
  parse_digits after_digit 0 (pretty_N_go x s) = parse_digits true (Z.of_N x) s.
Proof.
  revert s. induction (N.lt_wf_0 x) as [x _ IH]; intros s Hx.
  rewrite pretty_N_go_step by done.
  pose proof (N.div_mod x 10 ltac:(done)) as Hdm.
  pose proof (N.mod_lt x 10 ltac:(done)) as Hlt.
  destruct (decide (x `div` 10 = 0)%N) as [Hdiv|Hdiv].
  - rewrite Hdiv, pretty_N_go_0. simpl.
    rewrite digit_value_pretty_N_char by done. f_equal. lia.
  - rewrite IH by (by apply N.div_lt || by apply N.neq_0_lt_0). simpl.
    rewrite digit_value_pretty_N_char by done. f_equal. lia.
Qed.

(** The numeral [str] writes for a natural number: digits, a first one
    at least, which [int] reads back. *)
Lemma numeral_spec (n : Z) (after_digit : bool) :
  0 ≤ n →
  all_chars (λ c, bool_decide (is_Some (digit_value c))) (pretty n) = true
  ∧ (∃ c t, pretty n = String c t)
  ∧ parse_digits after_digit 0 (pretty n) = Some n.
Proof.
  intros Hn. destruct n as [|p|p]; [by repeat split; eauto|..|lia].
  change (pretty (Z.pos p)) with (pretty_N_go (N.pos p) "").
  split; [by apply pretty_N_go_digits|]. split.
  - destruct (pretty_N_go_head (N.pos p) "") as (d & t & ->); [done|eauto].
  - by rewrite parse_digits_pretty_N_go.
Qed.

Lemma count_digits_all (s : string) :
  all_chars (λ c, bool_decide (is_Some (digit_value c))) s = true →
  count_digits s = N.of_nat (String.length s).
Proof.
  induction s as [|c s IH]; [done|]. cbn [all_chars count_digits String.length].
  rewrite andb_true_iff, bool_decide_eq_true. intros [[d Hd] Hs].
  rewrite Hd, IH by done. lia.
Qed.

Lemma parse_digits_zeros (zeros s : string) (after_digit : bool) :
  chars_in ["0"%char] zeros = true →
  parse_digits after_digit 0 (zeros +:+ s)
  = parse_digits (after_digit || negb (bool_decide (zeros = ""))) 0 s.
Proof.
  revert after_digit. induction zeros as [|c zeros IH]; intros after_digit.
  - intros _. simpl. by rewrite orb_false_r.
  - unfold chars_in. simpl. rewrite andb_true_iff, bool_decide_eq_true.
    intros [Hc Hz]. apply list_elem_of_singleton in Hc as ->.
    change (digit_value "0") with (Some 0). cbn match.
    change (10 * 0 + 0) with 0.
    rewrite (IH true Hz). simpl. by rewrite orb_true_r.
Qed.

Lemma zeros_digits (zeros : string) :
  chars_in ["0"%char] zeros = true →
  all_chars (λ c, bool_decide (is_Some (digit_value c))) zeros = true.
Proof.
  apply all_chars_impl. intros c Hc. apply bool_decide_eq_true in Hc.
  apply list_elem_of_singleton in Hc as ->. by apply bool_decide_eq_true.
Qed.

Lemma int_blanks_spec (c : ascii) :
  bool_decide (c ∈ int_blanks) = true → is_int_space c = true.
Proof.
  rewrite bool_decide_eq_true. unfold int_blanks.
  rewrite !elem_of_cons, elem_of_nil. by intros [->|[->|[->|[->|[->|[->|[]]]]]]].
Qed.

Lemma digits_solid (p : ascii → bool) (s : string) :
  (∀ c, is_Some (digit_value c) → p c = false) →
  all_chars (λ c, bool_decide (is_Some (digit_value c))) s = true →
  all_chars (λ c, negb (p c)) s = true.
Proof.
  intros Hp. apply all_chars_impl. intros c Hc. apply bool_decide_eq_true in Hc.
  by rewrite (Hp c Hc).
Qed.

(** The match on the sign leaves a numeral that starts with a digit as
    it is. *)
Lemma sign_of_digit (c : ascii) (b : string) :
  is_Some (digit_value c) →
  match String c b with
  | String "-"%char b' => (true, b')
  | String "+"%char b' => (false, b')
  | _ => (false, String c b)
  end = (false, String c b).
Proof. destruct c as [[] [] [] [] [] [] [] []]; intros [d Hd]; by vm_compute in Hd. Qed.

Lemma solid_sub (s : string) :
  all_chars (λ c, negb (is_space c)) s = true →
  all_chars (λ c, negb (is_int_space c)) s = true.
Proof.
  apply all_chars_impl. intros a Ha. apply negb_true_iff in Ha.
  apply negb_true_iff. destruct (is_int_space a) eqn:E; [|done].
  by rewrite (is_int_space_is_space a E) in Ha.
Qed.

(** [int] on a text without blanks reads the text itself. *)
Lemma int_of_str_solid (core : string) :
  all_chars (λ c, negb (is_space c)) core = true →
  rstrip_of is_int_space (lstrip_of is_int_space core) = core.
Proof.
  intros Hsolid%solid_sub. destruct core as [|c core]; [done|].
  pose proof Hsolid as Hc. simpl in Hc. apply andb_true_iff in Hc as [Hc _].
  apply negb_true_iff in Hc. by rewrite lstrip_of_solid, rstrip_of_solid.
Qed.

(** A sign, zeros and the digits of [y]: a text without blanks, in which
    [int] reads [y]. *)
Lemma int_of_str_numeral (sign zeros : string) (y : Z) :
  chars_in ["0"%char] zeros = true →
  (sign = "" ∧ 0 ≤ y) ∨ (sign = "+" ∧ 0 ≤ y) ∨ (sign = "-" ∧ y ≤ 0) →
  (String.length zeros + String.length (pretty (Z.abs y)) ≤ 4300)%nat →
  all_chars (λ c, negb (is_space c)) (sign +:+ zeros +:+ pretty (Z.abs y)) = true
  ∧ sign +:+ zeros +:+ pretty (Z.abs y) ≠ ""
  ∧ int_of_str (sign +:+ zeros +:+ pretty (Z.abs y)) = Ok y.
Proof.
  intros Hzeros Hsign Hlen.
  destruct (numeral_spec (Z.abs y) (false || negb (bool_decide (zeros = ""))))
    as (Hdigits & (c0 & t0 & Hhead) & Hparse); [lia|].
  assert (Hbody : all_chars (λ c, bool_decide (is_Some (digit_value c)))
                    (zeros +:+ pretty (Z.abs y)) = true).
  { by rewrite all_chars_app, zeros_digits, Hdigits. }
  assert (Hbody_ne : ∃ c t, zeros +:+ pretty (Z.abs y) = String c t).
  { destruct zeros as [|z zeros]; [by rewrite Hhead; eauto|].
    rewrite string_app_cons. eauto. }
  assert (Hcount : (int_max_str_digits <? count_digits (zeros +:+ pretty (Z.abs y)))%N
                   = false).
  { rewrite count_digits_all by done. rewrite string_app_length.
    apply N.ltb_ge. unfold int_max_str_digits. lia. }
  assert (Hsolid : all_chars (λ c, negb (is_space c))
                     (sign +:+ zeros +:+ pretty (Z.abs y)) = true).
  { assert (all_chars (λ c, negb (is_space c)) (zeros +:+ pretty (Z.abs y)) = true)
      as Hb.
    { revert Hbody. apply digits_solid. intros c Hc.
      by destruct (digit_not_blank c Hc) as (? & _). }
    destruct Hsign as [[-> _]|[[-> _]|[-> _]]]; simpl; by rewrite ?Hb. }
  split; [done|]. split.
  { destruct Hbody_ne as (c & t & Hb).
    destruct Hsign as [[-> _]|[[-> _]|[-> _]]]; [by rewrite Hb|done|done]. }
  unfold int_of_str. rewrite int_of_str_solid by done.
  destruct Hbody_ne as (c & t & Hb).
  assert (Hc : is_Some (digit_value c)).
  { rewrite Hb in Hbody. simpl in Hbody. apply andb_true_iff in Hbody as [Hc _].
    by apply bool_decide_eq_true in Hc. }
  destruct Hsign as [[-> Hy]|[[-> Hy]|[-> Hy]]].
  - change ("" +:+ ?s) with s. rewrite Hb, (sign_of_digit c t Hc), <- Hb.
    rewrite parse_digits_zeros, Hparse, Hcount by done. f_equal. lia.
  - change ("+" +:+ ?s) with (String "+" s). cbn match.
    rewrite parse_digits_zeros, Hparse, Hcount by done. f_equal. lia.
  - change ("-" +:+ ?s) with (String "-" s). cbn match.
    rewrite parse_digits_zeros, Hparse, Hcount by done. f_equal. lia.
Qed.

(** [int] reads a decimal numeral as the integer it denotes. *)
Lemma int_of_str_literal (cell : string) (y : Z) :
  int_literal cell y → int_of_str cell = Ok y.
Proof.
  intros (pre & sign & zeros & post & -> & Hpre & Hpost & Hzeros & Hsign & Hlen).
  destruct (int_of_str_numeral sign zeros y Hzeros Hsign Hlen) as (Hsolid & Hne & Hint).
  rewrite <- Hint. unfold int_of_str.
  replace (pre +:+ sign +:+ zeros +:+ pretty (Z.abs y) +:+ post)
    with (pre +:+ (sign +:+ zeros +:+ pretty (Z.abs y)) +:+ post)
    by (by rewrite !string_app_assoc).
  rewrite (strip_of_core is_int_space), int_of_str_solid; try done.
  - revert Hpre. apply all_chars_impl, int_blanks_spec.
  - revert Hpost. apply all_chars_impl, int_blanks_spec.
  - by apply solid_sub.
Qed.

(** What [str.strip] leaves of a numeral between blanks of any kind is
    a text in which [int] reads the integer. *)
Lemma int_of_str_strip_literal (pre cell post : string) (y : Z) :
  chars_in str_blanks pre = true → chars_in str_blanks post = true →
  int_literal cell y →
  int_of_str (rstrip (lstrip (pre +:+ cell +:+ post))) = Ok y.
Proof.
  intros Hpre Hpost (pre' & sign & zeros & post' & -> & Hpre' & Hpost' & Hzeros & Hsign & Hlen).
  destruct (int_of_str_numeral sign zeros y Hzeros Hsign Hlen) as (Hsolid & Hne & Hint).
  assert (Hstr : ∀ s, chars_in str_blanks s = true → all_chars is_space s = true).
  { intros s. apply all_chars_impl. intros c. rewrite bool_decide_eq_true.
    unfold str_blanks. rewrite !elem_of_cons, elem_of_nil.
    by intros [->|[->|[->|[->|[->|[->|[->|[->|[->|[->|[]]]]]]]]]]]. }
  assert (Hint' : ∀ s, chars_in int_blanks s = true → all_chars is_space s = true).
  { intros s. apply all_chars_impl. intros c Hc.
    by apply is_int_space_is_space, int_blanks_spec. }
  replace (pre +:+ (pre' +:+ sign +:+ zeros +:+ pretty (Z.abs y) +:+ post') +:+ post)
    with ((pre +:+ pre') +:+ (sign +:+ zeros +:+ pretty (Z.abs y)) +:+ (post' +:+ post))
    by (by rewrite !string_app_assoc).
  unfold rstrip, lstrip. rewrite (strip_of_core is_space); try done.
  - by rewrite all_chars_app, Hstr, Hint'.
  - by rewrite all_chars_app, Hint', Hstr.
Qed.

(** [int(str(z))] is [z], for an integer [str] writes in no more digits
    than [int] reads. *)
Lemma int_of_str_pretty (z : Z) :
  (String.length (pretty (Z.abs z)) ≤ 4300)%nat → int_of_str (pretty z) = Ok z.
Proof.
  intros Hlen. apply int_of_str_literal.
  exists "", (if decide (z < 0) then "-" else ""), "", "".
  split; [|split; [done|split; [done|split; [done|split; [|simpl; lia]]]]].
  - rewrite string_app_nil_r. destruct z as [|p|p]; by case_decide.
  - case_decide; [right; right|left]; split; (done || lia).
Qed.

(** *** What [int] returns is within the limit *)

Lemma parse_digits_bound (after_digit : bool) (acc : Z) (s : string) (v : Z) :
  0 ≤ acc → parse_digits after_digit acc s = Some v →
  0 ≤ v < (acc + 1) * 10 ^ Z.of_N (count_digits s).
Proof.
  revert after_digit acc. induction s as [|c s IH]; intros after_digit acc Hacc; simpl.
  - destruct after_digit; [|done]. intros [= <-]. lia.
  - destruct (digit_value c) as [d|] eqn:Hd.
    + intros Hv. apply digit_value_range in Hd.
      apply IH in Hv; [|lia].
      replace (Z.of_N (1 + count_digits s)) with (Z.succ (Z.of_N (count_digits s))) by lia.
      rewrite Z.pow_succ_r by lia. nia.
    + destruct (bool_decide (c = "_"%char) && after_digit); [|done].
      intros Hv. apply IH in Hv; [|lia]. by rewrite N.add_0_l.
Qed.

Lemma pretty_length_bound (n : Z) (k : nat) :
  0 ≤ n < 10 ^ Z.of_nat k → (1 ≤ k)%nat →
  (String.length (pretty n) ≤ k)%nat.
Proof.
  intros [Hn Hlt] Hk. destruct n as [|p|p]; [simpl; lia| |lia].
  change (pretty (Z.pos p)) with (pretty_N_go (N.pos p) "").
  etrans; [apply (pretty_N_go_length _ _ k)|simpl; lia].
  apply N2Z.inj_lt. rewrite N2Z.inj_pow, nat_N_Z. simpl. lia.
Qed.

(** An integer that [int] has read is written by [str] in at most 4300
    digits. *)
Lemma int_of_str_bound (s : string) (y : Z) :
  int_of_str s = Ok y → (String.length (pretty (Z.abs y)) ≤ 4300)%nat.
Proof.
  unfold int_of_str.
  destruct (match rstrip_of is_int_space (lstrip_of is_int_space s) with
            | String "-"%char b => (true, b)
            | String "+"%char b => (false, b)
            | _ => (false, rstrip_of is_int_space (lstrip_of is_int_space s))
            end) as [neg body].
  destruct (parse_digits false 0 body) as [n|] eqn:Hparse; [|done].
  destruct (N.ltb_spec int_max_str_digits (count_digits body)) as [|Hcount]; [done|].
  intros [= <-]. apply parse_digits_bound in Hparse; [|done].
  unfold int_max_str_digits in Hcount.
  assert (Z.abs (if neg then - n else n) = n) as -> by (destruct neg; lia).
  destruct (decide (count_digits body = 0%N)) as [H0|H0].
  - rewrite H0 in Hparse. simpl in Hparse. assert (n = 0) as -> by lia. simpl. lia.
  - etrans; [apply (pretty_length_bound n (N.to_nat (count_digits body)))|lia].
    + rewrite N_nat_Z. lia.
    + lia.
Qed.

(** *** [strip] before [int] *)

(** A text in which [int] reads a number holds, between blanks of
    [int], a sign and digits, none of which [str.strip] removes. *)
Lemma parse_digits_solid (after_digit : bool) (acc : Z) (s : string) (v : Z) :
  parse_digits after_digit acc s = Some v →
  all_chars (λ c, negb (is_space c)) s = true.
Proof.
  revert after_digit acc. induction s as [|c s IH]; intros after_digit acc; [done|].
  simpl. destruct (digit_value c) as [d|] eqn:Hd.
  - intros Hv. destruct (digit_not_blank c) as (-> & _); [by eexists|].
    simpl. by eapply IH.
  - case_bool_decide as Hc; [|done]. destruct after_digit; [|done]. subst c.
    simpl. by apply IH.
Qed.

Lemma int_of_str_strip (s : string) (y : Z) :
  int_of_str s = Ok y → int_of_str (rstrip (lstrip s)) = Ok y.
Proof.
  intros Hint.
  assert (Hcore : ∃ c t, rstrip_of is_int_space (lstrip_of is_int_space s) = String c t
            ∧ all_chars (λ c, negb (is_space c)) (String c t) = true).
  { revert Hint. unfold int_of_str.
    destruct (rstrip_of is_int_space (lstrip_of is_int_space s)) as [|c t]; [done|].
    intros Hint. exists c, t. split; [done|].
    destruct (match String c t with
              | String "-"%char b => (true, b)
              | String "+"%char b => (false, b)
              | _ => (false, String c t)
              end) as [neg body] eqn:Hsign.
    destruct (parse_digits false 0 body) as [n|] eqn:Hparse; [|done].
    apply parse_digits_solid in Hparse.
    destruct c as [[] [] [] [] [] [] [] []]; injection Hsign as <- <-;
      (exact Hparse || (simpl; exact Hparse)). }
  destruct Hcore as (c & t & Hcore & Hsolid).
  assert (Hstrip : rstrip (lstrip s) = String c t).
  { unfold rstrip, lstrip.
    rewrite <- (lstrip_of_sub is_int_space is_space is_int_space_is_space).
    destruct (lstrip_of is_int_space s) as [|c' t'] eqn:Hl; [done|].
    pose proof (rstrip_of_cons _ _ _ _ _ Hcore) as <-.
    pose proof Hsolid as Hc. simpl in Hc. apply andb_true_iff in Hc as [Hc _].
    apply negb_true_iff in Hc. rewrite lstrip_of_solid by done.
    rewrite <- (rstrip_of_sub is_int_space is_space is_int_space_is_space), Hcore.
    by apply rstrip_of_solid. }
  rewrite Hstrip. unfold int_of_str in *. rewrite Hcore in Hint.
  assert (Hsolid' : all_chars (λ c, negb (is_int_space c)) (String c t) = true).
  { revert Hsolid. apply all_chars_impl. intros a Ha. apply negb_true_iff in Ha.
    apply negb_true_iff. destruct (is_int_space a) eqn:E; [|done].
    by rewrite (is_int_space_is_space a E) in Ha. }
  pose proof Hsolid' as Hc. simpl in Hc. apply andb_true_iff in Hc as [Hc _].
  apply negb_true_iff in Hc.
  by rewrite lstrip_of_solid, rstrip_of_solid.
Qed.

Example int_of_str_separators :
  int_of_str (String "028"%char "2010") = Raise ValueError
  ∧ int_of_str (rstrip (lstrip (String "028"%char "2010"))) = Ok 2010
  ∧ int_of_str (String "009"%char "2010 ") = Ok 2010.
Proof. by repeat split. Qed.

Example int_literal_padded :
  int_literal " -0042 " (-42) ∧ int_of_str " -0042 " = Ok (-42).
Proof.
  split; [|reflexivity]. exists " ", "-", "00", " ".
  split; [reflexivity|]. split; [reflexivity|]. split; [reflexivity|].
  split; [reflexivity|]. split; [right; right; split; [done|lia]|simpl; lia].
Qed.

(** Rows as long as the header, each with a numeral in the year column,
    are read one record per row, cell by cell. *)
Lemma read_movies_well_formed (header : list string) (rows : list (list string))
    (years : list Z) (it iy id : nat) :
  NoDup header →
  header !! it = Some "title" →
  header !! iy = Some "release_year" →
  header !! id = Some "director" →
  Forall2 (λ r y, length r = length header
                  ∧ ∃ cell, r !! iy = Some cell ∧ int_literal cell y) rows years →
  read_movies (dict_row header <$> rows)
  = Ok (zip_with (λ r y, {| title := r !! it; release_year := y; director := r !! id |})
          rows years).
Proof.
  intros Hnd Ht Hy Hd Hall.
  induction Hall as [|r y rows years [Hlen (cell & Hcell & Hlit)] _ IH]; [done|].
  destruct (dict_row_lookup header r it _ Hnd Hlen Ht) as [Et St].
  destruct (dict_row_lookup header r iy _ Hnd Hlen Hy) as [Ey _].
  destruct (dict_row_lookup header r id _ Hnd Hlen Hd) as [Ed Sd].
  rewrite fmap_cons. cbn [read_movies zip_with]. unfold make_movie, subscript.
  rewrite Et, Ey, Ed, Hcell. simpl. rewrite (int_of_str_literal cell y Hlit). simpl.
  by rewrite IH.
Qed.
(** ** Loading and reloading *)

(** C5: a file with a header naming the three columns once each and N
    rows as long as the header, whose year cells are decimal numerals
    (blanks, a sign and zeros allowed around the digits), loads into
    exactly N records, in file order; the title and the director of each
    record are the cells of its row in those columns and the release
    year is the integer its year cell denotes. *)
Theorem C5_load_well_formed_rows (fs : gmap string file) (s : State) (f : file)
    (header : list string) (rows : list (list string)) (years : list Z)
    (it iy id : nat) :
  fs !! filename (data_source s) = Some f →
  content f = Ok (header :: rows) →
  NoDup header →
  header !! it = Some "title" →
  header !! iy = Some "release_year" →
  header !! id = Some "director" →
  Forall2 (λ r y, length r = length header
                  ∧ ∃ cell, r !! iy = Some cell ∧ int_literal cell y) rows years →
  let ms := zip_with (λ r y, {| title := r !! it; release_year := y;
                                director := r !! id |}) rows years in
  _load_movies fs s = (Ok (), load_installed ms s)
  ∧ _movies (data_source (load_installed ms s))
    = Some {| list_id := next_id s; items := ms |}
  ∧ length ms = length rows
  ∧ Forall2 (λ r m, title m = r !! it ∧ is_Some (title m)
                    ∧ director m = r !! id ∧ is_Some (director m)
                    ∧ ∃ cell, r !! iy = Some cell ∧ int_literal cell (release_year m))
      rows ms.
Proof.
  intros Hfs Hc Hnd Ht Hy Hd Hall ms.
  assert (Hrel : Forall2 (λ r m, title m = r !! it ∧ is_Some (title m)
                    ∧ director m = r !! id ∧ is_Some (director m)
                    ∧ ∃ cell, r !! iy = Some cell ∧ int_literal cell (release_year m))
                   rows ms).
  { subst ms. clear Hc. induction Hall as [|r y rows years [Hlen Hcell] _ IH];
      [constructor|].
    cbn [zip_with]. constructor; [|done]. simpl.
    destruct (dict_row_lookup header r it _ Hnd Hlen Ht) as [_ St].
    destruct (dict_row_lookup header r id _ Hnd Hlen Hd) as [_ Sd]. done. }
  split; [|split; [done|split; [|done]]].
  - apply _load_movies_ok.
    + unfold load_rows, open_csv. rewrite Hfs, Hc. simpl.
      rewrite (filter_nonblank header rows it); [|eauto|].
      * by apply (read_movies_well_formed header rows years it iy id).
      * clear -Hall. induction Hall as [|r y rows years [? _] _ IH]; by constructor.
    + clear -Hrel. induction Hrel as [|r m rows ms' (_ & _ & _ & Hm & _) _ IH];
        by constructor.
  - symmetry. by eapply Forall2_length.
Qed.

Lemma C5_load_well_formed_rows_witness :
  two_movies_fs !! filename (data_source fresh) = Some two_movies_file
  ∧ _load_movies two_movies_fs fresh
    = (Ok (), load_installed [inception; interstellar] fresh).
Proof.
  split; [reflexivity|].
  assert (Hlit : ∀ cell y, cell = pretty y → 0 ≤ y →
            (String.length cell ≤ 4300)%nat → int_literal cell y).
  { intros cell y -> Hy Hlen. exists "", "", "", "".
    assert (Z.abs y = y) as -> by lia.
    split; [by rewrite string_app_nil_r|]. split; [done|]. split; [done|].
    split; [done|]. split; [by left|simpl; lia]. }
  refine (proj1 (C5_load_well_formed_rows two_movies_fs fresh two_movies_file
           ["title"; "release_year"; "director"]
           [ ["Inception"; "2010"; "Nolan"]; ["Interstellar"; "2014"; "Nolan"] ]
           [2010; 2014] 0 1 2 _ _ _ _ _ _ _)).
  - reflexivity.
  - reflexivity.
  - apply (bool_decide_unpack _). vm_compute. exact I.
  - reflexivity.
  - reflexivity.
  - reflexivity.
  - repeat constructor; (by eexists; split; [reflexivity|apply Hlit; [|lia|simpl; lia]]).
Defined.

(** C1: with the file present, a call of [movies] whose data source has
    no list yet or an older time than the file's starts a load (the log
    line is written) and, when the rows are read and indexed, returns a
    new list holding them and records the file's time; any other call
    returns the list already held and changes nothing; so a call that
    follows a returned call on the same files returns the same list
    object and changes nothing. *)
Theorem C1_reload_only_when_stale (fs : gmap string file) (s : State) (f : file) :
  fs !! filename (data_source s) = Some f →
  (stale (data_source s) (st_mtime f) →
     (∃ rest, log (movies fs s).2
              = (log s ++ LogInfo ("Loading movies from " +:+ filename (data_source s))
                          :: rest)%list)
     ∧ ∀ ms, load_rows fs (filename (data_source s)) = Ok ms →
             Forall (λ m, is_Some (director m)) ms →
             movies fs s
             = (Ok (Some {| list_id := next_id s; items := ms |}),
                with_data_source (set_last_modified (st_mtime f))
                  (load_installed ms s)))
  ∧ (¬ stale (data_source s) (st_mtime f) →
     movies fs s = (Ok (_movies (data_source s)), s)
     ∧ is_Some (_movies (data_source s)))
  ∧ (∀ v s', movies fs s = (Ok v, s') →
     is_Some v ∧ movies fs s' = (Ok v, s')).
Proof.
  intros Hfs.
  assert (Hmt : getmtime fs (filename (data_source s)) = Ok (st_mtime f)).
  { unfold getmtime. by rewrite Hfs. }
  split; [|split].
  - intros Hst. rewrite movies_eq, Hmt, movies_locked_eq, decide_True by done.
    split.
    + rewrite _load_movies_eq.
      destruct (load_rows fs (filename (data_source s))) as [ms|e]; simpl.
      * destruct ((build_index_of ms).1) as [|e]; simpl; [by exists []|].
        exists [LogError e]. by rewrite <- app_assoc.
      * exists [LogError e]. by rewrite <- app_assoc.
    + intros ms Hrows Hdir. by rewrite (_load_movies_ok fs s ms).
  - intros Hst. rewrite movies_eq, Hmt, movies_locked_eq, decide_False by done.
    split; [done|]. unfold stale in Hst.
    destruct (_movies (data_source s)); [eauto|tauto].
  - intros v s'. rewrite movies_eq, Hmt. intros Hcall.
    apply movies_locked_returns in Hcall as (-> & Hsome & Hfresh & Hname).
    split; [done|].
    rewrite movies_eq, Hname, Hmt, movies_locked_eq. by rewrite decide_False.
Qed.

Lemma C1_reload_only_when_stale_witness :
  two_movies_fs !! filename (data_source fresh) = Some two_movies_file
  ∧ stale (data_source fresh) 100
  ∧ movies two_movies_fs fresh
    = (Ok (Some {| list_id := 0; items := [inception; interstellar] |}),
       with_data_source (set_last_modified 100)
         (load_installed [inception; interstellar] fresh))
  ∧ movies two_movies_fs
      (with_data_source (set_last_modified 100)
         (load_installed [inception; interstellar] fresh))
    = (Ok (Some {| list_id := 0; items := [inception; interstellar] |}),
       with_data_source (set_last_modified 100)
         (load_installed [inception; interstellar] fresh)).
Proof.
  assert (Hfs : two_movies_fs !! filename (data_source fresh) = Some two_movies_file)
    by reflexivity.
  assert (Hst : stale (data_source fresh) 100) by (left; reflexivity).
  destruct (C1_reload_only_when_stale two_movies_fs fresh two_movies_file Hfs)
    as (Hreload & _ & Hrepeat).
  assert (Hcall : movies two_movies_fs fresh
    = (Ok (Some {| list_id := 0; items := [inception; interstellar] |}),
       with_data_source (set_last_modified 100)
         (load_installed [inception; interstellar] fresh))).
  { apply (proj2 (Hreload Hst)); [reflexivity|].
    repeat constructor; by eexists. }
  split; [exact Hfs|]. split; [exact Hst|]. split; [exact Hcall|].
  exact (proj2 (Hrepeat _ _ Hcall)).
Defined.

(** C2, as stated, fails on short rows.  A row that stops before the
    title loads, with [None] for a title.  A row that stops before the
    director makes the load raise [AttributeError] from [_build_index],
    after the new list has replaced the old one and the index has been
    cleared and partly rebuilt. *)
Lemma C2_short_rows_load_or_tear :
  (∃ row, row ∈ DictReader no_title_csv ∧ row !! "title" = Some None)
  ∧ (movies no_title_fs fresh).1
    = Ok (Some {| list_id := 0;
                  items := [ {| title := None; release_year := 2010;
                                director := Some "Nolan" |} ] |})
  ∧ (∃ row, row ∈ DictReader short_row_csv ∧ row !! "director" = Some None)
  ∧ _movies (data_source loaded)
    = Some {| list_id := 0; items := [inception; interstellar] |}
  ∧ let r := movies {[ "movies.csv" := short_row_file ]} loaded in
    r.1 = Raise AttributeError
    ∧ _movies (data_source r.2)
      = Some {| list_id := 1;
                items := [ inception;
                           {| title := Some "Interstellar"; release_year := 2014;
                              director := None |} ] |}
    ∧ index_size (_index (data_source r.2)) "year" = 2%nat
    ∧ index_size (_index (data_source r.2)) "director" = 1%nat
    ∧ _last_modified (data_source r.2) = 100.
Proof.
  split; [|split; [|split; [|split]]].
  - exists (dict_row ["release_year"; "director"; "title"] ["2010"; "Nolan"]).
    split; [apply list_elem_of_here|reflexivity].
  - reflexivity.
  - exists (dict_row ["title"; "release_year"; "director"] ["Interstellar"; "2014"]).
    split; [apply list_elem_of_further, list_elem_of_here|reflexivity].
  - reflexivity.
  - vm_compute. by repeat split.
Qed.

(** C2, amended: when the file is missing, or cannot be read, or some
    row lacks a required column or has a year cell that is absent or not
    an integer, the load raises the exception met ([FileNotFoundError],
    the error of the read, [KeyError], [TypeError] or [ValueError]; the
    program has no exception type of its own) and the data source is as
    before: list, index and last observed time; the cache is untouched;
    a call of [movies] that attempted the load raises the same exception
    to its caller and leaves the same data source. *)
Theorem C2_unread_load_changes_nothing (fs : gmap string file) (s : State) :
  fs !! filename (data_source s) = None
  ∨ (∃ f e, fs !! filename (data_source s) = Some f ∧ content f = Raise e)
  ∨ (∃ f lines row,
       fs !! filename (data_source s) = Some f ∧ content f = Ok lines
       ∧ row ∈ DictReader lines ∧ bad_row row) →
  ∃ e,
    _load_movies fs s = (Raise e, with_log (LogError e) (load_started s))
    ∧ data_source (_load_movies fs s).2 = data_source s
    ∧ search_cache (_load_movies fs s).2 = search_cache s
    ∧ (fs !! filename (data_source s) = None →
       e = FileNotFoundError ∧ movies fs s = (Raise FileNotFoundError, s))
    ∧ (∀ f, fs !! filename (data_source s) = Some f →
       stale (data_source s) (st_mtime f) →
       (movies fs s).1 = Raise e
       ∧ data_source (movies fs s).2 = data_source s
       ∧ search_cache (movies fs s).2 = search_cache s)
    ∧ (∀ f lines, fs !! filename (data_source s) = Some f →
       content f = Ok lines →
       e ∈ [KeyError "title"; KeyError "release_year"; TypeError; ValueError;
            KeyError "director"]).
Proof.
  intros Hbad.
  assert (∃ e, load_rows fs (filename (data_source s)) = Raise e) as [e Hrows].
  { unfold load_rows, open_csv.
    destruct Hbad as [->|[(f & e & -> & Hc)|(f & lines & row & -> & Hc & Hin & Hrow)]].
    - by eexists.
    - rewrite Hc. by eexists.
    - rewrite Hc. simpl. apply read_movies_raises. eauto. }
  exists e. pose proof (_load_movies_unread fs s e Hrows) as Hload.
  rewrite Hload. split; [done|]. split; [done|]. split; [done|].
  split; [|split].
  - intros Hfs. split.
    + unfold load_rows, open_csv in Hrows. rewrite Hfs in Hrows.
      simpl in Hrows. congruence.
    + rewrite movies_eq. unfold getmtime. by rewrite Hfs.
  - intros f Hfs Hst.
    assert (movies fs s = (Raise e, with_log (LogError e) (load_started s))) as ->; [|done].
    rewrite movies_eq. unfold getmtime. rewrite Hfs.
    rewrite movies_locked_eq, decide_True by done. by rewrite Hload.
  - intros f lines Hfs Hc. unfold load_rows, open_csv in Hrows.
    rewrite Hfs, Hc in Hrows. simpl in Hrows.
    by apply read_movies_raises_which in Hrows.
Qed.

Lemma C2_unread_load_changes_nothing_witness :
  (∃ f lines row,
     bad_year_fs !! filename (data_source loaded) = Some f ∧ content f = Ok lines
     ∧ row ∈ DictReader lines ∧ bad_row row)
  ∧ ∃ e,
      _load_movies bad_year_fs loaded
      = (Raise e, with_log (LogError e) (load_started loaded))
      ∧ (movies bad_year_fs loaded).1 = Raise e
      ∧ data_source (movies bad_year_fs loaded).2 = data_source loaded.
Proof.
  assert (Hbad : ∃ f lines row,
     bad_year_fs !! filename (data_source loaded) = Some f ∧ content f = Ok lines
     ∧ row ∈ DictReader lines ∧ bad_row row).
  { exists bad_year_file, bad_year_csv,
      (dict_row ["title"; "release_year"; "director"]
                ["Interstellar"; "twenty-fourteen"; "Nolan"]).
    split; [reflexivity|]. split; [reflexivity|]. split.
    - apply list_elem_of_further, list_elem_of_here.
    - right. right. right. left. exists "twenty-fourteen". split; reflexivity. }
  split; [exact Hbad|].
  destruct (C2_unread_load_changes_nothing bad_year_fs loaded
              (or_intror (or_intror Hbad)))
    as (e & Hload & _ & _ & _ & Hmovies & _).
  exists e. split; [exact Hload|].
  destruct (Hmovies bad_year_file) as (Hr & Hd & _).
  - reflexivity.
  - right. vm_compute. reflexivity.
  - split; [exact Hr|exact Hd].
Defined.

(** ** The cache of [search] *)

Lemma py_eq_refl (v : pyval) : py_eq v v = true.
Proof.
  destruct v as [|z|m e|s]; simpl.
  - done.
  - apply Z.eqb_refl.
  - unfold float_eq. rewrite Z.leb_refl, Z.sub_diag. simpl.
    rewrite Z.mul_1_r. apply Z.eqb_refl.
  - by apply bool_decide_eq_true.
Qed.

Lemma key_eq_refl (k : SearchCriteria * pyval) : key_eq k k = true.
Proof. unfold key_eq. by rewrite py_eq_refl, bool_decide_eq_true_2. Qed.



Lemma cache_get_Some (k : SearchCriteria * pyval)
    (es : list ((SearchCriteria * pyval) * list Movie)) found rest :
  cache_get k es = Some (found, rest) →
  key_eq k found.1 = true
  ∧ ∀ P : (SearchCriteria * pyval) * list Movie → Prop,
      Forall P es → Forall P (found :: rest).
Proof.
  revert found rest. induction es as [|e es IH]; intros found rest; simpl; [done|].
  destruct (key_eq k e.1) eqn:Hk.
  - intros [= <- <-]. done.
  - destruct (cache_get k es) as [[found' rest']|]; [|done].
    intros [= <- <-]. destruct (IH _ _ eq_refl) as [Hfound Hperm].
    split; [done|]. intros P HP. inversion HP as [|?? He Hes]. subst.
    apply Hperm in Hes. inversion Hes. subst. by repeat constructor.
Qed.

Lemma cache_get_head (k : SearchCriteria * pyval) e
    (es : list ((SearchCriteria * pyval) * list Movie)) :
  key_eq k e.1 = true → cache_get k (e :: es) = Some (e, es).
Proof. intros Hk. simpl. by rewrite Hk. Qed.


Lemma search_body_frame (fs : gmap string file) (criteria : SearchCriteria)
    (query : pyval) (s : State) :
  search_cache (search_body fs criteria query s).2 = search_cache s.
Proof.
  unfold search_body. unfold_M. pose proof (movies_frame fs s) as [Hc _].
  destruct (movies fs s) as [[v|e] s1]; simpl in *; [|done].
  destruct (iterate v) as [l|e]; simpl; [|done].
  by destruct (_search_strategies criteria l query).
Qed.

Lemma search_eq (fs : gmap string file) (criteria : SearchCriteria)
    (query : pyval) (s : State) :
  search fs criteria query s =
    match cache_get (criteria, query) (entries (search_cache s)) with
    | Some (found, rest) =>
        (Ok found.2,
         with_search_cache (λ c, {| entries := found :: rest;
                                    hits := S (hits c); misses := misses c |}) s)
    | None =>
        match search_body fs criteria query
                (with_search_cache (λ c, {| entries := entries c; hits := hits c;
                                            misses := S (misses c) |}) s) with
        | (Ok r, s2) => (Ok r, with_search_cache (cache_put (criteria, query) r) s2)
        | (Raise e, s2) => (Raise e, s2)
        end
    end.
Proof.
  unfold search. unfold_M. simpl.
  destruct (cache_get (criteria, query) (entries (search_cache s)))
    as [[found rest]|]; [done|]. simpl.
  by destruct (search_body fs criteria query _) as [[r|e] s2].
Qed.

(** After a search that returned, the key heads the cache with the
    value returned. *)
Lemma search_caches (fs : gmap string file) (criteria : SearchCriteria)
    (query : pyval) (s s1 : State) (r : list Movie) :
  search fs criteria query s = (Ok r, s1) →
  ∃ key rest, entries (search_cache s1) = (key, r) :: rest
              ∧ key_eq (criteria, query) key = true.
Proof.
  rewrite search_eq.
  destruct (cache_get (criteria, query) (entries (search_cache s)))
    as [[[key v] rest]|] eqn:Hget.
  - intros [= <- <-]. exists key, rest. split; [done|].
    by apply cache_get_Some in Hget as [? _].
  - pose proof (search_body_frame fs criteria query
                  (with_search_cache (λ c, {| entries := entries c; hits := hits c;
                                              misses := S (misses c) |}) s)) as Hfr.
    destruct (search_body fs criteria query _) as [[r'|e] s2]; [|done].
    intros [= <- <-]. simpl in *. rewrite Hfr. simpl. rewrite Hget.
    exists (criteria, query),
      (if bool_decide (maxsize ≤ length (entries (search_cache s)))%nat
       then removelast (entries (search_cache s)) else entries (search_cache s)).
    split; [|apply key_eq_refl]. by case_bool_decide.
Qed.





(** C4: when the key is in the cache, [search] returns the cached list
    and changes nothing but the order of the entries and the hit count:
    the data source, the log and the files play no part, so the result
    is the same whatever the files hold.  A query repeated after it has
    returned is answered that way, with an equal result.  Nothing in
    [movies], reload included, touches the cache: after the file is
    rewritten and reloaded for another query, the first query is still
    answered with its old result, which a fresh computation would not
    give. *)
Theorem C4_hit_returns_cached_without_store (fs : gmap string file)
    (criteria : SearchCriteria) (query : pyval) (s : State) :
  (∀ found rest,
     cache_get (criteria, query) (entries (search_cache s)) = Some (found, rest) →
     search fs criteria query s
     = (Ok found.2,
        {| data_source := data_source s;
           search_cache := {| entries := found :: rest;
                              hits := S (hits (search_cache s));
                              misses := misses (search_cache s) |};
           log := log s; next_id := next_id s |})
     ∧ ∀ fs', search fs' criteria query s = search fs criteria query s)
  ∧ (∀ r s1, search fs criteria query s = (Ok r, s1) →
     ∀ fs', ∃ s2, search fs' criteria query s1 = (Ok r, s2)
                  ∧ data_source s2 = data_source s1
                  ∧ log s2 = log s1
                  ∧ next_id s2 = next_id s1
                  ∧ misses (search_cache s2) = misses (search_cache s1)
                  ∧ hits (search_cache s2) = S (hits (search_cache s1)))
  ∧ search_cache (movies fs s).2 = search_cache s
  ∧ let s1 := (search two_movies_fs DIRECTOR (PStr "nolan") fresh).2 in
    let fs2 := <["movies.csv" := one_movie_file]> two_movies_fs in
    let s2 := (search fs2 YEAR (PInt 2017) s1).2 in
    (search fs2 YEAR (PInt 2017) s1).1 = Ok [dunkirk]
    ∧ items <$> _movies (data_source s2) = Some [dunkirk]
    ∧ (search fs2 DIRECTOR (PStr "nolan") s2).1 = Ok [inception; interstellar]
    ∧ (search_body fs2 DIRECTOR (PStr "nolan") s2).1 = Ok [dunkirk].
Proof.
  split; [|split; [|split]].
  - intros found rest Hget. split.
    + by rewrite search_eq, Hget.
    + intros fs'. by rewrite !search_eq, Hget.
  - intros r s1 Hcall fs'.
    destruct (search_caches _ _ _ _ _ _ Hcall) as (key & rest & He & Hk).
    eexists. rewrite search_eq, He, (cache_get_head _ (key, r)) by done.
    split; [reflexivity|]. by repeat split.
  - apply movies_frame.
  - vm_compute. by repeat split.
Qed.

Lemma C4_hit_returns_cached_without_store_witness :
  let s1 := (search two_movies_fs DIRECTOR (PStr "nolan") fresh).2 in
  cache_get (DIRECTOR, PStr "nolan") (entries (search_cache s1))
  = Some ((DIRECTOR, PStr "nolan", [inception; interstellar]), [])
  ∧ search ∅ DIRECTOR (PStr "nolan") s1
    = (Ok [inception; interstellar],
       {| data_source := data_source s1;
          search_cache := {| entries := [(DIRECTOR, PStr "nolan", [inception; interstellar])];
                             hits := S (hits (search_cache s1));
                             misses := misses (search_cache s1) |};
          log := log s1; next_id := next_id s1 |}).
Proof.
  intros s1.
  assert (Hget : cache_get (DIRECTOR, PStr "nolan") (entries (search_cache s1))
    = Some ((DIRECTOR, PStr "nolan", [inception; interstellar]), [])) by reflexivity.
  split; [exact Hget|].
  exact (proj1 (proj1 (C4_hit_returns_cached_without_store ∅ DIRECTOR (PStr "nolan") s1)
                 _ _ Hget)).
Defined.

(** ** The index after a reload *)

Lemma movies_index_groups (fs : gmap string file) (s s' : State) (snap : snapshot) :
  movies fs s = (Ok (Some snap), s') →
  (∃ t, getmtime fs (filename (data_source s)) = Ok t ∧ stale (data_source s) t)
  ∨ index_groups (data_source s) →
  index_groups (data_source s')
  ∧ _movies (data_source s') = Some snap
  ∧ ((∃ t, getmtime fs (filename (data_source s)) = Ok t ∧ stale (data_source s) t) →
     _index (data_source s') = (build_index_of (items snap)).2).
Proof.
  rewrite movies_eq.
  destruct (getmtime fs (filename (data_source s))) as [t|e] eqn:Hmt; [|done].
  rewrite movies_locked_eq. case_decide as Hst.
  - rewrite _load_movies_eq.
    destruct (load_rows fs (filename (data_source s))) as [ms|e]; [|done].
    destruct ((build_index_of ms).1) as [[]|e] eqn:Hbuild; [|done].
    intros [= <- <-] _. simpl. split; [|done].
    intros snap' [= <-]. simpl. by apply build_index_groups.
  - intros [= Hsnap <-] [(t' & [= <-] & Hst')|Hgroups]; [done|].
    split; [done|]. split; [done|]. by intros (t' & [= <-] & Hst').
Qed.

(** Nothing reads [_index]: whatever it holds, [movies] and [search]
    return the same result and leave the same state, index apart. *)
Lemma movies_index_blind (fs : gmap string file) (s : State)
    (idx : gmap string (gmap string (list Movie))) :
  (movies fs (with_data_source (set_index idx) s)).1 = (movies fs s).1
  ∧ forget_index (movies fs (with_data_source (set_index idx) s)).2
    = forget_index (movies fs s).2.
Proof.
  rewrite !movies_eq. simpl.
  destruct (getmtime fs (filename (data_source s))) as [t|e]; [|done].
  rewrite !movies_locked_eq.
  destruct (decide (stale (data_source (with_data_source (set_index idx) s)) t))
    as [H1|H1];
    destruct (decide (stale (data_source s) t)) as [H2|H2];
    try (exfalso; apply H2; exact H1); try (exfalso; apply H1; exact H2); [|done].
  rewrite !_load_movies_eq. simpl.
  destruct (load_rows fs (filename (data_source s))) as [ms|e]; [|done].
  by destruct ((build_index_of ms).1).
Qed.

Lemma search_body_index_blind (fs : gmap string file) (criteria : SearchCriteria)
    (query : pyval) (s : State) (idx : gmap string (gmap string (list Movie))) :
  (search_body fs criteria query (with_data_source (set_index idx) s)).1
  = (search_body fs criteria query s).1
  ∧ forget_index (search_body fs criteria query (with_data_source (set_index idx) s)).2
    = forget_index (search_body fs criteria query s).2.
Proof.
  unfold search_body. unfold_M.
  destruct (movies_index_blind fs s idx) as [Hr Hs].
  destruct (movies fs (with_data_source (set_index idx) s)) as [r1 s1].
  destruct (movies fs s) as [r2 s2]. simpl in Hr, Hs. subst r2.
  destruct r1 as [v|e]; [|done].
  destruct (iterate v) as [l|e]; [|done].
  by destruct (_search_strategies criteria l query).
Qed.

Lemma search_index_blind (fs : gmap string file) (criteria : SearchCriteria)
    (query : pyval) (s : State) (idx : gmap string (gmap string (list Movie))) :
  (search fs criteria query (with_data_source (set_index idx) s)).1
  = (search fs criteria query s).1
  ∧ forget_index (search fs criteria query (with_data_source (set_index idx) s)).2
    = forget_index (search fs criteria query s).2.
Proof.
  rewrite !search_eq. simpl.
  destruct (cache_get (criteria, query) (entries (search_cache s)))
    as [[found rest]|]; [done|].
  pose proof (search_body_index_blind fs criteria query
                (with_search_cache (λ c, {| entries := entries c; hits := hits c;
                                            misses := S (misses c) |}) s) idx)
    as [Hr Hs].
  change (with_search_cache (λ c, {| entries := entries c; hits := hits c;
                                     misses := S (misses c) |})
            (with_data_source (set_index idx) s))
    with (with_data_source (set_index idx)
            (with_search_cache (λ c, {| entries := entries c; hits := hits c;
                                        misses := S (misses c) |}) s)).
  destruct (search_body fs criteria query (with_data_source _ _)) as [r1 s1].
  destruct (search_body fs criteria query (with_search_cache _ s)) as [r2 s2].
  simpl in Hr, Hs. subst r2. destruct r1 as [r|e]; [|done].
  split; [done|]. simpl.
  change (with_search_cache (cache_put (criteria, query) r) (forget_index s1)
          = with_search_cache (cache_put (criteria, query) r) (forget_index s2)).
  by rewrite Hs.
Qed.

(** C8, as stated, fails: the data source has no lookup operation and
    nothing reads the index.  With the index of the loaded store
    emptied, [movies] and the searches by year and by director answer as
    before; and the search by director returns both records for "nol",
    under which the index holds nothing. *)
Lemma C8_index_is_never_read :
  index_get (_index (data_source loaded)) "director" "nolan" = [inception; interstellar]
  ∧ index_get (_index (data_source (forget_index loaded))) "director" "nolan" = []
  ∧ (movies two_movies_fs (forget_index loaded)).1 = (movies two_movies_fs loaded).1
  ∧ (search two_movies_fs YEAR (PInt 2010) (forget_index loaded)).1 = Ok [inception]
  ∧ (search two_movies_fs DIRECTOR (PStr "nolan") (forget_index loaded)).1
    = Ok [inception; interstellar]
  ∧ index_get (_index (data_source loaded)) "director" "nol" = []
  ∧ (search two_movies_fs DIRECTOR (PStr "nol") loaded).1 = Ok [inception; interstellar].
Proof. vm_compute. by repeat split. Qed.

(** C8, amended: a call of [movies] that reloads leaves in [_index] what
    a build from the empty index gives for the new list, whatever the
    index held before: under each year written as a string and under
    each lower-cased director, the records of the list that share the
    key, in order.  The data source defines no lookup: whatever the
    index holds, [movies] and [search] return the same result and leave
    the same state, index apart. *)
Theorem C8_index_rebuilt_never_read (fs : gmap string file) (s s' : State)
    (snap : snapshot) :
  movies fs s = (Ok (Some snap), s') →
  (∃ t, getmtime fs (filename (data_source s)) = Ok t ∧ stale (data_source s) t)
  ∨ index_groups (data_source s) →
  index_groups (data_source s')
  ∧ _movies (data_source s') = Some snap
  ∧ ((∃ t, getmtime fs (filename (data_source s)) = Ok t ∧ stale (data_source s) t) →
     _index (data_source s') = (build_index_of (items snap)).2)
  ∧ (∀ idx,
       (movies fs (with_data_source (set_index idx) s)).1 = (movies fs s).1
       ∧ forget_index (movies fs (with_data_source (set_index idx) s)).2
         = forget_index (movies fs s).2)
  ∧ (∀ idx criteria query,
       (search fs criteria query (with_data_source (set_index idx) s)).1
       = (search fs criteria query s).1
       ∧ forget_index (search fs criteria query (with_data_source (set_index idx) s)).2
         = forget_index (search fs criteria query s).2).
Proof.
  intros Hcall Hpre.
  destruct (movies_index_groups fs s s' snap Hcall Hpre) as (Hgroups & Hsnap & Hfull).
  split; [done|]. split; [done|]. split; [done|]. split.
  - intros idx. apply movies_index_blind.
  - intros idx criteria query. apply search_index_blind.
Qed.

Lemma C8_index_rebuilt_never_read_witness :
  movies two_movies_fs fresh
  = (Ok (Some {| list_id := 0; items := [inception; interstellar] |}), loaded)
  ∧ (∃ t, getmtime two_movies_fs (filename (data_source fresh)) = Ok t
          ∧ stale (data_source fresh) t)
  ∧ index_groups (data_source loaded)
  ∧ _index (data_source loaded) = (build_index_of [inception; interstellar]).2.
Proof.
  assert (Hcall : movies two_movies_fs fresh
    = (Ok (Some {| list_id := 0; items := [inception; interstellar] |}), loaded))
    by reflexivity.
  assert (Hst : ∃ t, getmtime two_movies_fs (filename (data_source fresh)) = Ok t
                     ∧ stale (data_source fresh) t).
  { exists 100. split; [reflexivity|]. left. reflexivity. }
  destruct (C8_index_rebuilt_never_read two_movies_fs fresh loaded _ Hcall
              (or_introl Hst)) as (Hgroups & _ & Hfull & _).
  split; [exact Hcall|]. split; [exact Hst|].
  split; [exact Hgroups|exact (Hfull Hst)].
Defined.

(** ** Concurrent callers *)

Lemma callers_insert_eq (l : list pc) (i : nat) (p q : pc) :
  l !! i = Some p → <[i := q]> l !! i = Some q.
Proof. intros Hi. apply list_lookup_insert_eq. by eapply lookup_lt_Some. Qed.

(** Splits on whether [k] is the caller [i] that has just moved to [q]. *)
Ltac moved k i Hi :=
  destruct (decide (k = i)) as [->|?];
  [rewrite (callers_insert_eq _ _ _ _ Hi) in *
  |rewrite list_lookup_insert_ne in * by done].

(** One caller running its four steps with nothing in between is a call
    of [movies]. *)
Lemma run_alone_movies (c c' : config) (i : nat) :
  callers c !! i = Some Start →
  run [Stat i; Enter i; Block i; Exit i] c = Some c' →
  state c' = (movies (files c) (state c)).2
  ∧ callers c' !! i = Some (Done (movies (files c) (state c)).1).
Proof.
  intros Hi. rewrite movies_eq. cbn [run]. cbn [exec]. rewrite Hi.
  destruct (getmtime (files c) (filename (data_source (state c)))) as [t|e] eqn:Hmt.
  - pose proof (callers_insert_eq _ _ _ (HaveTime t) Hi) as H1.
    cbn [exec callers state files locked]. rewrite H1.
    destruct (locked c); [done|].
    pose proof (callers_insert_eq _ _ _ (Inside t) H1) as H2.
    cbn [exec callers state files locked]. rewrite H2.
    pose proof (callers_insert_eq _ _ _
                  (Leaving (movies_locked (files c) t (state c)).1) H2) as H3.
    cbn [exec callers state files locked]. rewrite H3.
    intros [= <-]. split; [done|]. cbn [callers].
    by apply (callers_insert_eq _ _ _ _ H3).
  - pose proof (callers_insert_eq _ _ _ (Done (Raise e)) Hi) as H1.
    cbn [exec callers state files locked]. by rewrite H1.
Qed.
(** What one event does, by cases. *)
Lemma exec_inv (ev : event) (c c' : config) :
  exec ev c = Some c' →
  (∃ i p q, callers c !! i = Some p ∧ callers c' = <[i := q]> (callers c)
     ∧ files c' = files c
     ∧ ((ev = Stat i ∧ p = Start ∧ ¬ in_block (Some q) ∧ (∀ r, q ≠ Leaving r)
         ∧ state c' = state c ∧ locked c' = locked c)
        ∨ (∃ t, ev = Enter i ∧ p = HaveTime t ∧ q = Inside t
           ∧ state c' = state c ∧ locked c = false ∧ locked c' = true)
        ∨ (∃ t, ev = Block i ∧ p = Inside t
           ∧ q = Leaving (movies_locked (files c) t (state c)).1
           ∧ state c' = (movies_locked (files c) t (state c)).2
           ∧ locked c' = locked c)
        ∨ (∃ r, ev = Exit i ∧ p = Leaving r ∧ q = Done r
           ∧ state c' = state c ∧ locked c' = false)))
  ∨ (∃ name f, ev = Touch name f ∧ callers c' = callers c ∧ state c' = state c
       ∧ locked c' = locked c).
Proof.
  destruct ev as [i|i|i|i|name f]; simpl; intros Hex.
  - destruct (callers c !! i) as [[]|] eqn:Hi; try done. injection Hex as <-.
    left. eexists i, Start, _. split; [done|]. split; [done|]. split; [done|].
    left. destruct (getmtime _ _); simpl; repeat split; try done; by intros [].
  - destruct (callers c !! i) as [[|t| | |]|] eqn:Hi; try done.
    destruct (locked c) eqn:Hl; [done|]. injection Hex as <-.
    left. eexists i, (HaveTime t), _. split; [done|]. split; [done|]. split; [done|].
    right. left. by exists t.
  - destruct (callers c !! i) as [[| |t| |]|] eqn:Hi; try done. injection Hex as <-.
    left. eexists i, (Inside t), _. split; [done|]. split; [done|]. split; [done|].
    right. right. left. by exists t.
  - destruct (callers c !! i) as [[| | |r|]|] eqn:Hi; try done. injection Hex as <-.
    left. eexists i, (Leaving r), _. split; [done|]. split; [done|]. split; [done|].
    right. right. right. by exists r.
  - injection Hex as <-. right. by exists name, f.
Qed.

(** An [AttributeError] raised in the block stays on record. *)
Lemma exec_raised (ev : event) (c c' : config) (j : nat) :
  exec ev c = Some c' →
  raised_attribute_error (callers c !! j) → raised_attribute_error (callers c' !! j).
Proof.
  intros Hex Hj.
  destruct (exec_inv _ _ _ Hex) as [(i & p & q & Hi & -> & _ & Hcase)|(? & ? & _ & -> & _)];
    [|done].
  moved j i Hi; [|done].
  destruct Hj as [Hj|Hj]; rewrite Hi in Hj; injection Hj as ->;
    destruct Hcase as [(_ & ? & _)|[(t & _ & ? & _)|[(t & _ & ? & _)|(r & _ & Hr & -> & _)]]];
    try done.
  injection Hr as <-. by right.
Qed.

Lemma run_raised (evs : list event) (c c' : config) (j : nat) :
  run evs c = Some c' →
  raised_attribute_error (callers c !! j) → raised_attribute_error (callers c' !! j).
Proof.
  revert c. induction evs as [|ev evs IH]; intros c; simpl.
  - by intros [= <-].
  - destruct (exec ev c) as [c1|] eqn:Hex; [|done].
    intros Hrun Hj. eapply IH; [done|]. by eapply exec_raised.
Qed.

(** The discipline of the lock is kept by every step. *)
Lemma exec_disciplined (ev : event) (c c' : config) :
  exec ev c = Some c' → disciplined c → disciplined c'.
Proof.
  intros Hex (I1 & I2 & I3).
  destruct (exec_inv _ _ _ Hex)
    as [(i & p & q & Hi & Hc & _ & Hcase)|(? & ? & _ & Hc & Hs & Hl)].
  2: { unfold disciplined. by rewrite Hc, Hs, Hl. }
  unfold disciplined. rewrite Hc.
  destruct Hcase as [(_ & -> & Hq & Hq' & Hs & Hl)
                    |[(t & _ & -> & -> & Hs & Hl & Hl')
                     |[(t & _ & -> & -> & Hs & Hl)
                      |(r & _ & -> & -> & Hs & Hl)]]].
  - (* the time is read *)
    rewrite Hs, Hl. split; [|split].
    + intros k Hk. moved k i Hi; [done|by eapply I1].
    + intros k l Hk Hlb. moved k i Hi; [done|]. moved l i Hi; [done|]. by eapply I2.
    + intros k v Hk. moved k i Hi; [|by eapply I3]. injection Hk as Hk.
      by destruct (Hq' (Ok v)).
  - (* the lock is taken: nobody was in the block *)
    assert (Hout : ∀ k, ¬ in_block (callers c !! k)).
    { intros k Hk. apply I1 in Hk. congruence. }
    rewrite Hs, Hl'. split; [done|split].
    + intros k l Hk Hlb.
      moved k i Hi; [|by destruct (Hout k)].
      moved l i Hi; [done|by destruct (Hout l)].
    + intros k v Hk. moved k i Hi; [done|].
      destruct (Hout k). by rewrite Hk.
  - (* the block runs: its caller is the only one in the block *)
    assert (Hin : in_block (callers c !! i)) by by rewrite Hi.
    rewrite Hs, Hl. split; [|split].
    + intros k Hk. by eapply I1.
    + intros k l Hk Hlb.
      assert (k = i) as ->.
      { moved k i Hi; [done|]. by eapply I2. }
      moved l i Hi; [done|]. symmetry. by eapply I2.
    + intros k v Hk. moved k i Hi.
      * injection Hk as Hk.
        destruct (movies_locked (files c) t (state c)) as [r s'] eqn:Hcall.
        simpl in *. subst r.
        by apply movies_locked_returns in Hcall as (? & ? & _).
      * assert (k = i); [|done]. eapply I2; [|done]. by rewrite Hk.
  - (* the lock is given back: nobody is left in the block *)
    assert (Hin : in_block (callers c !! i)) by by rewrite Hi.
    assert (Hout : ∀ k, ¬ in_block (<[i:=Done r]> (callers c) !! k)).
    { intros k Hk. moved k i Hi; [done|]. by destruct (I2 k i). }
    rewrite Hs, Hl. split; [|split].
    + intros k Hk. by destruct (Hout k).
    + intros k l Hk. by destruct (Hout k).
    + intros k v Hk. destruct (Hout k). by rewrite Hk.
Qed.

Lemma run_disciplined (evs : list event) (c c' : config) :
  run evs c = Some c' → disciplined c → disciplined c'.
Proof.
  revert c. induction evs as [|ev evs IH]; intros c; simpl.
  - by intros [= <-].
  - destruct (exec ev c) as [c1|] eqn:Hex; [|done].
    intros Hrun Hd. eapply IH; [done|]. by eapply exec_disciplined.
Qed.

(** The block keeps the counts in agreement unless it raises from
    [_build_index]. *)
Lemma movies_locked_counts (fs : gmap string file) (t : Z) (s : State) :
  counts_agree (data_source s) →
  (movies_locked fs t s).1 ≠ Raise AttributeError →
  counts_agree (data_source (movies_locked fs t s).2).
Proof.
  intros Hagree. rewrite movies_locked_eq. case_decide as Hst; [|done].
  rewrite _load_movies_eq.
  destruct (load_rows fs (filename (data_source s))) as [ms|e]; [|done].
  destruct ((build_index_of ms).1) as [[]|e] eqn:Hbuild; simpl.
  - intros _ snap [= <-]. simpl. by apply build_index_counts.
  - apply index_directors_raises in Hbuild as [-> _]. done.
Qed.

Lemma exec_counts (ev : event) (c c' : config) :
  exec ev c = Some c' →
  counts_agree (data_source (state c)) →
  (∀ j, ¬ raised_attribute_error (callers c' !! j)) →
  counts_agree (data_source (state c')).
Proof.
  intros Hex Hagree Hne.
  destruct (exec_inv _ _ _ Hex)
    as [(i & p & q & Hi & Hc & _ & Hcase)|(? & ? & _ & _ & -> & _)]; [|done].
  destruct Hcase as [(_ & _ & _ & _ & -> & _)
                    |[(t & _ & _ & _ & -> & _)
                     |[(t & _ & -> & -> & -> & _)
                      |(r & _ & _ & _ & -> & _)]]]; try done.
  apply movies_locked_counts; [done|]. intros Hr. apply (Hne i). left.
  rewrite Hc, (callers_insert_eq _ _ _ _ Hi). by rewrite Hr.
Qed.

Lemma run_counts (evs : list event) (c c' : config) :
  run evs c = Some c' →
  counts_agree (data_source (state c)) →
  (∀ j, ¬ raised_attribute_error (callers c' !! j)) →
  counts_agree (data_source (state c')).
Proof.
  revert c. induction evs as [|ev evs IH]; intros c; simpl.
  - by intros [= <-].
  - destruct (exec ev c) as [c1|] eqn:Hex; [|done].
    intros Hrun Hagree Hne. eapply IH; [done| |done].
    eapply exec_counts; [done..|].
    intros j Hj. apply (Hne j). by eapply run_raised.
Qed.

Lemma initial_disciplined (name : string) (fs : gmap string file) (n : nat) :
  disciplined (initial name fs n)
  ∧ counts_agree (data_source (state (initial name fs n))).
Proof.
  assert (Hout : ∀ k, ¬ in_block (replicate n Start !! k)).
  { intros k. destruct (replicate n Start !! k) as [p|] eqn:Hk; [|by intros []].
    apply lookup_replicate in Hk as [-> _]. by intros []. }
  split; [split; [|split]|]; simpl.
  - intros k Hk. by destruct (Hout k).
  - intros k l Hk. by destruct (Hout k).
  - intros k v Hk. destruct (Hout k). by rewrite Hk.
  - intros snap. discriminate.
Qed.
(** C9, as stated, fails: the modification time is read before the lock
    is taken.  In the first run caller 0 reads the time while caller 1
    is inside the block.  In the second, caller 0 reads the time of the
    good file, the file is rewritten with a row that has no director,
    caller 1 reads the new time and its reload raises from
    [_build_index]; caller 0 then enters the block with the old time,
    finds nothing newer, and is handed the list of two records while the
    director index holds one.  In the third, two callers read different
    times around one rewrite and both reload the same, untouched file. *)
Lemma C9_time_read_before_lock :
  from_option
    (λ c, locked c = true ∧ callers c = [HaveTime 100; Inside 100])
    False
    (run [Stat 1; Enter 1; Stat 0] (initial "movies.csv" two_movies_fs 2))
  ∧ from_option
      (λ c, callers c !! 1%nat = Some (Done (Raise AttributeError))
            ∧ callers c !! 0%nat
              = Some (Done (Ok (Some
                  {| list_id := 1;
                     items := [ inception;
                                {| title := Some "Interstellar"; release_year := 2014;
                                   director := None |} ] |})))
            ∧ index_size (_index (data_source (state c))) "year" = 2%nat
            ∧ index_size (_index (data_source (state c))) "director" = 1%nat)
      False
      (run [Stat 2; Enter 2; Block 2; Exit 2;
            Stat 0; Touch "movies.csv" (Some short_row_file);
            Stat 1; Enter 1; Block 1; Exit 1;
            Enter 0; Block 0; Exit 0]
         (initial "movies.csv" two_movies_fs 3))
  ∧ from_option
      (λ c, callers c !! 0%nat
            = Some (Done (Ok (Some {| list_id := 0; items := [dunkirk] |})))
            ∧ callers c !! 1%nat
              = Some (Done (Ok (Some {| list_id := 1; items := [dunkirk] |})))
            ∧ log (state c) = [ LogInfo "Loading movies from movies.csv";
                                LogInfo "Loading movies from movies.csv" ])
      False
      (run [Stat 0; Touch "movies.csv" (Some one_movie_file); Stat 1;
            Enter 0; Block 0; Exit 0; Enter 1; Block 1; Exit 1]
         (initial "movies.csv" two_movies_fs 2)).
Proof. vm_compute. by repeat split. Qed.

(** C9, amended: the modification time is read before the lock is
    taken; the comparison with the last observed time, the reload with
    the rebuild of the index, the update of the observed time and the
    return of the list make up the block under the lock.  Along any
    interleaving of callers and rewrites of the file, only a step of the
    block changes the state, at most one caller is in the block, and it
    holds the lock; if no call has raised from the index rebuild, the
    counts of the list and of each index agree when a caller leaves the
    block, and a caller that leaves with a list holds the list the data
    source holds. *)
Theorem C9_lock_discipline (evs : list event) (c c1 c2 : config) (i : nat) :
  disciplined c →
  counts_agree (data_source (state c)) →
  run evs c = Some c1 →
  exec (Exit i) c1 = Some c2 →
  (∀ j, ¬ raised_attribute_error (callers c2 !! j)) →
  locked c1 = true
  ∧ (∀ j, in_block (callers c1 !! j) → j = i)
  ∧ (∀ ev ca cb, exec ev ca = Some cb → state cb ≠ state ca →
       ∃ j, ev = Block j ∧ in_block (callers ca !! j))
  ∧ disciplined c2
  ∧ locked c2 = false
  ∧ counts_agree (data_source (state c2))
  ∧ (∀ snap, callers c2 !! i = Some (Done (Ok (Some snap))) →
       _movies (data_source (state c2)) = Some snap
       ∧ index_size (_index (data_source (state c2))) "year" = length (items snap)
       ∧ index_size (_index (data_source (state c2))) "director" = length (items snap)).
Proof.
  intros Hd Hagree Hrun Hex Hne.
  pose proof (run_disciplined _ _ _ Hrun Hd) as Hd1.
  pose proof (exec_disciplined _ _ _ Hex Hd1) as Hd2.
  assert (Hagree2 : counts_agree (data_source (state c2))).
  { eapply exec_counts; [done| |done]. eapply run_counts; [done..|].
    intros j Hj. apply (Hne j). by eapply exec_raised. }
  destruct (exec_inv _ _ _ Hex)
    as [(k & p & q & Hk & Hc & _ & Hcase)|(? & ? & [=] & _)].
  destruct Hcase as [([=] & _)|[(t & [=] & _)|[(t & [=] & _)|(r & [= <-] & -> & -> & Hs & Hl)]]].
  destruct Hd1 as (I1 & I2 & I3).
  assert (Hin : in_block (callers c1 !! i)) by by rewrite Hk.
  split; [by eapply I1|]. split; [intros j Hj; by eapply I2|].
  split; [|split; [done|split; [done|split; [done|]]]].
  - intros ev ca cb Hstep Hchange.
    destruct (exec_inv _ _ _ Hstep)
      as [(j & p & q & Hj & _ & _ & Hcase)|(? & ? & _ & _ & Hs' & _)]; [|done].
    destruct Hcase as [(_ & _ & _ & _ & Hs' & _)
                      |[(t & _ & _ & _ & Hs' & _)
                       |[(t & -> & -> & _)
                        |(r' & _ & _ & _ & Hs' & _)]]]; try done.
    exists j. split; [done|]. by rewrite Hj.
  - intros snap Hsnap. rewrite Hc, (callers_insert_eq _ _ _ _ Hk) in Hsnap.
    injection Hsnap as ->. destruct (I3 i _ Hk) as [Hv _].
    rewrite Hs. symmetry in Hv. split; [done|].
    rewrite <- Hs. apply Hagree2. by rewrite Hs.
Qed.

Lemma C9_lock_discipline_witness :
  let c := initial "movies.csv" two_movies_fs 2 in
  disciplined c
  ∧ counts_agree (data_source (state c))
  ∧ from_option
      (λ c2, locked c2 = false
             ∧ callers c2 !! 0%nat
               = Some (Done (Ok (Some {| list_id := 0;
                                         items := [inception; interstellar] |})))
             ∧ index_size (_index (data_source (state c2))) "year" = 2%nat
             ∧ index_size (_index (data_source (state c2))) "director" = 2%nat)
      False
      (run [Stat 0; Stat 1; Enter 1; Block 1; Exit 1; Enter 0; Block 0; Exit 0] c).
Proof.
  intros c.
  destruct (initial_disciplined "movies.csv" two_movies_fs 2) as [Hd Hagree].
  split; [exact Hd|]. split; [exact Hagree|].
  destruct (run [Stat 0; Stat 1; Enter 1; Block 1; Exit 1; Enter 0; Block 0] c)
    as [c1|] eqn:Hrun; [|discriminate].
  destruct (exec (Exit 0) c1) as [c2|] eqn:Hex;
    [|vm_compute in Hrun; injection Hrun as <-; discriminate].
  assert (Hall : run [Stat 0; Stat 1; Enter 1; Block 1; Exit 1; Enter 0; Block 0; Exit 0] c
                 = Some c2).
  { vm_compute in Hrun. injection Hrun as <-.
    vm_compute in Hex. injection Hex as <-. vm_compute. reflexivity. }
  rewrite Hall. simpl.
  assert (Hne : ∀ j, ¬ raised_attribute_error (callers c2 !! j)).
  { vm_compute in Hall. injection Hall as <-.
    intros [|[|j]] [H|H]; discriminate. }
  assert (H0 : callers c2 !! 0%nat
     = Some (Done (Ok (Some {| list_id := 0; items := [inception; interstellar] |})))).
  { vm_compute in Hall. injection Hall as <-. reflexivity. }
  destruct (C9_lock_discipline
              [Stat 0; Stat 1; Enter 1; Block 1; Exit 1; Enter 0; Block 0] c c1 c2 0
              Hd Hagree Hrun Hex Hne) as (_ & _ & _ & _ & Hl & _ & Hobs).
  split; [exact Hl|]. split; [exact H0|].
  exact (proj2 (Hobs _ H0)).
Defined.
(** * Further properties *)

(** ** Strategies *)

Lemma ci_substring_empty (t : string) : ci_substring "" t.
Proof. exists "", (lower t). done. Qed.

Lemma ci_substring_trans (q q' t : string) :
  ci_substring q q' → ci_substring q' t → ci_substring q t.
Proof.
  intros (a & b & Hq) (c & d & Ht). exists (c +:+ a), (b +:+ d).
  rewrite Ht, Hq. by rewrite !string_app_assoc.
Qed.

Lemma field_lower_raises (f : option string) (e : exn) :
  field_lower f = Raise e → e = AttributeError ∧ f = None.
Proof. destruct f; simpl; [done|]. by intros [= <-]. Qed.

(** A comprehension over a field raises exactly when some record has
    [None] there. *)
Lemma field_search_raises (field : Movie → option string) (movies : list Movie)
    (q : string) :
  (∃ m, m ∈ movies ∧ field m = None) →
  comprehension (λ m, t ← field_lower (field m); Ok (str_contains q t)) movies
  = Raise AttributeError.
Proof.
  intros (m & Hin & Hm). induction movies as [|m' l IH].
  - by apply elem_of_nil in Hin.
  - cbn [comprehension]. destruct (field m') as [t|] eqn:Hm'; simpl; [|done].
    apply elem_of_cons in Hin as [->|Hin]; [congruence|].
    by rewrite IH.
Qed.

Lemma all_strings_or_none (field : Movie → option string) (movies : list Movie) :
  Forall (λ m, is_Some (field m)) movies ∨ ∃ m, m ∈ movies ∧ field m = None.
Proof.
  induction movies as [|m l [IH|(m' & Hin & Hm')]].
  - left. constructor.
  - destruct (field m) as [t|] eqn:Hm.
    + left. constructor; [by rewrite Hm|done].
    + right. exists m. split; [apply list_elem_of_here|done].
  - right. exists m'. split; [by apply list_elem_of_further|done].
Qed.

(** X1: for a query that is [None], an [int], a [float] or a [str], the
    Title and Director strategies raise [AttributeError], and nothing
    else, in exactly two cases: the query is not a [str] (whatever the
    list, empty included), or the query is a [str] and some record of
    the list has [None] in the field searched. *)
Theorem X1_field_search_raises_exactly (movies : list Movie) (query : pyval) :
  (TitleSearchStrategy_search movies query = Raise AttributeError
   ↔ (∀ s, query ≠ PStr s) ∨ ∃ m, m ∈ movies ∧ title m = None)
  ∧ (DirectorSearchStrategy_search movies query = Raise AttributeError
     ↔ (∀ s, query ≠ PStr s) ∨ ∃ m, m ∈ movies ∧ director m = None)
  ∧ (∀ e, TitleSearchStrategy_search movies query = Raise e → e = AttributeError)
  ∧ (∀ e, DirectorSearchStrategy_search movies query = Raise e → e = AttributeError).
Proof.
  assert (Hgen : ∀ field : Movie → option string,
    let run := (q ← py_lower query;
                comprehension (λ m, t ← field_lower (field m); Ok (str_contains q t))
                  movies) in
    (run = Raise AttributeError
     ↔ (∀ s, query ≠ PStr s) ∨ ∃ m, m ∈ movies ∧ field m = None)
    ∧ (∀ e, run = Raise e → e = AttributeError)).
  { intros field. destruct query as [|z|m e|s]; simpl;
      try (split; [split; [intros _; by left|done]|by intros e' [= <-]]).
    destruct (all_strings_or_none field movies) as [Hall|Hnone].
    - rewrite (field_search_filter field movies s Hall).
      split; [|done]. split; [done|].
      intros [Hq|(m & Hin & Hm)]; [by destruct (Hq s)|].
      rewrite Forall_forall in Hall. destruct (Hall m Hin) as [t Ht]. congruence.
    - rewrite (field_search_raises field movies (lower s) Hnone).
      split; [|by intros e [= <-]]. split; [by right|done]. }
  destruct (Hgen title) as [Ht1 Ht2]. destruct (Hgen director) as [Hd1 Hd2].
  done.
Qed.

Lemma field_search_typed_filter (field : Movie → option string) (movies : list Movie)
    (q : string) :
  Forall (λ m, is_Some (field m)) movies →
  Forall (λ m, is_Some (field m)) (filter (λ m, field_matches q (field m)) movies).
Proof.
  intros Hall. apply Forall_forall. intros m Hm.
  apply list_elem_of_filter in Hm as [_ Hm]. rewrite Forall_forall in Hall. auto.
Qed.

(** X2: an empty query matches every record: on records whose title
    (director) is a string, the Title (Director) strategy with the empty
    string returns the whole list. *)
Theorem X2_empty_query_returns_all (movies : list Movie) :
  (Forall (λ m, is_Some (title m)) movies →
   TitleSearchStrategy_search movies (PStr "") = Ok movies)
  ∧ (Forall (λ m, is_Some (director m)) movies →
     DirectorSearchStrategy_search movies (PStr "") = Ok movies).
Proof.
  assert (Hgen : ∀ field : Movie → option string,
    Forall (λ m, is_Some (field m)) movies →
    filter (λ m, field_matches "" (field m)) movies = movies).
  { intros field Hall. induction Hall as [|m l [t Ht] _ IH]; [done|].
    rewrite filter_cons, IH, decide_True; [done|].
    exists t. split; [done|apply ci_substring_empty]. }
  split; intros Hall.
  - rewrite title_search_str, (field_search_filter title) by done.
    by rewrite (Hgen title).
  - rewrite director_search_str, (field_search_filter director) by done.
    by rewrite (Hgen director).
Qed.

Lemma X2_empty_query_returns_all_witness :
  Forall (λ m, is_Some (title m)) [inception; interstellar]
  ∧ TitleSearchStrategy_search [inception; interstellar] (PStr "")
    = Ok [inception; interstellar].
Proof.
  assert (Ht : Forall (λ m, is_Some (title m)) [inception; interstellar]).
  { repeat constructor; simpl; eauto. }
  split; [exact Ht|].
  exact (proj1 (X2_empty_query_returns_all [inception; interstellar]) Ht).
Defined.

(** X3: a search can be refined inside its own results.  When the query
    [q] occurs in [q'] (case ignored), searching [q'] in the records
    found for [q] gives what searching [q'] in the whole list gives, a
    sublist of the records found for [q]; in particular a search
    repeated on its own result returns it unchanged. *)
Theorem X3_search_within_results (movies : list Movie) (q q' : string) :
  ci_substring q q' →
  (Forall (λ m, is_Some (title m)) movies →
   ∃ r r', TitleSearchStrategy_search movies (PStr q) = Ok r
           ∧ TitleSearchStrategy_search movies (PStr q') = Ok r'
           ∧ TitleSearchStrategy_search r (PStr q') = Ok r'
           ∧ TitleSearchStrategy_search r (PStr q) = Ok r
           ∧ r' `sublist_of` r ∧ r `sublist_of` movies)
  ∧ (Forall (λ m, is_Some (director m)) movies →
     ∃ r r', DirectorSearchStrategy_search movies (PStr q) = Ok r
             ∧ DirectorSearchStrategy_search movies (PStr q') = Ok r'
             ∧ DirectorSearchStrategy_search r (PStr q') = Ok r'
             ∧ DirectorSearchStrategy_search r (PStr q) = Ok r
             ∧ r' `sublist_of` r ∧ r `sublist_of` movies).
Proof.
  intros Hq.
  assert (Hgen : ∀ field : Movie → option string,
    filter (λ m, field_matches q' (field m)) (filter (λ m, field_matches q (field m)) movies)
    = filter (λ m, field_matches q' (field m)) movies
    ∧ filter (λ m, field_matches q (field m)) (filter (λ m, field_matches q (field m)) movies)
      = filter (λ m, field_matches q (field m)) movies).
  { intros field. rewrite !list_filter_filter. split; apply list_filter_iff.
    - intros m. split; [by intros [? _]|]. intros Hm. split; [done|].
      destruct Hm as (t & Ht & Hsub). exists t. split; [done|].
      by eapply ci_substring_trans.
    - intros m. tauto. }
  split; intros Hall.
  - destruct (Hgen title) as [H1 H2].
    exists (filter (λ m, field_matches q (title m)) movies),
           (filter (λ m, field_matches q' (title m)) movies).
    rewrite !title_search_str, !(field_search_filter title)
      by auto using field_search_typed_filter.
    rewrite H1, H2. repeat split; [|apply sublist_filter].
    rewrite <- H1. apply sublist_filter.
  - destruct (Hgen director) as [H1 H2].
    exists (filter (λ m, field_matches q (director m)) movies),
           (filter (λ m, field_matches q' (director m)) movies).
    rewrite !director_search_str, !(field_search_filter director)
      by auto using field_search_typed_filter.
    rewrite H1, H2. repeat split; [|apply sublist_filter].
    rewrite <- H1. apply sublist_filter.
Qed.

Lemma X3_search_within_results_witness :
  ci_substring "INTER" "interstellar"
  ∧ Forall (λ m, is_Some (title m)) [inception; interstellar]
  ∧ ∃ r r', TitleSearchStrategy_search [inception; interstellar] (PStr "INTER") = Ok r
            ∧ TitleSearchStrategy_search [inception; interstellar] (PStr "interstellar") = Ok r'
            ∧ TitleSearchStrategy_search r (PStr "interstellar") = Ok r'
            ∧ TitleSearchStrategy_search r (PStr "INTER") = Ok r
            ∧ r' `sublist_of` r ∧ r `sublist_of` [inception; interstellar].
Proof.
  assert (Hq : ci_substring "INTER" "interstellar").
  { exists "", "stellar". reflexivity. }
  assert (Ht : Forall (λ m, is_Some (title m)) [inception; interstellar]).
  { repeat constructor; simpl; eauto. }
  split; [exact Hq|]. split; [exact Ht|].
  exact (proj1 (X3_search_within_results [inception; interstellar] _ _ Hq) Ht).
Defined.
(** ** The cache, further *)

Lemma length_removelast {A} (l : list A) : length (removelast l) = pred (length l).
Proof.
  induction l as [|x l IH]; [done|]. simpl. destruct l; [done|].
  simpl in *. by rewrite IH.
Qed.

Lemma cache_get_length (k : SearchCriteria * pyval)
    (es : list ((SearchCriteria * pyval) * list Movie)) found rest :
  cache_get k es = Some (found, rest) → length es = S (length rest).
Proof.
  revert found rest. induction es as [|e es IH]; intros found rest; simpl; [done|].
  destruct (key_eq k e.1).
  - by intros [= <- <-].
  - destruct (cache_get k es) as [[found' rest']|]; [|done].
    intros [= <- <-]. simpl. by rewrite (IH _ _ eq_refl).
Qed.

Lemma key_eq_str_l (c : SearchCriteria) (q : string) (k : SearchCriteria * pyval) :
  key_eq (c, PStr q) k = true → k = (c, PStr q).
Proof.
  destruct k as [c' [|z|m e|q']]; unfold key_eq; simpl;
    rewrite andb_true_iff, ?bool_decide_eq_true; intros [? ?]; try done.
  by subst.
Qed.

Lemma key_eq_str_r (c : SearchCriteria) (q : string) (k : SearchCriteria * pyval) :
  key_eq k (c, PStr q) = true → k = (c, PStr q).
Proof.
  destruct k as [c' [|z|m e|q']]; unfold key_eq; simpl;
    rewrite andb_true_iff, ?bool_decide_eq_true; intros [? ?]; try done.
  by subst.
Qed.

(** X4: the cache of [search] never grows past 128 entries: a search on
    a cache of at most 128 entries leaves at most 128; and on a full
    cache a miss that returns puts its entry first, keeps the others in
    their order and drops the last one, the least recently used. *)
Theorem X4_cache_bounded (fs : gmap string file) (criteria : SearchCriteria)
    (query : pyval) (s : State) :
  (length (entries (search_cache s)) ≤ 128)%nat →
  (length (entries (search_cache (search fs criteria query s).2)) ≤ 128)%nat
  ∧ (length (entries (search_cache s)) = 128%nat →
     cache_get (criteria, query) (entries (search_cache s)) = None →
     ∀ r, (search fs criteria query s).1 = Ok r →
          ∃ front oldest,
            entries (search_cache s) = (front ++ [oldest])%list
            ∧ entries (search_cache (search fs criteria query s).2)
              = (criteria, query, r) :: front).
Proof.
  intros Hlen. rewrite search_eq.
  destruct (cache_get (criteria, query) (entries (search_cache s)))
    as [[found rest]|] eqn:Hget.
  - split; [|done]. simpl. apply cache_get_length in Hget. lia.
  - pose proof (search_body_frame fs criteria query
                  (with_search_cache (λ c, {| entries := entries c; hits := hits c;
                                              misses := S (misses c) |}) s)) as Hfr.
    destruct (search_body fs criteria query _) as [[r|e] s2]; simpl in *.
    + rewrite Hfr. simpl. rewrite Hget. split.
      * case_bool_decide as Hfull; simpl; [|unfold maxsize in *; lia].
        rewrite length_removelast. unfold maxsize in *. lia.
      * intros Hfull _ r' [= <-]. rewrite bool_decide_eq_true_2 by (unfold maxsize; lia).
        destruct (entries (search_cache s)) as [|e0 es] eqn:Hes using rev_ind;
          [done|].
        exists es, e0. by rewrite removelast_last.
    + rewrite Hfr. simpl. split; [done|]. by intros _ _ r.
Qed.

Lemma X4_cache_bounded_witness :
  length (entries (search_cache full_cache)) = 128%nat
  ∧ (search two_movies_fs YEAR (PInt 127) full_cache).1 = Ok []
  ∧ hits (search_cache (search two_movies_fs YEAR (PInt 127) full_cache).2) = 1%nat
  ∧ let s' := (search two_movies_fs TITLE (PStr "inc") full_cache).2 in
    length (entries (search_cache s')) = 128%nat
    ∧ head (entries (search_cache s')) = Some (TITLE, PStr "inc", [inception])
    ∧ cache_get (YEAR, PInt 127) (entries (search_cache s')) = None
    ∧ is_Some (cache_get (YEAR, PInt 126) (entries (search_cache s'))).
Proof.
  assert (Hlen : length (entries (search_cache full_cache)) = 128%nat)
    by (vm_compute; reflexivity).
  split; [exact Hlen|]. split; [vm_compute; reflexivity|].
  split; [vm_compute; reflexivity|].
  assert (Hle : (length (entries (search_cache full_cache)) ≤ 128)%nat)
    by (rewrite Hlen; lia).
  destruct (X4_cache_bounded two_movies_fs TITLE (PStr "inc") full_cache Hle)
    as [_ Hfull].
  destruct (Hfull Hlen ltac:(vm_compute; reflexivity) [inception]
              ltac:(vm_compute; reflexivity)) as (front & oldest & Hes & Hnew).
  assert (Hfront : front = removelast (entries (search_cache full_cache))).
  { by rewrite Hes, removelast_last. }
  intros s'. subst s'. rewrite Hnew, Hfront.
  split; [vm_compute; reflexivity|]. split; [reflexivity|].
  split; [vm_compute; reflexivity|]. vm_compute. by eexists.
Defined.

(** X5: an exception is never cached.  A search that raises leaves the
    entries and the hit count as they were and counts one miss, so the
    same search is computed again next time: once the data source can
    answer, it returns what the undecorated body returns. *)
Theorem X5_exceptions_not_cached (fs : gmap string file) (criteria : SearchCriteria)
    (query : pyval) (s s' : State) (e : exn) :
  search fs criteria query s = (Raise e, s') →
  entries (search_cache s') = entries (search_cache s)
  ∧ hits (search_cache s') = hits (search_cache s)
  ∧ misses (search_cache s') = S (misses (search_cache s))
  ∧ ∀ fs', (search fs' criteria query s').1
           = (search_body fs' criteria query
                (with_search_cache (λ c, {| entries := entries c; hits := hits c;
                                            misses := S (misses c) |}) s')).1.
Proof.
  rewrite search_eq.
  destruct (cache_get (criteria, query) (entries (search_cache s)))
    as [[found rest]|] eqn:Hget; [done|].
  pose proof (search_body_frame fs criteria query
                (with_search_cache (λ c, {| entries := entries c; hits := hits c;
                                            misses := S (misses c) |}) s)) as Hfr.
  destruct (search_body fs criteria query _) as [[r|e'] s2]; [done|].
  intros [= <- <-]. simpl in Hfr. rewrite Hfr. simpl.
  split; [done|]. split; [done|]. split; [done|].
  intros fs'. rewrite search_eq, Hfr. simpl. rewrite Hget.
  by destruct (search_body fs' criteria query _) as [[r|e3] s3].
Qed.

Lemma X5_exceptions_not_cached_witness :
  search ∅ TITLE (PStr "inception") fresh
  = (Raise FileNotFoundError, (search ∅ TITLE (PStr "inception") fresh).2)
  ∧ entries (search_cache (search ∅ TITLE (PStr "inception") fresh).2) = []
  ∧ misses (search_cache (search ∅ TITLE (PStr "inception") fresh).2) = 1%nat.
Proof.
  assert (H : search ∅ TITLE (PStr "inception") fresh
    = (Raise FileNotFoundError, (search ∅ TITLE (PStr "inception") fresh).2))
    by reflexivity.
  destruct (X5_exceptions_not_cached _ _ _ _ _ _ H) as (He & _ & Hm & _).
  split; [exact H|]. split; [exact He|exact Hm].
Defined.

(** X6: the answer used last is not the one evicted.  After a search
    with a string argument has returned, one more search of any kind,
    returning or raising, leaves that answer in the cache: asked again,
    it is returned whatever the files hold. *)
Theorem X6_last_answer_survives (fs fs' : gmap string file)
    (criteria criteria' : SearchCriteria) (q : string) (query' : pyval)
    (s s1 : State) (r : list Movie) :
  search fs criteria (PStr q) s = (Ok r, s1) →
  ∀ fs'', (search fs'' criteria (PStr q) (search fs' criteria' query' s1).2).1 = Ok r.
Proof.
  intros Hcall fs''.
  destruct (search_caches _ _ _ _ _ _ Hcall) as (key & rest & He & Hk).
  apply key_eq_str_l in Hk as ->.
  assert (Hthen : ∃ front back,
    entries (search_cache (search fs' criteria' query' s1).2)
    = (front ++ (criteria, PStr q, r) :: back)%list
    ∧ Forall (λ e, key_eq (criteria, PStr q) e.1 = false) front).
  { rewrite search_eq, He. cbn [cache_get fst].
    destruct (key_eq (criteria', query') (criteria, PStr q)) eqn:Hsame.
    - exists [], rest. by split.
    - destruct (cache_get (criteria', query') rest) as [[found rest']|] eqn:Hget.
      + exists [found], rest'. split; [done|]. constructor; [|done].
        destruct (key_eq (criteria, PStr q) found.1) eqn:Hf; [|done].
        apply key_eq_str_l in Hf. apply cache_get_Some in Hget as [Hget _].
        rewrite Hf in Hget. congruence.
      + pose proof (search_body_frame fs' criteria' query'
                      (with_search_cache (λ c, {| entries := entries c; hits := hits c;
                                                  misses := S (misses c) |}) s1)) as Hfr.
        assert (Hne : key_eq (criteria, PStr q) (criteria', query') = false).
        { destruct (key_eq (criteria, PStr q) (criteria', query')) eqn:Hf; [|done].
          apply key_eq_str_l in Hf. injection Hf as -> ->.
          by rewrite key_eq_refl in Hsame. }
        destruct (search_body fs' criteria' query' _) as [[r'|e] s2]; simpl in *.
        * rewrite Hfr. simpl. rewrite He. cbn [cache_get fst]. rewrite Hsame.
          rewrite Hget. case_bool_decide as Hfull.
          -- destruct rest as [|e2 rest2]; [simpl in Hfull; unfold maxsize in Hfull; lia|].
             exists [(criteria', query', r')], (removelast (e2 :: rest2)).
             split; [done|]. by constructor.
          -- exists [(criteria', query', r')], rest. split; [done|]. by constructor.
        * rewrite Hfr. simpl. rewrite He. exists [], rest. by split. }
  destruct Hthen as (front & back & Hes & Hfront).
  rewrite search_eq, Hes.
  assert (cache_get (criteria, PStr q) (front ++ (criteria, PStr q, r) :: back)%list
          = Some ((criteria, PStr q, r), (front ++ back)%list)) as ->; [|done].
  clear Hes. induction Hfront as [|e front He' _ IH]; simpl.
  - by rewrite key_eq_refl.
  - by rewrite He', IH.
Qed.

Lemma X6_last_answer_survives_witness :
  search two_movies_fs DIRECTOR (PStr "nolan") fresh
  = (Ok [inception; interstellar],
     (search two_movies_fs DIRECTOR (PStr "nolan") fresh).2)
  ∧ (search ∅ DIRECTOR (PStr "nolan")
       (search ∅ YEAR (PInt 2010)
          (search two_movies_fs DIRECTOR (PStr "nolan") fresh).2).2).1
    = Ok [inception; interstellar].
Proof.
  assert (H : search two_movies_fs DIRECTOR (PStr "nolan") fresh
    = (Ok [inception; interstellar],
       (search two_movies_fs DIRECTOR (PStr "nolan") fresh).2)) by reflexivity.
  split; [exact H|].
  exact (X6_last_answer_survives two_movies_fs ∅ DIRECTOR YEAR "nolan" (PInt 2010)
           fresh _ _ H ∅).
Defined.

(** A stale data source with readable rows: what [movies] returns. *)
Lemma movies_reloads (fs : gmap string file) (s : State) (f : file)
    (ms : list Movie) :
  fs !! filename (data_source s) = Some f →
  stale (data_source s) (st_mtime f) →
  load_rows fs (filename (data_source s)) = Ok ms →
  Forall (λ m, is_Some (director m)) ms →
  movies fs s
  = (Ok (Some {| list_id := next_id s; items := ms |}),
     with_data_source (set_last_modified (st_mtime f)) (load_installed ms s)).
Proof.
  intros Hfs Hst Hrows Hdir. rewrite movies_eq. unfold getmtime. rewrite Hfs.
  rewrite movies_locked_eq, decide_True by done.
  by rewrite (_load_movies_ok fs s ms).
Qed.

(** X7: the first search on a manager just built reads the file once
    and answers from its rows: with the file present and its rows read
    and indexed, the result is the strategy of the kind applied to the
    rows (its list or its exception), one load is logged, the file's
    time is recorded, one miss is counted, and the answer is cached
    exactly when it is a list. *)
Theorem X7_first_search (fs : gmap string file) (name : string) (f : file)
    (ms : list Movie) (criteria : SearchCriteria) (query : pyval) :
  fs !! name = Some f →
  load_rows fs name = Ok ms →
  Forall (λ m, is_Some (director m)) ms →
  let out := search fs criteria query (MovieManager_init name) in
  out.1 = _search_strategies criteria ms query
  ∧ log out.2 = [LogInfo ("Loading movies from " +:+ name)]
  ∧ _movies (data_source out.2) = Some {| list_id := 0; items := ms |}
  ∧ _last_modified (data_source out.2) = st_mtime f
  ∧ hits (search_cache out.2) = 0%nat
  ∧ misses (search_cache out.2) = 1%nat
  ∧ entries (search_cache out.2)
    = match _search_strategies criteria ms query with
      | Ok r => [(criteria, query, r)]
      | Raise _ => []
      end.
Proof.
  intros Hfs Hrows Hdir out. subst out. rewrite search_eq. simpl.
  unfold search_body. unfold_M.
  pose proof (movies_reloads fs (with_search_cache
    (λ c, {| entries := entries c; hits := hits c; misses := S (misses c) |})
    (MovieManager_init name)) f ms) as Hmovies.
  rewrite Hmovies by (by left || done). simpl.
  by destruct (_search_strategies criteria ms query).
Qed.

Lemma X7_first_search_witness :
  (search two_movies_fs DIRECTOR (PStr "nolan") fresh).1 = Ok [inception; interstellar]
  ∧ entries (search_cache (search two_movies_fs DIRECTOR (PStr "nolan") fresh).2)
    = [(DIRECTOR, PStr "nolan", [inception; interstellar])].
Proof.
  assert (Hfs : two_movies_fs !! "movies.csv" = Some two_movies_file) by reflexivity.
  assert (Hrows : load_rows two_movies_fs "movies.csv" = Ok [inception; interstellar])
    by reflexivity.
  assert (Hdir : Forall (λ m, is_Some (director m)) [inception; interstellar])
    by (repeat constructor; by eexists).
  destruct (X7_first_search two_movies_fs "movies.csv" two_movies_file
              [inception; interstellar] DIRECTOR (PStr "nolan") Hfs Hrows Hdir)
    as (Hres & _ & _ & _ & _ & _ & Hentries).
  split; [exact Hres|exact Hentries].
Defined.
(** ** Loading, further *)

Lemma zip_take_r {A B} (h : list A) (r : list B) :
  zip h (take (length h) r) = zip h r.
Proof.
  revert r. induction h as [|x h IH]; intros [|y r]; simpl; try done.
  by rewrite IH.
Qed.

(** The cells a row has beyond the header play no part. *)
Lemma dict_row_take (header row : list string) :
  dict_row header (take (length header) row) = dict_row header row.
Proof.
  unfold dict_row. rewrite zip_take_r. f_equal.
  rewrite length_take. destruct (decide (length header ≤ length row)%nat).
  - rewrite Nat.min_l by done. by rewrite drop_all, drop_ge.
  - by rewrite Nat.min_r by lia.
Qed.

Lemma filter_nonblank_take (header : list string) (rows : list (list string)) :
  header ≠ [] →
  filter (λ row, row ≠ []) (take (length header) <$> filter (λ row, row ≠ []) rows)
  = take (length header) <$> filter (λ row, row ≠ []) rows.
Proof.
  intros Hh. induction rows as [|r rows IH]; [done|].
  rewrite filter_cons. case_decide as Hr; [|done].
  rewrite fmap_cons, filter_cons, IH. rewrite decide_True; [done|].
  destruct header, r; done.
Qed.

(** X8: blank lines and surplus cells change nothing.  Under a non-empty
    header, a file and the same file with its blank lines removed and
    each row cut to the length of the header load to the same result,
    records or exception. *)
Theorem X8_blank_lines_and_surplus_cells (fs fs' : gmap string file) (name : string)
    (f f' : file) (header : list string) (rows : list (list string)) :
  header ≠ [] →
  fs !! name = Some f →
  content f = Ok (header :: rows) →
  fs' !! name = Some f' →
  content f' = Ok (header :: (take (length header) <$> filter (λ row, row ≠ []) rows)) →
  load_rows fs name = load_rows fs' name.
Proof.
  intros Hh Hfs Hc Hfs' Hc'. unfold load_rows, open_csv.
  rewrite Hfs, Hfs', Hc, Hc'. simpl. f_equal.
  rewrite filter_nonblank_take by done.
  rewrite <- list_fmap_compose. apply list_fmap_ext.
  intros i r _. simpl. by rewrite dict_row_take.
Qed.

Lemma X8_blank_lines_and_surplus_cells_witness :
  let padded := {| st_mtime := 100;
                   content := Ok [ ["title"; "release_year"; "director"]; [];
                                   ["Inception"; "2010"; "Nolan"; "PG-13"]; [];
                                   ["Interstellar"; "2014"; "Nolan"] ] |} in
  load_rows {[ "movies.csv" := padded ]} "movies.csv"
  = load_rows two_movies_fs "movies.csv".
Proof.
  intros padded.
  apply (X8_blank_lines_and_surplus_cells {[ "movies.csv" := padded ]} two_movies_fs
           "movies.csv" padded two_movies_file
           ["title"; "release_year"; "director"]
           [ []; ["Inception"; "2010"; "Nolan"; "PG-13"]; [];
             ["Interstellar"; "2014"; "Nolan"] ]);
    (discriminate || reflexivity).
Defined.

(** X9: a file without data rows loads as an empty list, whatever its
    header.  When the file is empty, or holds a header followed by blank
    lines only, the load succeeds with no record and an index left
    empty (not even the entries of the two fields), and each strategy
    returns the empty list for a string or an integer. *)
Theorem X9_no_rows_loads_empty (fs : gmap string file) (s : State) (f : file) :
  fs !! filename (data_source s) = Some f →
  content f = Ok []
  ∨ (∃ header rows, content f = Ok (header :: rows) ∧ Forall (λ row, row = []) rows) →
  _load_movies fs s = (Ok (), load_installed [] s)
  ∧ _movies (data_source (load_installed [] s))
    = Some {| list_id := next_id s; items := [] |}
  ∧ _index (data_source (load_installed [] s)) = ∅
  ∧ (∀ criteria q, _search_strategies criteria [] (PStr q) = Ok [])
  ∧ (∀ y, _search_strategies YEAR [] (PInt y) = Ok []).
Proof.
  intros Hfs Hc.
  assert (Hrows : load_rows fs (filename (data_source s)) = Ok []).
  { unfold load_rows, open_csv. rewrite Hfs.
    destruct Hc as [->|(header & rows & -> & Hblank)]; [done|]. simpl.
    assert (filter (λ row, row ≠ []) rows = []) as ->; [|done].
    induction Hblank as [|r rows -> _ IH]; [done|].
    by rewrite filter_cons, IH, decide_False by auto. }
  split; [by apply _load_movies_ok|]. split; [done|]. split; [done|].
  split; [by intros []|done].
Qed.

Lemma X9_no_rows_loads_empty_witness :
  let header_only := {| st_mtime := 100; content := Ok [ ["name"; "year"]; []; [] ] |} in
  ({[ "movies.csv" := header_only ]} : gmap string file) !! filename (data_source fresh)
  = Some header_only
  ∧ _load_movies {[ "movies.csv" := header_only ]} fresh
    = (Ok (), load_installed [] fresh).
Proof.
  intros header_only.
  assert (Hfs : ({[ "movies.csv" := header_only ]} : gmap string file)
                  !! filename (data_source fresh) = Some header_only) by reflexivity.
  split; [exact Hfs|].
  refine (proj1 (X9_no_rows_loads_empty _ fresh header_only Hfs _)).
  right. exists ["name"; "year"], [ []; [] ]. split; [reflexivity|].
  repeat constructor.
Defined.

(** X10: a failed call is tried again.  When a call of [movies] raises
    for a file newer than the last observed time, the time is not
    recorded: the next call on a file at least as new, whose rows are
    read and indexed, reloads and returns the new list. *)
Theorem X10_failed_call_is_retried (fs fs' : gmap string file) (s s' : State)
    (f f' : file) (e : exn) (ms : list Movie) :
  fs !! filename (data_source s) = Some f →
  _last_modified (data_source s) < st_mtime f →
  movies fs s = (Raise e, s') →
  fs' !! filename (data_source s) = Some f' →
  st_mtime f ≤ st_mtime f' →
  load_rows fs' (filename (data_source s)) = Ok ms →
  Forall (λ m, is_Some (director m)) ms →
  _last_modified (data_source s') = _last_modified (data_source s)
  ∧ movies fs' s'
    = (Ok (Some {| list_id := next_id s'; items := ms |}),
       with_data_source (set_last_modified (st_mtime f')) (load_installed ms s')).
Proof.
  intros Hfs Hnew Hcall Hfs' Hle Hrows Hdir.
  assert (Hframe : _last_modified (data_source s') = _last_modified (data_source s)
                   ∧ filename (data_source s') = filename (data_source s)).
  { revert Hcall. rewrite movies_eq. unfold getmtime. rewrite Hfs.
    rewrite movies_locked_eq.
    destruct (_load_movies_frame fs s) as (_ & Hname & Hlast).
    case_decide; [|done].
    destruct (_load_movies fs s) as [[[]|e'] s1]; [done|].
    by intros [= <- <-]. }
  destruct Hframe as [Hlast Hname]. split; [done|].
  apply (movies_reloads fs' s' f' ms); rewrite ?Hname; try done.
  right. rewrite Hlast. lia.
Qed.

Lemma X10_failed_call_is_retried_witness :
  bad_year_fs !! filename (data_source loaded) = Some bad_year_file
  ∧ _last_modified (data_source loaded) < st_mtime bad_year_file
  ∧ (movies bad_year_fs loaded).1 = Raise ValueError
  ∧ (movies {[ "movies.csv" := one_movie_file ]} (movies bad_year_fs loaded).2).1
    = Ok (Some {| list_id := next_id (movies bad_year_fs loaded).2; items := [dunkirk] |}).
Proof.
  assert (Hcall : movies bad_year_fs loaded
                  = (Raise ValueError, (movies bad_year_fs loaded).2)) by reflexivity.
  assert (Hnew : _last_modified (data_source loaded) < st_mtime bad_year_file)
    by (vm_compute; reflexivity).
  split; [reflexivity|]. split; [exact Hnew|]. split; [reflexivity|].
  refine (f_equal fst (proj2 (X10_failed_call_is_retried bad_year_fs
            {[ "movies.csv" := one_movie_file ]} loaded _ bad_year_file one_movie_file
            ValueError [dunkirk] _ Hnew Hcall _ _ _ _))).
  - reflexivity.
  - reflexivity.
  - vm_compute. discriminate.
  - reflexivity.
  - repeat constructor; by eexists.
Defined.
(** ** Keys of the index *)

Section index_keys.
Implicit Types idx : gmap string (gmap string (list Movie)).

Lemma index_has_append idx field key movie field' key' :
  is_Some (default ∅ (index_append field key movie idx !! field') !! key')
  ↔ is_Some (default ∅ (idx !! field') !! key') ∨ (field = field' ∧ key = key').
Proof.
  unfold index_append. destruct (decide (field = field')) as [->|Hf].
  - rewrite lookup_insert_eq. simpl. destruct (decide (key = key')) as [->|Hk].
    + rewrite lookup_insert_eq. split; [auto|by eexists].
    + rewrite lookup_insert_ne by done. split; [auto|]. by intros [?|[_ ?]].
  - rewrite lookup_insert_ne by done. split; [auto|]. by intros [?|[? _]].
Qed.

Lemma index_has_touch idx field field' key :
  default ∅ (index_touch field idx !! field') !! key = default ∅ (idx !! field') !! key.
Proof.
  unfold index_touch. destruct (idx !! field) eqn:Hf; [done|].
  destruct (decide (field = field')) as [->|Hne].
  - by rewrite lookup_insert_eq, Hf.
  - by rewrite lookup_insert_ne.
Qed.

Lemma index_has_years movies idx field key :
  is_Some (default ∅ (index_years movies idx !! field) !! key)
  ↔ is_Some (default ∅ (idx !! field) !! key)
    ∨ (field = "year" ∧ Exists (λ m, pretty (release_year m) = key) movies).
Proof.
  revert idx. induction movies as [|m l IH]; intros idx; simpl.
  - split; [auto|]. intros [?|[_ H]]; [done|]. by apply Exists_nil in H.
  - rewrite IH, index_has_append, Exists_cons. split.
    + intros [[?|[<- ?]]|[? ?]]; auto.
    + intros [?|[-> [?|?]]]; auto.
Qed.

Lemma index_has_directors movies idx field key :
  (index_directors movies idx).1 = Ok () →
  is_Some (default ∅ ((index_directors movies idx).2 !! field) !! key)
  ↔ is_Some (default ∅ (idx !! field) !! key)
    ∨ (field = "director" ∧ Exists (λ m, lower <$> director m = Some key) movies).
Proof.
  revert idx. induction movies as [|m l IH]; intros idx; simpl.
  - intros _. split; [auto|]. intros [?|[_ H]]; [done|]. by apply Exists_nil in H.
  - destruct (director m) as [d|] eqn:Hd; simpl; [|done].
    intros Hok. rewrite (IH _ Hok), index_has_append, index_has_touch, Exists_cons.
    rewrite Hd. simpl. split.
    + intros [[?|[<- <-]]|[? ?]]; auto.
    + intros [?|[-> [[= <-]|?]]]; auto.
Qed.

Lemma index_field_append idx field key movie field' :
  is_Some (index_append field key movie idx !! field') →
  is_Some (idx !! field') ∨ field' = field.
Proof.
  unfold index_append. destruct (decide (field = field')) as [->|Hf]; [auto|].
  rewrite lookup_insert_ne by done. auto.
Qed.

Lemma index_field_touch idx field field' :
  is_Some (index_touch field idx !! field') →
  is_Some (idx !! field') ∨ field' = field.
Proof.
  unfold index_touch. destruct (idx !! field) eqn:Hf; [auto|].
  destruct (decide (field = field')) as [->|Hne]; [auto|].
  rewrite lookup_insert_ne by done. auto.
Qed.

Lemma index_field_years movies idx field :
  is_Some (index_years movies idx !! field) →
  is_Some (idx !! field) ∨ field = "year".
Proof.
  revert idx. induction movies as [|m l IH]; intros idx; simpl; [auto|].
  intros H. apply IH in H as [H|?]; [|auto]. by apply index_field_append in H.
Qed.

Lemma index_field_directors movies idx field :
  is_Some ((index_directors movies idx).2 !! field) →
  is_Some (idx !! field) ∨ field = "director".
Proof.
  revert idx. induction movies as [|m l IH]; intros idx; simpl; [auto|].
  destruct (field_lower (director m)); simpl.
  - intros H. apply IH in H as [H|?]; [|auto].
    apply index_field_append in H as [H|?]; [|auto].
    by apply index_field_touch in H.
  - apply index_field_touch.
Qed.

End index_keys.

Lemma Exists_filter_nonempty {A} (P : A → Prop) `{!∀ x, Decision (P x)} (l : list A) :
  Exists P l → filter P l ≠ [].
Proof.
  intros Hex Hnil. apply Exists_exists in Hex as (x & Hx & HP).
  assert (x ∈ filter P l) as Hin by (by apply list_elem_of_filter).
  rewrite Hnil in Hin. by apply elem_of_nil in Hin.
Qed.

(** ** The years of a loaded list *)

Lemma read_movies_years (rows : list (gmap string (option string))) (ms : list Movie) :
  read_movies rows = Ok ms →
  Forall (λ m, (String.length (pretty (Z.abs (release_year m))) ≤ 4300)%nat) ms.
Proof.
  revert ms. induction rows as [|row rows IH]; intros ms; simpl.
  - intros [= <-]. constructor.
  - unfold make_movie.
    destruct (subscript row "title") as [t|]; simpl; [|done].
    destruct (subscript row "release_year") as [[cell|]|]; simpl; [|done..].
    destruct (int_of_str cell) as [y|] eqn:Hy; simpl; [|done].
    destruct (subscript row "director") as [d|]; simpl; [|done].
    destruct (read_movies rows) as [tl|]; simpl; [|done].
    intros [= <-]. constructor; [|by apply IH].
    simpl. by apply (int_of_str_bound cell).
Qed.

Lemma load_rows_years (fs : gmap string file) (name : string) (ms : list Movie) :
  load_rows fs name = Ok ms →
  Forall (λ m, (String.length (pretty (Z.abs (release_year m))) ≤ 4300)%nat) ms.
Proof.
  unfold load_rows. destruct (open_csv fs name) as [lines|]; simpl; [|done].
  apply read_movies_years.
Qed.

(** X11: what the index holds after a load.  After a load that returns,
    the index has no field but the two of [_build_index], no key without
    a record and no empty list: each year key is [str] of the year of
    a record, which [int] reads back, and holds the records of that year;
    each director key is a director in lower case and holds the records
    with that director, whatever its case. *)
Theorem X11_index_keys (fs : gmap string file) (s s' : State) :
  _load_movies fs s = (Ok (), s') →
  ∃ snap, _movies (data_source s') = Some snap ∧
    ∀ field inner key l,
      _index (data_source s') !! field = Some inner →
      inner !! key = Some l →
      l ≠ []
      ∧ ((field = "year"
          ∧ ∃ y, key = pretty y ∧ int_of_str key = Ok y
                 ∧ l = filter (λ m, release_year m = y) (items snap))
         ∨ (field = "director" ∧ lower key = key
            ∧ l = filter (λ m, lower <$> director m = Some key) (items snap))).
Proof.
  rewrite _load_movies_eq.
  destruct (load_rows fs (filename (data_source s))) as [ms|e] eqn:Hrows; [|done].
  apply load_rows_years in Hrows. rewrite Forall_forall in Hrows.
  destruct ((build_index_of ms).1) as [[]|e] eqn:Hok; [|done].
  intros [= <-]. eexists. split; [done|]. simpl.
  intros field inner key l Hfield Hkey.
  destruct (build_index_groups ms Hok) as [Hyears Hdirectors].
  assert (Hget : index_get (build_index_of ms).2 field key = l).
  { unfold index_get. by rewrite Hfield; simpl; rewrite Hkey. }
  assert (Hhas : is_Some (default ∅ ((build_index_of ms).2 !! field) !! key)).
  { rewrite Hfield. simpl. by rewrite Hkey. }
  unfold build_index_of in Hhas, Hok.
  apply index_has_directors in Hhas; [|done].
  rewrite index_has_years in Hhas. rewrite lookup_empty in Hhas. simpl in Hhas.
  rewrite lookup_empty in Hhas.
  destruct Hhas as [[Hnone|[-> Hex]]|[-> Hex]].
  - by destruct Hnone.
  - apply Exists_exists in Hex as (m & Hm & <-).
    rewrite Hyears in Hget. subst l. split.
    + apply Exists_filter_nonempty, Exists_exists. by exists m.
    + left. split; [done|]. exists (release_year m).
      by rewrite int_of_str_pretty by auto.
  - rewrite Hdirectors in Hget. subst l. split.
    + by apply Exists_filter_nonempty.
    + right. split; [done|]. split; [|done].
      apply Exists_exists in Hex as (m & _ & Hm).
      destruct (director m) as [d|]; [|done]. injection Hm as <-.
      apply lower_idemp.
Qed.

Lemma X11_index_keys_witness :
  ∃ snap, _movies (data_source (_load_movies two_movies_fs fresh).2) = Some snap ∧
    ∀ field inner key l,
      _index (data_source (_load_movies two_movies_fs fresh).2) !! field = Some inner →
      inner !! key = Some l →
      l ≠ []
      ∧ ((field = "year"
          ∧ ∃ y, key = pretty y ∧ int_of_str key = Ok y
                 ∧ l = filter (λ m, release_year m = y) (items snap))
         ∨ (field = "director" ∧ lower key = key
            ∧ l = filter (λ m, lower <$> director m = Some key) (items snap))).
Proof.
  apply (X11_index_keys two_movies_fs fresh). reflexivity.
Defined.
(** ** The console *)

Lemma ConsoleUI_run_cons (fs : gmap string file) (line : string) (lines : list string)
    (s : State) :
  ConsoleUI_run fs (line :: lines) s =
    if decide (strip line = "4") then
      (Exited, menu ++ [Print "Exiting application."], s)%list
    else
      match request fs (strip line) with
      | None =>
          let '(ended, out, s') := ConsoleUI_run fs lines s in
          (ended, menu ++ Print "Invalid choice. Please try again." :: out, s')%list
      | Some (prompt, call) =>
          match lines with
          | [] => (InputEnded, menu ++ [Input prompt], s)%list
          | line :: lines =>
              let '(shown, s1) := report (call line s) in
              let '(ended, out, s') := ConsoleUI_run fs lines s1 in
              (ended, menu ++ Input prompt :: shown ++ out, s')%list
          end
      end.
Proof. done. Qed.

Lemma last_app_Some {A} (l1 l2 : list A) (x : A) :
  last l2 = Some x → last (l1 ++ l2) = Some x.
Proof. intros H. by rewrite last_app, H. Qed.

Lemma last_menu : last menu = Some choice_prompt.
Proof. done. Qed.

(** The output of a session is never empty. *)
Lemma ConsoleUI_run_output (fs : gmap string file) (lines : list string) (s : State) :
  ∃ x, last (ConsoleUI_run fs lines s).1.2 = Some x.
Proof.
  assert (Hgen : ∀ n lines s, (length lines ≤ n)%nat →
            ∃ x, last (ConsoleUI_run fs lines s).1.2 = Some x);
    [|by apply (Hgen (length lines))].
  clear lines s. intros n. induction n as [|n IH]; intros lines s Hn.
  { destruct lines; [|simpl in Hn; lia]. by eexists. }
  destruct lines as [|line rest]; [by eexists|].
  simpl in Hn. rewrite ConsoleUI_run_cons. case_decide as Hexit; [by eexists|].
  destruct (request fs (strip line)) as [[prompt call]|].
  - destruct rest as [|arg rest]; [cbn [fst snd]; rewrite last_snoc; by eexists|].
    destruct (report (call arg s)) as [shown s1].
    destruct (IH rest s1 ltac:(simpl in Hn; lia)) as [x Hx].
    destruct (ConsoleUI_run fs rest s1) as [[ended out] s']. cbn [fst snd] in *.
    exists x. apply (last_app_Some menu), (last_app_Some [_]), last_app_Some, Hx.
  - destruct (IH rest s ltac:(lia)) as [x Hx].
    destruct (ConsoleUI_run fs rest s) as [[ended out] s']. cbn [fst snd] in *.
    exists x. apply (last_app_Some menu), (last_app_Some [_]), Hx.
Qed.

Lemma request_prompt (fs : gmap string file) (choice prompt : string)
    (call : string → M (list Movie)) :
  request fs choice = Some (prompt, call) → Input prompt ≠ choice_prompt.
Proof.
  unfold request. repeat case_decide; intros [= <- _]; discriminate.
Qed.

(** A line read at the choice prompt that is [4] once stripped ends the
    session there. *)
Lemma ConsoleUI_run_then_exit (fs : gmap string file) (pre : list string) (s : State)
    (out : list output) (s' : State) (line : string) (rest : list string) :
  ConsoleUI_run fs pre s = (InputEnded, out, s') →
  last out = Some choice_prompt →
  strip line = "4" →
  ConsoleUI_run fs (pre ++ line :: rest) s
  = (Exited, (out ++ [Print "Exiting application."])%list, s').
Proof.
  intros Hrun Hlast Hline.
  assert (Hgen : ∀ n pre s out s', (length pre ≤ n)%nat →
            ConsoleUI_run fs pre s = (InputEnded, out, s') →
            last out = Some choice_prompt →
            ConsoleUI_run fs (pre ++ line :: rest) s
            = (Exited, (out ++ [Print "Exiting application."])%list, s'));
    [|by apply (Hgen (length pre))].
  clear pre s out s' Hrun Hlast. intros n.
  induction n as [|n IH]; intros pre s out s' Hn Hrun Hlast.
  { destruct pre; [|simpl in Hn; lia]. simpl in Hrun. injection Hrun as <- <-.
    simpl app. by rewrite ConsoleUI_run_cons, decide_True. }
  destruct pre as [|l pre].
  { simpl in Hrun. injection Hrun as <- <-.
    simpl app. by rewrite ConsoleUI_run_cons, decide_True. }
  simpl in Hn. rewrite <- app_comm_cons. rewrite ConsoleUI_run_cons in Hrun |- *.
  case_decide as Hexit; [done|].
  destruct (request fs (strip l)) as [[prompt call]|] eqn:Hreq.
  - destruct pre as [|arg pre].
    { injection Hrun as <- <-. exfalso. apply (request_prompt _ _ _ _ Hreq).
      simpl in Hlast. congruence. }
    rewrite <- app_comm_cons. destruct (report (call arg s)) as [shown s1].
    destruct (ConsoleUI_run_output fs pre s1) as [x Hx].
    destruct (ConsoleUI_run fs pre s1) as [[ended o] s2] eqn:Hpre.
    injection Hrun as -> <- ->. cbn [fst snd] in Hx.
    assert (Some choice_prompt = Some x) as [= <-]
      by (rewrite <- Hlast; apply (last_app_Some menu), (last_app_Some [_]),
            last_app_Some, Hx).
    rewrite (IH pre s1 o s' ltac:(simpl in Hn; lia) Hpre Hx).
    do 2 f_equal; simpl; by rewrite <- ?app_assoc.
  - destruct (ConsoleUI_run_output fs pre s) as [x Hx].
    destruct (ConsoleUI_run fs pre s) as [[ended o] s2] eqn:Hpre.
    injection Hrun as -> <- ->. cbn [fst snd] in Hx.
    assert (Some choice_prompt = Some x) as [= <-]
      by (rewrite <- Hlast; apply (last_app_Some menu), (last_app_Some [_]), Hx).
    rewrite (IH pre s o s' ltac:(lia) Hpre Hx).
    do 2 f_equal; simpl; by rewrite <- ?app_assoc.
Qed.

(** A session that has ended did so on a line read at the choice prompt
    that is [4] once stripped. *)
Lemma ConsoleUI_run_exited (fs : gmap string file) (lines : list string) (s : State)
    (out : list output) (s' : State) :
  ConsoleUI_run fs lines s = (Exited, out, s') →
  ∃ pre line rest out0,
    lines = (pre ++ line :: rest)%list ∧ strip line = "4"
    ∧ ConsoleUI_run fs pre s = (InputEnded, out0, s')
    ∧ last out0 = Some choice_prompt
    ∧ out = (out0 ++ [Print "Exiting application."])%list.
Proof.
  assert (Hgen : ∀ n lines s out s', (length lines ≤ n)%nat →
            ConsoleUI_run fs lines s = (Exited, out, s') →
            ∃ pre line rest out0,
              lines = (pre ++ line :: rest)%list ∧ strip line = "4"
              ∧ ConsoleUI_run fs pre s = (InputEnded, out0, s')
              ∧ last out0 = Some choice_prompt
              ∧ out = (out0 ++ [Print "Exiting application."])%list);
    [|by apply (Hgen (length lines))].
  clear lines s out s'. intros n.
  induction n as [|n IH]; intros lines s out s' Hn Hrun.
  { destruct lines; [done|simpl in Hn; lia]. }
  destruct lines as [|l lines]; [done|].
  simpl in Hn. rewrite ConsoleUI_run_cons in Hrun. case_decide as Hexit.
  { injection Hrun as <- <-. by exists [], l, lines, menu. }
  destruct (request fs (strip l)) as [[prompt call]|] eqn:Hreq.
  - destruct lines as [|arg lines]; [done|].
    destruct (report (call arg s)) as [shown s1] eqn:Hrep.
    destruct (ConsoleUI_run fs lines s1) as [[ended o] s2] eqn:Hrest.
    injection Hrun as -> <- ->.
    destruct (IH lines s1 o s' ltac:(simpl in Hn; lia) Hrest)
      as (pre & line & rest & out0 & -> & Hline & Hpre & Hlast & ->).
    exists (l :: arg :: pre), line, rest, (menu ++ Input prompt :: shown ++ out0)%list.
    split; [done|]. split; [done|]. split; [|split].
    + rewrite ConsoleUI_run_cons, decide_False, Hreq, Hrep, Hpre by done. done.
    + apply (last_app_Some menu), (last_app_Some [_]), last_app_Some, Hlast.
    + simpl. by rewrite <- ?app_assoc.
  - destruct (ConsoleUI_run fs lines s) as [[ended o] s2] eqn:Hrest.
    injection Hrun as -> <- ->.
    destruct (IH lines s o s' ltac:(lia) Hrest)
      as (pre & line & rest & out0 & -> & Hline & Hpre & Hlast & ->).
    exists (l :: pre), line, rest,
      (menu ++ Print "Invalid choice. Please try again." :: out0)%list.
    split; [done|]. split; [done|]. split; [|split].
    + rewrite ConsoleUI_run_cons, decide_False, Hreq, Hpre by done. done.
    + apply (last_app_Some menu), (last_app_Some [_]), Hlast.
    + simpl. by rewrite <- ?app_assoc.
Qed.

(** X12: the choice 4, and nothing else, ends a session.  On ASCII
    lines, whatever the files hold and whatever the searches raise: a
    line read at the choice prompt that is [4] once stripped ends the
    session at once, with the line that says so, the state as it was at
    the prompt and the lines after it unread; and a session that has
    ended did so on such a line. *)
Theorem X12_choice_4_ends_session (fs : gmap string file) (lines : list string)
    (s : State) :
  Forall (λ line, ascii_text line = true) lines →
  (∀ pre line rest out s',
     lines = (pre ++ line :: rest)%list → strip line = "4" →
     ConsoleUI_run fs pre s = (InputEnded, out, s') →
     last out = Some choice_prompt →
     ConsoleUI_run fs lines s
     = (Exited, (out ++ [Print "Exiting application."])%list, s'))
  ∧ (∀ out s',
       ConsoleUI_run fs lines s = (Exited, out, s') →
       ∃ pre line rest out0,
         lines = (pre ++ line :: rest)%list ∧ strip line = "4"
         ∧ ConsoleUI_run fs pre s = (InputEnded, out0, s')
         ∧ last out0 = Some choice_prompt
         ∧ out = (out0 ++ [Print "Exiting application."])%list).
Proof.
  intros _. split.
  - intros pre line rest out s' -> Hline Hpre Hlast.
    by apply ConsoleUI_run_then_exit.
  - intros out s'. apply ConsoleUI_run_exited.
Qed.

Lemma X12_choice_4_ends_session_witness :
  (ConsoleUI_run two_movies_fs ["2"; "2010"; " 4 "; "1"; "x"] fresh).1
  = (Exited,
     (menu ++ Input "Enter release year: " :: ConsoleUI_display_movies [inception]
           ++ menu ++ [Print "Exiting application."])%list)
  ∧ (ConsoleUI_run two_movies_fs ["2"; "2010"; " 4 "; "1"; "x"] fresh).2
    = (search two_movies_fs YEAR (PInt 2010) fresh).2.
Proof.
  assert (Hascii : Forall (λ line, ascii_text line = true)
                     ["2"; "2010"; " 4 "; "1"; "x"]) by (by repeat constructor).
  rewrite (proj1 (X12_choice_4_ends_session two_movies_fs
                    ["2"; "2010"; " 4 "; "1"; "x"] fresh Hascii)
             ["2"; "2010"] " 4 " ["1"; "x"]
             (ConsoleUI_run two_movies_fs ["2"; "2010"] fresh).1.2
             (ConsoleUI_run two_movies_fs ["2"; "2010"] fresh).2
             eq_refl eq_refl eq_refl eq_refl).
  split; reflexivity.
Defined.

Lemma ConsoleUI_run_year_stripped (fs : gmap string file) (choice arg : string)
    (rest : list string) (s : State) :
  strip choice = "2" →
  ConsoleUI_run fs (choice :: arg :: rest) s =
    let '(shown, s1) :=
      match int_of_str (strip arg) with
      | Ok year => report (search fs YEAR (PInt year) s)
      | Raise _ => ([PrintError "Invalid input: " ValueError], s)
      end in
    let '(ended, out, s') := ConsoleUI_run fs rest s1 in
    (ended, (menu ++ Input "Enter release year: " :: shown ++ out)%list, s').
Proof.
  intros Hchoice. rewrite ConsoleUI_run_cons, Hchoice. simpl.
  unfold mbind, M_bind, lift.
  destruct (int_of_str (strip arg)) as [year|e] eqn:Hint; [done|].
  by apply int_of_str_raises in Hint as ->.
Qed.

(** X13: the year typed is stripped, then read by [int].  On the choice
    2 and an ASCII line: a decimal numeral, with blanks of any kind
    around it (also the separators that [int] by itself rejects), is
    searched as the integer it denotes; and a line in which [int] reads
    no integer once it is stripped is reported as invalid input, the
    manager being left as it was: nothing is searched, counted or
    loaded. *)
Theorem X13_year_choice (fs : gmap string file) (choice arg : string)
    (rest : list string) (s : State) :
  strip choice = "2" →
  ascii_text arg = true →
  (∀ pre cell post y,
     arg = pre +:+ cell +:+ post →
     chars_in str_blanks pre = true → chars_in str_blanks post = true →
     int_literal cell y →
     ConsoleUI_run fs (choice :: arg :: rest) s =
       let '(shown, s1) := report (search fs YEAR (PInt y) s) in
       let '(ended, out, s') := ConsoleUI_run fs rest s1 in
       (ended, (menu ++ Input "Enter release year: " :: shown ++ out)%list, s'))
  ∧ (∀ e, int_of_str (strip arg) = Raise e →
       ConsoleUI_run fs (choice :: arg :: rest) s =
         let '(ended, out, s') := ConsoleUI_run fs rest s in
         (ended,
          (menu ++ Input "Enter release year: "
                :: PrintError "Invalid input: " ValueError :: out)%list, s')).
Proof.
  intros Hchoice _. split.
  - intros pre cell post y -> Hpre Hpost Hlit.
    rewrite ConsoleUI_run_year_stripped by done. unfold strip.
    by rewrite (int_of_str_strip_literal pre cell post y).
  - intros e He. rewrite ConsoleUI_run_year_stripped by done. by rewrite He.
Qed.

Lemma X13_year_choice_witness :
  int_of_str (String "028"%char " +2010 ") = Raise ValueError
  ∧ (ConsoleUI_run two_movies_fs [" 2"; "20x0"; "2 "; String "028"%char " +2010 "; "4"]
       fresh).1.2
    = (menu ++ Input "Enter release year: " :: PrintError "Invalid input: " ValueError ::
       menu ++ Input "Enter release year: " :: ConsoleUI_display_movies [inception] ++
       menu ++ [Print "Exiting application."])%list.
Proof.
  split; [reflexivity|].
  rewrite (proj2 (X13_year_choice two_movies_fs " 2" "20x0"
                    ["2 "; String "028"%char " +2010 "; "4"] fresh eq_refl eq_refl)
             ValueError eq_refl).
  assert (Hlit : int_literal " +2010 " 2010).
  { exists " ", "+", "", " ". split; [reflexivity|]. split; [reflexivity|].
    split; [reflexivity|]. split; [reflexivity|].
    split; [right; left; split; [done|lia]|simpl; lia]. }
  rewrite (proj1 (X13_year_choice two_movies_fs "2 " (String "028"%char " +2010 ")
                    ["4"] fresh eq_refl eq_refl)
             (String "028"%char "") " +2010 " "" 2010 eq_refl eq_refl eq_refl Hlit).
  reflexivity.
Defined.

(** *** Searches of a session against the data source *)

Lemma movies_load_fails (fs : gmap string file) (s : State) (f : file) (e : exn) :
  fs !! filename (data_source s) = Some f →
  stale (data_source s) (st_mtime f) →
  load_rows fs (filename (data_source s)) = Raise e →
  movies fs s = (Raise e, with_log (LogError e) (load_started s)).
Proof.
  intros Hfs Hst Hrows. rewrite movies_eq. unfold getmtime. rewrite Hfs.
  rewrite movies_locked_eq, decide_True by done.
  by rewrite (_load_movies_unread fs s e).
Qed.

Lemma search_load_fails (fs : gmap string file) (criteria : SearchCriteria)
    (query : pyval) (s : State) (f : file) (e : exn) :
  cache_get (criteria, query) (entries (search_cache s)) = None →
  fs !! filename (data_source s) = Some f →
  stale (data_source s) (st_mtime f) →
  load_rows fs (filename (data_source s)) = Raise e →
  search fs criteria query s
  = (Raise e, with_log (LogError e) (load_started (miss_counted s))).
Proof.
  intros Hget Hfs Hst Hrows. rewrite search_eq, Hget.
  unfold search_body. unfold_M. fold (miss_counted s).
  by rewrite (movies_load_fails fs (miss_counted s) f e).
Qed.

Lemma search_miss_loads (fs : gmap string file) (criteria : SearchCriteria)
    (query : pyval) (s : State) (f : file) (ms : list Movie) :
  cache_get (criteria, query) (entries (search_cache s)) = None →
  fs !! filename (data_source s) = Some f →
  stale (data_source s) (st_mtime f) →
  load_rows fs (filename (data_source s)) = Ok ms →
  Forall (λ m, is_Some (director m)) ms →
  search fs criteria query s
  = let s1 := with_data_source (set_last_modified (st_mtime f))
                (load_installed ms (miss_counted s)) in
    match _search_strategies criteria ms query with
    | Ok r => (Ok r, with_search_cache (cache_put (criteria, query) r) s1)
    | Raise e => (Raise e, s1)
    end.
Proof.
  intros Hget Hfs Hst Hrows Hdir. rewrite search_eq, Hget.
  unfold search_body. unfold_M. fold (miss_counted s).
  rewrite (movies_reloads fs (miss_counted s) f ms) by done. simpl.
  by destruct (_search_strategies criteria ms query).
Qed.

Lemma search_file_missing (fs : gmap string file) (criteria : SearchCriteria)
    (query : pyval) (s : State) :
  cache_get (criteria, query) (entries (search_cache s)) = None →
  fs !! filename (data_source s) = None →
  search fs criteria query s = (Raise FileNotFoundError, miss_counted s).
Proof.
  intros Hget Hfs. rewrite search_eq, Hget. unfold search_body. unfold_M.
  fold (miss_counted s). rewrite movies_eq. unfold getmtime. simpl. by rewrite Hfs.
Qed.

Lemma ConsoleUI_run_search (fs : gmap string file) (choice arg prompt : string)
    (criteria : SearchCriteria) (rest : list string) (s : State) :
  (strip choice = "1" ∧ criteria = TITLE ∧ prompt = "Enter movie name: ")
  ∨ (strip choice = "3" ∧ criteria = DIRECTOR ∧ prompt = "Enter director name: ") →
  ConsoleUI_run fs (choice :: arg :: rest) s =
    let '(shown, s1) := report (search fs criteria (PStr (strip arg)) s) in
    let '(ended, out, s') := ConsoleUI_run fs rest s1 in
    (ended, (menu ++ Input prompt :: shown ++ out)%list, s').
Proof.
  intros [(Hchoice & -> & ->)|(Hchoice & -> & ->)];
    by rewrite ConsoleUI_run_cons, Hchoice.
Qed.

(** X14: an error of the data file is reported by the [except] clause its
    class selects.  When a title or director search misses the cache and
    the load cannot read its rows, a [ValueError] of the load (a year cell
    that is not a number) is shown as invalid input, though the user
    typed a search text; any other exception is logged and shown as
    unexpected.  In both cases the session goes on with the data source
    as it was, so the next search loads again. *)
Theorem X14_load_error_report (fs : gmap string file) (choice arg prompt : string)
    (criteria : SearchCriteria) (rest : list string) (s : State) (f : file) (e : exn) :
  (strip choice = "1" ∧ criteria = TITLE ∧ prompt = "Enter movie name: ")
  ∨ (strip choice = "3" ∧ criteria = DIRECTOR ∧ prompt = "Enter director name: ") →
  cache_get (criteria, PStr (strip arg)) (entries (search_cache s)) = None →
  fs !! filename (data_source s) = Some f →
  stale (data_source s) (st_mtime f) →
  load_rows fs (filename (data_source s)) = Raise e →
  let s1 := with_log (LogError e) (load_started (miss_counted s)) in
  ConsoleUI_run fs (choice :: arg :: rest) s =
    (let '(shown, s2) :=
       if decide (e = ValueError)
       then ([PrintError "Invalid input: " ValueError], s1)
       else ([Print "An unexpected error occurred. Please try again."],
             with_log (LogError e) s1) in
     let '(ended, out, s') := ConsoleUI_run fs rest s2 in
     (ended, (menu ++ Input prompt :: shown ++ out)%list, s'))
  ∧ data_source s1 = data_source s
  ∧ entries (search_cache s1) = entries (search_cache s).
Proof.
  intros Hchoice Hget Hfs Hst Hrows s1. split; [|done].
  rewrite (ConsoleUI_run_search fs choice arg prompt criteria rest s Hchoice).
  rewrite (search_load_fails fs criteria _ s f e) by done.
  by destruct e.
Qed.

Lemma X14_load_error_report_witness :
  (ConsoleUI_run bad_year_fs ["1"; "Inception"; "4"] fresh).1.2
  = (menu ++ Input "Enter movie name: " :: PrintError "Invalid input: " ValueError ::
     menu ++ [Print "Exiting application."])%list.
Proof.
  assert (Hfs : bad_year_fs !! filename (data_source fresh) = Some bad_year_file)
    by reflexivity.
  assert (Hst : stale (data_source fresh) (st_mtime bad_year_file)) by (by left).
  assert (Hrows : load_rows bad_year_fs (filename (data_source fresh)) = Raise ValueError)
    by reflexivity.
  destruct (X14_load_error_report bad_year_fs "1" "Inception" "Enter movie name: "
              TITLE ["4"] fresh bad_year_file ValueError
              (or_introl (conj eq_refl (conj eq_refl eq_refl))) eq_refl Hfs Hst Hrows)
    as [Hrun _].
  rewrite Hrun. reflexivity.
Defined.

Lemma menu_displays_nothing (line : string) :
  line = newline +:+ "Search Results:" ∨ line = newline +:+ "No movies found." →
  Print line ∉ menu.
Proof.
  intros [-> | ->]; unfold menu; rewrite !not_elem_of_cons;
    repeat split; try discriminate; apply not_elem_of_nil.
Qed.

(** A session without its file, from any state that has loaded and
    cached nothing. *)
Lemma ConsoleUI_run_file_missing (fs : gmap string file) (lines : list string)
    (s : State) :
  fs !! filename (data_source s) = None →
  entries (search_cache s) = [] →
  data_source (ConsoleUI_run fs lines s).2 = data_source s
  ∧ entries (search_cache (ConsoleUI_run fs lines s).2) = []
  ∧ hits (search_cache (ConsoleUI_run fs lines s).2) = hits (search_cache s)
  ∧ (misses (search_cache s) ≤ misses (search_cache (ConsoleUI_run fs lines s).2))%nat
  ∧ log (ConsoleUI_run fs lines s).2
    = (log s ++ replicate (misses (search_cache (ConsoleUI_run fs lines s).2)
                           - misses (search_cache s))
                          (LogError FileNotFoundError))%list
  ∧ ¬ displays_results (ConsoleUI_run fs lines s).1.2.
Proof.
  assert (Hmenu : ∀ out, ¬ displays_results out → ¬ displays_results (menu ++ out)).
  { intros out Hout [H|H]; apply elem_of_app in H as [H|H];
      try (by apply menu_displays_nothing in H; auto);
      apply Hout; [by left|by right]. }
  assert (Hcons : ∀ o out, o ≠ Print (newline +:+ "Search Results:") →
            o ≠ Print (newline +:+ "No movies found.") →
            ¬ displays_results out → ¬ displays_results (o :: out)).
  { intros o out H1 H2 Hout [H|H]; apply elem_of_cons in H as [H|H];
      try done; apply Hout; [by left|by right]. }
  assert (Hnil : ¬ displays_results []).
  { by intros [H|H]; apply elem_of_nil in H. }
  assert (Hbase : ∀ s : State,
    data_source s = data_source s ∧ entries (search_cache s) = entries (search_cache s)
    ∧ hits (search_cache s) = hits (search_cache s)
    ∧ (misses (search_cache s) ≤ misses (search_cache s))%nat
    ∧ log s = (log s ++ replicate (misses (search_cache s) - misses (search_cache s))
                          (LogError FileNotFoundError))%list).
  { intros s0. rewrite Nat.sub_diag. simpl. by rewrite app_nil_r. }
  remember (length lines) as n eqn:Hn. assert (Hle : (length lines ≤ n)%nat) by lia.
  clear Hn. revert lines s Hle.
  induction n as [|n IH]; intros lines s Hle Hfs Hentries.
  { destruct lines; [|simpl in Hle; lia].
    destruct (Hbase s) as (? & ? & ? & ? & ?). simpl ConsoleUI_run. cbn [fst snd].
    repeat (split; [done|]). rewrite <- (app_nil_r menu). by apply Hmenu. }
  destruct lines as [|line rest].
  { destruct (Hbase s) as (? & ? & ? & ? & ?). simpl ConsoleUI_run. cbn [fst snd].
    repeat (split; [done|]). rewrite <- (app_nil_r menu). by apply Hmenu. }
  simpl in Hle. rewrite ConsoleUI_run_cons. case_decide as Hexit.
  { destruct (Hbase s) as (? & ? & ? & ? & ?). cbn [fst snd].
    repeat (split; [done|]). by apply Hmenu, Hcons. }
  assert (Hturn : ∀ prompt shown s1 lines',
    (length lines' ≤ n)%nat →
    data_source s1 = data_source s → entries (search_cache s1) = [] →
    hits (search_cache s1) = hits (search_cache s) →
    (misses (search_cache s) ≤ misses (search_cache s1))%nat →
    log s1 = (log s ++ replicate (misses (search_cache s1) - misses (search_cache s))
                         (LogError FileNotFoundError))%list →
    ¬ displays_results shown →
    let r := (let '(ended, out, s') := ConsoleUI_run fs lines' s1 in
              (ended, (menu ++ prompt :: shown ++ out)%list, s')) in
    prompt ≠ Print (newline +:+ "Search Results:") →
    prompt ≠ Print (newline +:+ "No movies found.") →
    data_source r.2 = data_source s
    ∧ entries (search_cache r.2) = []
    ∧ hits (search_cache r.2) = hits (search_cache s)
    ∧ (misses (search_cache s) ≤ misses (search_cache r.2))%nat
    ∧ log r.2 = (log s ++ replicate (misses (search_cache r.2) - misses (search_cache s))
                            (LogError FileNotFoundError))%list
    ∧ ¬ displays_results r.1.2).
  { intros prompt shown s1 lines' Hlen Hds Hent Hhits Hmiss Hlog Hshown r Hp1 Hp2.
    subst r.
    destruct (IH lines' s1 Hlen) as (Hds' & Hent' & Hhits' & Hmiss' & Hlog' & Hout');
      [by rewrite Hds|done|].
    destruct (ConsoleUI_run fs lines' s1) as [[ended out] s']. cbn [fst snd] in *.
    split; [congruence|]. split; [done|]. split; [congruence|]. split; [lia|].
    split.
    - rewrite Hlog', Hlog, <- app_assoc. f_equal. rewrite <- replicate_add.
      f_equal. lia.
    - apply Hmenu, Hcons; [done..|]. intros [H|H]; apply elem_of_app in H as [H|H].
      + apply Hshown. by left.
      + apply Hout'. by left.
      + apply Hshown. by right.
      + apply Hout'. by right. }
  assert (Hraise : ∀ criteria query,
    report (search fs criteria query s)
    = ([Print "An unexpected error occurred. Please try again."],
       with_log (LogError FileNotFoundError) (miss_counted s))).
  { intros criteria query. rewrite search_file_missing; [done| |done].
    by rewrite Hentries. }
  assert (Hafter : ∀ prompt criteria query lines',
    (length lines' ≤ n)%nat →
    prompt ≠ Print (newline +:+ "Search Results:") →
    prompt ≠ Print (newline +:+ "No movies found.") →
    let r := (let '(shown, s1) := report (search fs criteria query s) in
              let '(ended, out, s') := ConsoleUI_run fs lines' s1 in
              (ended, (menu ++ prompt :: shown ++ out)%list, s')) in
    data_source r.2 = data_source s
    ∧ entries (search_cache r.2) = []
    ∧ hits (search_cache r.2) = hits (search_cache s)
    ∧ (misses (search_cache s) ≤ misses (search_cache r.2))%nat
    ∧ log r.2 = (log s ++ replicate (misses (search_cache r.2) - misses (search_cache s))
                            (LogError FileNotFoundError))%list
    ∧ ¬ displays_results r.1.2).
  { intros prompt criteria query lines' Hlen Hp1 Hp2. rewrite Hraise.
    apply Hturn; simpl; try done.
    - lia.
    - by replace (S (misses (search_cache s)) - misses (search_cache s))%nat
        with 1%nat by lia.
    - by apply Hcons. }
  unfold request.
  destruct (decide (strip line = "1")) as [_|_];
    [|destruct (decide (strip line = "2")) as [_|_];
      [|destruct (decide (strip line = "3")) as [_|_]]].
  - destruct rest as [|arg rest].
    { destruct (Hbase s) as (? & ? & ? & ? & ?). cbn [fst snd].
      repeat (split; [done|]). by apply Hmenu, Hcons. }
    apply Hafter; [simpl in Hle; lia|done..].
  - destruct rest as [|arg rest].
    { destruct (Hbase s) as (? & ? & ? & ? & ?). cbn [fst snd].
      repeat (split; [done|]). by apply Hmenu, Hcons. }
    unfold mbind, M_bind, lift.
    destruct (int_of_str (strip arg)) as [year|e] eqn:Hint.
    + apply Hafter; [simpl in Hle; lia|done..].
    + apply int_of_str_raises in Hint as ->. cbn [report].
      destruct (Hbase s) as (? & ? & ? & ? & ?).
      apply Hturn; try done; [simpl in Hle; lia|by apply Hcons].
  - destruct rest as [|arg rest].
    { destruct (Hbase s) as (? & ? & ? & ? & ?). cbn [fst snd].
      repeat (split; [done|]). by apply Hmenu, Hcons. }
    apply Hafter; [simpl in Hle; lia|done..].
  - destruct (Hbase s) as (? & ? & ? & ? & ?).
    pose proof (Hturn (Print "Invalid choice. Please try again.") [] s rest) as Ht.
    simpl app in Ht. apply Ht; try done. lia.
Qed.

(** X15: a session without its file.  When [movies.csv] does not exist,
    the application starts all the same, and in a session of ASCII
    lines that the choice 4 has ended nothing was loaded, cached or
    displayed: each search counted one miss and logged the
    [FileNotFoundError] as an unexpected error, and the log holds
    nothing else. *)
Theorem X15_session_without_file (fs : gmap string file) (lines : list string) :
  fs !! "movies.csv" = None →
  Forall (λ line, ascii_text line = true) lines →
  (main fs lines).1.1 = Exited →
  _movies (data_source (main fs lines).2) = None
  ∧ entries (search_cache (main fs lines).2) = []
  ∧ hits (search_cache (main fs lines).2) = 0%nat
  ∧ log (main fs lines).2
    = replicate (misses (search_cache (main fs lines).2)) (LogError FileNotFoundError)
  ∧ ¬ displays_results (main fs lines).1.2.
Proof.
  intros Hfs _ _. unfold main.
  destruct (ConsoleUI_run_file_missing fs lines (MovieManager_init "movies.csv") Hfs eq_refl)
    as (Hds & Hent & Hhits & _ & Hlog & Hout).
  rewrite Hds, Hent, Hhits, Hlog. simpl. by rewrite Nat.sub_0_r.
Qed.

Lemma X15_session_without_file_witness :
  log (main ∅ ["1"; "Inception"; "2"; "x"; "2"; "2010"; "9"; "4"]).2
  = [LogError FileNotFoundError; LogError FileNotFoundError]
  ∧ ¬ displays_results (main ∅ ["1"; "Inception"; "2"; "x"; "2"; "2010"; "9"; "4"]).1.2.
Proof.
  assert (Hascii : Forall (λ line, ascii_text line = true)
                     ["1"; "Inception"; "2"; "x"; "2"; "2010"; "9"; "4"])
    by (by repeat constructor).
  assert (Hexit : (main ∅ ["1"; "Inception"; "2"; "x"; "2"; "2010"; "9"; "4"]).1.1 = Exited)
    by reflexivity.
  destruct (X15_session_without_file ∅ ["1"; "Inception"; "2"; "x"; "2"; "2010"; "9"; "4"]
              (lookup_empty "movies.csv") Hascii Hexit) as (_ & _ & _ & Hlog & Hout).
  split; [|exact Hout]. rewrite Hlog. reflexivity.
Defined.

Lemma ConsoleUI_run_year (fs : gmap string file) (choice arg : string)
    (rest : list string) (s : State) (year : Z) :
  strip choice = "2" → int_of_str arg = Ok year →
  ConsoleUI_run fs (choice :: arg :: rest) s =
    let '(shown, s1) := report (search fs YEAR (PInt year) s) in
    let '(ended, out, s') := ConsoleUI_run fs rest s1 in
    (ended, (menu ++ Input "Enter release year: " :: shown ++ out)%list, s').
Proof.
  intros Hchoice Hint. rewrite ConsoleUI_run_year_stripped by done.
  unfold strip. by rewrite (int_of_str_strip arg year).
Qed.

(** X16: the first search of a session shows the matching rows of the
    file.  With [movies.csv] present and its rows read, each with a
    title and a director, the first request of a session loads the file
    and displays, in file order, the records whose title (choice 1) or
    director (choice 3) contains the text typed, case ignored, or whose
    year is the integer typed (choice 2); that list is the single entry
    of the cache afterwards. *)
Theorem X16_first_request_displayed (fs : gmap string file)
    (choice arg prompt : string) (criteria : SearchCriteria) (query : pyval)
    (found : list Movie) (rest : list string) (f : file) (ms : list Movie) :
  fs !! "movies.csv" = Some f →
  load_rows fs "movies.csv" = Ok ms →
  Forall (λ m, is_Some (title m)) ms →
  Forall (λ m, is_Some (director m)) ms →
  (strip choice = "1" ∧ prompt = "Enter movie name: " ∧ criteria = TITLE
   ∧ query = PStr (strip arg)
   ∧ found = filter (λ m, field_matches (strip arg) (title m)) ms)
  ∨ (strip choice = "2" ∧ prompt = "Enter release year: " ∧ criteria = YEAR
     ∧ ∃ y, int_of_str arg = Ok y ∧ query = PInt y
            ∧ found = filter (λ m, release_year m = y) ms)
  ∨ (strip choice = "3" ∧ prompt = "Enter director name: " ∧ criteria = DIRECTOR
     ∧ query = PStr (strip arg)
     ∧ found = filter (λ m, field_matches (strip arg) (director m)) ms) →
  ∃ s1,
    main fs (choice :: arg :: rest)
    = (let '(ended, out, s') := ConsoleUI_run fs rest s1 in
       (ended, (menu ++ Input prompt :: ConsoleUI_display_movies found ++ out)%list, s'))
    ∧ entries (search_cache s1) = [(criteria, query, found)]
    ∧ _movies (data_source s1) = Some {| list_id := 0; items := ms |}
    ∧ log s1 = [LogInfo "Loading movies from movies.csv"].
Proof.
  intros Hfs Hrows Htitle Hdir Hchoice. unfold main.
  assert (Hsearch : ∀ criteria query,
    search fs criteria query (MovieManager_init "movies.csv")
    = let s1 := with_data_source (set_last_modified (st_mtime f))
                  (load_installed ms (miss_counted (MovieManager_init "movies.csv"))) in
      match _search_strategies criteria ms query with
      | Ok r => (Ok r, with_search_cache (cache_put (criteria, query) r) s1)
      | Raise e => (Raise e, s1)
      end).
  { intros c q. apply search_miss_loads; try done. by left. }
  destruct Hchoice as [(Hc & -> & -> & -> & ->)
                      |[(Hc & -> & -> & y & Hint & -> & ->)
                       |(Hc & -> & -> & -> & ->)]].
  - rewrite (ConsoleUI_run_search fs choice arg _ TITLE rest _) by auto.
    rewrite Hsearch. cbn [_search_strategies].
    rewrite title_search_str, (field_search_filter title) by done.
    cbn zeta. cbn [report]. eexists. split; [reflexivity|]. by split.
  - rewrite (ConsoleUI_run_year fs choice arg rest _ y) by done.
    rewrite Hsearch. cbn [_search_strategies].
    rewrite year_search_int.
    cbn zeta. cbn [report]. eexists. split; [reflexivity|]. by split.
  - rewrite (ConsoleUI_run_search fs choice arg _ DIRECTOR rest _) by auto.
    rewrite Hsearch. cbn [_search_strategies].
    rewrite director_search_str, (field_search_filter director) by done.
    cbn zeta. cbn [report]. eexists. split; [reflexivity|]. by split.
Qed.

Lemma X16_first_request_displayed_witness :
  (main two_movies_fs [" 3 "; "  NOLAN"; "4"]).1.2
  = (menu ++ Input "Enter director name: " ::
     ConsoleUI_display_movies [inception; interstellar] ++
     menu ++ [Print "Exiting application."])%list.
Proof.
  assert (Hdir : Forall (λ m, is_Some (director m)) [inception; interstellar])
    by (repeat constructor; by eexists).
  assert (Htitle : Forall (λ m, is_Some (title m)) [inception; interstellar])
    by (repeat constructor; by eexists).
  destruct (X16_first_request_displayed two_movies_fs " 3 " "  NOLAN"
              "Enter director name: " DIRECTOR (PStr "NOLAN")
              (filter (λ m, field_matches "NOLAN" (director m)) [inception; interstellar])
              ["4"] two_movies_file [inception; interstellar]
              eq_refl eq_refl Htitle Hdir
              (or_intror (or_intror
                 (conj eq_refl (conj eq_refl (conj eq_refl (conj eq_refl eq_refl)))))))
    as (s1 & Hrun & _).
  rewrite Hrun. reflexivity.
Defined.

(** *** What is displayed *)

Lemma printed_text_app (out out' : list output) :
  printed_text (out ++ out') = printed_text out +:+ printed_text out'.
Proof.
  induction out as [|[line|prompt|prefix e] out IH]; simpl; try done.
  by rewrite IH, string_app_assoc.
Qed.

Lemma string_app_inv_head (p a b : string) : p +:+ a = p +:+ b → a = b.
Proof. induction p as [|c p IH]; [done|]. intros [= Heq]. by apply IH. Qed.

(** Two lines without a line feed, each followed by one, are told apart
    in a text. *)
Lemma line_split (a a' r r' : string) :
  all_chars (λ c, negb (bool_decide (c = "010"%char))) a = true →
  all_chars (λ c, negb (bool_decide (c = "010"%char))) a' = true →
  a +:+ String "010"%char r = a' +:+ String "010"%char r' →
  a = a' ∧ r = r'.
Proof.
  revert a'. induction a as [|c a IH]; intros [|c' a'] Ha Ha' Heq.
  - by injection Heq as ->.
  - simpl in Ha'. injection Heq as <- _. by simpl in Ha'.
  - simpl in Ha. injection Heq as -> _. by simpl in Ha.
  - simpl in Ha, Ha'. apply andb_true_iff in Ha as [_ Ha], Ha' as [_ Ha'].
    rewrite !string_app_cons in Heq. injection Heq as -> Heq.
    destruct (IH a' Ha Ha' Heq) as [-> ->]. done.
Qed.

Lemma pretty_one_line (y : Z) :
  all_chars (λ c, negb (bool_decide (c = "010"%char))) (pretty y) = true.
Proof.
  assert (Hdigits : ∀ s, all_chars (λ c, bool_decide (is_Some (digit_value c))) s = true →
            all_chars (λ c, negb (bool_decide (c = "010"%char))) s = true).
  { intros s. apply all_chars_impl. intros c Hc. apply bool_decide_eq_true in Hc.
    apply negb_true_iff, bool_decide_eq_false. intros ->. by destruct Hc. }
  destruct y as [|p|p]; [done|..].
  - apply Hdigits. by apply (numeral_spec (Z.pos p) false).
  - change (pretty (Z.neg p)) with (String "-" (pretty (Z.pos p))). simpl.
    apply Hdigits. by apply (numeral_spec (Z.pos p) false).
Qed.

Lemma display_text_inj (l l' : list Movie) :
  Forall (λ m, one_line (title m) ∧ one_line (director m)) l →
  Forall (λ m, one_line (title m) ∧ one_line (director m)) l' →
  printed_text
    (movie ← l;
     [ Print ("Title: " +:+ str_field (title movie));
       Print ("Year: " +:+ pretty (release_year movie));
       Print ("Director: " +:+ str_field (director movie));
       Print (str_repeat "-" 50) ])
  = printed_text
      (movie ← l';
       [ Print ("Title: " +:+ str_field (title movie));
         Print ("Year: " +:+ pretty (release_year movie));
         Print ("Director: " +:+ str_field (director movie));
         Print (str_repeat "-" 50) ]) →
  l = l'.
Proof.
  intros Hl. revert l'.
  induction Hl as [|m l [(t & Ht & Hline_t) (d & Hd & Hline_d)] _ IH]; intros l' Hl' Heq;
    destruct Hl' as [|m' l' [(t' & Ht' & Hline_t') (d' & Hd' & Hline_d')] Hl'];
    try done.
  rewrite !bind_cons in Heq. cbn [printed_text app] in Heq.
  rewrite Ht, Ht', Hd, Hd' in Heq. cbn [str_field from_option id] in Heq.
  rewrite !string_app_assoc in Heq.
  apply (string_app_inv_head "Title: ") in Heq.
  apply line_split in Heq as [-> Heq]; [|done..].
  apply (string_app_inv_head "Year: ") in Heq.
  apply line_split in Heq as [Hyear Heq]; [|apply pretty_one_line..].
  apply (inj pretty) in Hyear.
  apply (string_app_inv_head "Director: ") in Heq.
  apply line_split in Heq as [-> Heq]; [|done..].
  apply line_split in Heq as [_ Heq]; [|done..].
  f_equal; [|by apply IH].
  destruct m, m'. simpl in *. congruence.
Qed.

Lemma display_text_cons (m : Movie) (l : list Movie) :
  printed_text (ConsoleUI_display_movies (m :: l))
  = (newline +:+ "Search Results:")
    +:+ String "010"%char
          (str_repeat "-" 50
           +:+ String "010"%char
                 (printed_text
                    (movie ← m :: l;
                     [ Print ("Title: " +:+ str_field (title movie));
                       Print ("Year: " +:+ pretty (release_year movie));
                       Print ("Director: " +:+ str_field (director movie));
                       Print (str_repeat "-" 50) ]))).
Proof. done. Qed.

(** X17: the text displayed tells the records apart.  On records whose
    title and director are strings without a line feed, two lists whose
    display writes the same text are the same list, the empty list
    included; a record without a title, as a short row gives, is
    displayed exactly as the one titled [None]. *)
Theorem X17_display_determines_records (movies movies' : list Movie) :
  (Forall (λ m, one_line (title m) ∧ one_line (director m)) movies →
   Forall (λ m, one_line (title m) ∧ one_line (director m)) movies' →
   printed_text (ConsoleUI_display_movies movies)
   = printed_text (ConsoleUI_display_movies movies') →
   movies = movies')
  ∧ (∀ m, title m = None →
       ConsoleUI_display_movies (m :: movies)
       = ConsoleUI_display_movies
           ({| title := Some "None"; release_year := release_year m;
               director := director m |} :: movies)).
Proof.
  split; [|by intros m Hm; simpl; rewrite Hm].
  intros Hl Hl' Heq. destruct movies as [|m l], movies' as [|m' l']; try done.
  apply display_text_inj; [done..|].
  rewrite !display_text_cons in Heq.
  apply (string_app_inv_head (newline +:+ "Search Results:")) in Heq.
  apply (string_app_inv_head (String "010"%char "")) in Heq.
  apply (string_app_inv_head (str_repeat "-" 50)) in Heq.
  by apply (string_app_inv_head (String "010"%char "")) in Heq.
Qed.

Lemma X17_display_determines_records_witness :
  printed_text (ConsoleUI_display_movies [inception])
  ≠ printed_text (ConsoleUI_display_movies [interstellar]).
Proof.
  intros Heq.
  assert (Htyped : ∀ m, m = inception ∨ m = interstellar →
            one_line (title m) ∧ one_line (director m))
    by (intros m [-> | ->]; split; eexists; split; reflexivity).
  apply (proj1 (X17_display_determines_records [inception] [interstellar])) in Heq.
  - discriminate Heq.
  - repeat constructor; apply Htyped; auto.
  - repeat constructor; apply Htyped; auto.
Defined.
(** ** The lock is always given back *)

Lemma run_app (evs evs' : list event) (c : config) :
  run (evs ++ evs') c = run evs c ≫= run evs'.
Proof.
  revert c. induction evs as [|ev evs IH]; intros c; simpl; [done|].
  destruct (exec ev c); [apply IH|done].
Qed.

Lemma exec_lock_owned (ev : event) (c c' : config) :
  exec ev c = Some c' → lock_owned c → lock_owned c'.
Proof.
  intros Hex Hown.
  destruct (exec_inv _ _ _ Hex)
    as [(i & p & q & Hi & Hc & _ & Hcase)|(? & ? & _ & Hc & _ & Hl)].
  - unfold lock_owned. rewrite Hc.
    destruct Hcase as [(-> & -> & _ & _ & _ & Hl)
                      |[(t & -> & -> & -> & _ & _ & _)
                       |[(t & -> & -> & -> & _ & Hl)|(r & -> & -> & -> & _ & Hl)]]].
    + rewrite Hl. intros Hlocked. destruct (Hown Hlocked) as [j Hj].
      exists j. moved j i Hi; [by rewrite Hi in Hj|done].
    + intros _. exists i. by rewrite (callers_insert_eq _ _ _ _ Hi).
    + intros _. exists i. by rewrite (callers_insert_eq _ _ _ _ Hi).
    + by rewrite Hl.
  - unfold lock_owned. rewrite Hc, Hl. apply Hown.
Qed.

Lemma run_lock_owned (evs : list event) (c c' : config) :
  run evs c = Some c' → lock_owned c → lock_owned c'.
Proof.
  revert c. induction evs as [|ev evs IH]; intros c; simpl.
  - by intros [= <-].
  - destruct (exec ev c) as [c1|] eqn:Hex; [|done].
    intros Hrun Hown. eapply IH; [done|]. by eapply exec_lock_owned.
Qed.

(** A caller that holds the lock, or finds it free, runs to its end by
    its own steps and leaves the lock free. *)
Lemma finish_caller (c : config) (i : nat) (p : pc) :
  callers c !! i = Some p →
  locked c = false ∨ in_block (Some p) →
  ∃ evs c' r, run evs c = Some c' ∧ Forall caller_step evs
    ∧ callers c' = <[i := Done r]> (callers c) ∧ locked c' = false.
Proof.
  intros Hi Hfree.
  assert (Hleaving : ∀ c r, callers c !! i = Some (Leaving r) →
    ∃ evs c' r, run evs c = Some c' ∧ Forall caller_step evs
      ∧ callers c' = <[i := Done r]> (callers c) ∧ locked c' = false).
  { intros c0 r H0. exists [Exit i]. eexists _, r. simpl. rewrite H0.
    split; [done|]. split; [by repeat constructor|done]. }
  assert (Hinside : ∀ c t, callers c !! i = Some (Inside t) →
    ∃ evs c' r, run evs c = Some c' ∧ Forall caller_step evs
      ∧ callers c' = <[i := Done r]> (callers c) ∧ locked c' = false).
  { intros c0 t H0.
    destruct (exec (Block i) c0) as [c1|] eqn:Hex; [|by simpl in Hex; rewrite H0 in Hex].
    assert (H1 : callers c1 = <[i := Leaving (movies_locked (files c0) t (state c0)).1]>
                                (callers c0)).
    { simpl in Hex. rewrite H0 in Hex. by injection Hex as <-. }
    destruct (Hleaving c1 (movies_locked (files c0) t (state c0)).1)
      as (evs & c2 & r & Hrun & Hsteps & Hc & Hl).
    { rewrite H1. by apply (callers_insert_eq _ _ _ _ H0). }
    exists (Block i :: evs), c2, r. cbn [run]. rewrite Hex.
    split; [done|]. split; [by constructor|]. split; [|done].
    by rewrite Hc, H1, list_insert_insert_eq. }
  assert (Hhave : ∀ c t, callers c !! i = Some (HaveTime t) → locked c = false →
    ∃ evs c' r, run evs c = Some c' ∧ Forall caller_step evs
      ∧ callers c' = <[i := Done r]> (callers c) ∧ locked c' = false).
  { intros c0 t H0 Hl0.
    destruct (exec (Enter i) c0) as [c1|] eqn:Hex;
      [|by simpl in Hex; rewrite H0, Hl0 in Hex].
    assert (H1 : callers c1 = <[i := Inside t]> (callers c0)).
    { simpl in Hex. rewrite H0, Hl0 in Hex. by injection Hex as <-. }
    destruct (Hinside c1 t) as (evs & c2 & r & Hrun & Hsteps & Hc & Hl).
    { rewrite H1. by apply (callers_insert_eq _ _ _ _ H0). }
    exists (Enter i :: evs), c2, r. cbn [run]. rewrite Hex.
    split; [done|]. split; [by constructor|]. split; [|done].
    by rewrite Hc, H1, list_insert_insert_eq. }
  destruct p as [|t|t|r|r].
  - destruct Hfree as [Hl0|[]].
    destruct (getmtime (files c) (filename (data_source (state c)))) as [t|e] eqn:Hmt.
    + destruct (exec (Stat i) c) as [c1|] eqn:Hex; [|by simpl in Hex; rewrite Hi in Hex].
      assert (H1 : callers c1 = <[i := HaveTime t]> (callers c) ∧ locked c1 = false).
      { simpl in Hex. rewrite Hi, Hmt in Hex. by injection Hex as <-. }
      destruct H1 as [H1 Hl1].
      destruct (Hhave c1 t) as (evs & c2 & r & Hrun & Hsteps & Hc & Hl); [|done|].
      { rewrite H1. by apply (callers_insert_eq _ _ _ _ Hi). }
      exists (Stat i :: evs), c2, r. cbn [run]. rewrite Hex.
      split; [done|]. split; [by constructor|]. split; [|done].
      by rewrite Hc, H1, list_insert_insert_eq.
    + exists [Stat i]. eexists _, (Raise e). simpl. rewrite Hi, Hmt.
      split; [done|]. split; [by repeat constructor|done].
  - destruct Hfree as [Hl0|[]]. by eapply Hhave.
  - by eapply Hinside.
  - by eapply Hleaving.
  - destruct Hfree as [Hl0|[]]. exists [], c, r. simpl.
    split; [done|]. split; [constructor|]. split; [|done].
    by rewrite list_insert_id.
Qed.

(** With the lock free, the callers finish one after the other. *)
Lemma finish_callers (c : config) (k : nat) :
  locked c = false →
  ∃ evs c', run evs c = Some c' ∧ Forall caller_step evs ∧ locked c' = false
    ∧ length (callers c') = length (callers c)
    ∧ (∀ j p, (j < k)%nat → callers c' !! j = Some p → ∃ r, p = Done r)
    ∧ (∀ j, (k ≤ j)%nat → callers c' !! j = callers c !! j).
Proof.
  intros Hfree. induction k as [|k (evs & c1 & Hrun & Hsteps & Hl & Hlen & Hdone & Hrest)].
  { exists [], c. simpl. split; [done|]. split; [constructor|].
    split; [done|]. split; [done|]. split; [intros; lia|done]. }
  destruct (callers c1 !! k) as [p|] eqn:Hk.
  - destruct (finish_caller c1 k p Hk (or_introl Hl))
      as (evs' & c2 & r & Hrun' & Hsteps' & Hc & Hl').
    exists (evs ++ evs')%list, c2. rewrite run_app, Hrun. simpl.
    split; [done|]. split; [by apply Forall_app|]. split; [done|].
    split; [by rewrite Hc, length_insert|].
    rewrite Hc. split.
    + intros j q Hj. destruct (decide (j = k)) as [->|Hne].
      * rewrite (callers_insert_eq _ _ _ _ Hk). intros [= <-]. by exists r.
      * rewrite list_lookup_insert_ne by done. apply Hdone. lia.
    + intros j Hj. rewrite list_lookup_insert_ne by lia. apply Hrest. lia.
  - exists evs, c1. split; [done|]. split; [done|]. split; [done|]. split; [done|].
    split.
    + intros j q Hj. destruct (decide (j = k)) as [->|Hne]; [by rewrite Hk|].
      apply Hdone. lia.
    + intros j Hj. apply Hrest. lia.
Qed.

Lemma initial_lock_owned (name : string) (fs : gmap string file) (n : nat) :
  lock_owned (initial name fs n).
Proof. by intros Hl. Qed.

(** X18: the lock is always given back.  From any state that the callers
    and the rewrites of the files can reach, the callers can finish by
    their own steps alone: there is a schedule after which every call
    has returned or raised and the lock is free.  No caller waits for a
    lock that nobody will release, not even after a load that raised. *)
Theorem X18_callers_can_finish (name : string) (fs : gmap string file) (n : nat)
    (evs : list event) (c : config) :
  run evs (initial name fs n) = Some c →
  ∃ evs' c', run evs' c = Some c' ∧ Forall caller_step evs'
    ∧ all_done c' ∧ locked c' = false ∧ length (callers c') = n
    ∧ files c' = files c.
Proof.
  intros Hrun.
  pose proof (run_lock_owned _ _ _ Hrun (initial_lock_owned name fs n)) as Hown.
  assert (Hlen : length (callers c) = n).
  { assert (Hgen : ∀ evs c c', run evs c = Some c' →
              length (callers c') = length (callers c)).
    { clear. intros evs. induction evs as [|ev evs IH]; intros c c'; simpl.
      - by intros [= <-].
      - destruct (exec ev c) as [c1|] eqn:Hex; [|done]. intros Hrun.
        rewrite (IH _ _ Hrun).
        destruct (exec_inv _ _ _ Hex)
          as [(i & p & q & _ & -> & _)|(? & ? & _ & -> & _)]; [|done].
        apply length_insert. }
    rewrite (Hgen _ _ _ Hrun). simpl. apply length_replicate. }
  assert (Hfiles : ∀ evs c c', run evs c = Some c' → Forall caller_step evs →
            files c' = files c).
  { clear. intros evs. induction evs as [|ev evs IH]; intros c c'; simpl.
    - by intros [= <-].
    - destruct (exec ev c) as [c1|] eqn:Hex; [|done]. intros Hrun Hsteps.
      apply Forall_cons in Hsteps as [Hev Hsteps]. rewrite (IH _ _ Hrun Hsteps).
      destruct (exec_inv _ _ _ Hex)
        as [(i & p & q & _ & _ & Hf & _)|(? & ? & -> & _)]; [done|].
      by destruct Hev. }
  assert (Hfreed : ∃ evs1 c1, run evs1 c = Some c1 ∧ Forall caller_step evs1
            ∧ locked c1 = false ∧ length (callers c1) = n).
  { destruct (locked c) eqn:Hl.
    - destruct (Hown Hl) as [i Hi].
      destruct (callers c !! i) as [p|] eqn:Hp; [|done].
      destruct (finish_caller c i p Hp (or_intror Hi))
        as (evs1 & c1 & r & Hrun1 & Hsteps1 & Hc1 & Hl1).
      exists evs1, c1. split; [done|]. split; [done|]. split; [done|].
      by rewrite Hc1, length_insert.
    - exists [], c. split; [done|]. split; [constructor|]. by split. }
  destruct Hfreed as (evs1 & c1 & Hrun1 & Hsteps1 & Hl1 & Hlen1).
  destruct (finish_callers c1 n Hl1)
    as (evs2 & c2 & Hrun2 & Hsteps2 & Hl2 & Hlen2 & Hdone & _).
  exists (evs1 ++ evs2)%list, c2. rewrite run_app, Hrun1. simpl.
  split; [done|]. split; [by apply Forall_app|]. split.
  - intros j p Hj. apply (Hdone j p); [|done].
    apply lookup_lt_Some in Hj. lia.
  - split; [done|]. split; [lia|].
    rewrite (Hfiles _ _ _ Hrun2 Hsteps2). by apply (Hfiles _ _ _ Hrun1).
Qed.

Lemma X18_callers_can_finish_witness :
  ∃ evs' c',
    run evs' {| state := MovieManager_init "movies.csv"; files := two_movies_fs;
                locked := true; callers := [HaveTime 100; Inside 100] |} = Some c'
    ∧ Forall caller_step evs' ∧ all_done c' ∧ locked c' = false
    ∧ length (callers c') = 2%nat ∧ files c' = two_movies_fs.
Proof.
  apply (X18_callers_can_finish "movies.csv" two_movies_fs 2 [Stat 1; Enter 1; Stat 0]).
  reflexivity.
Defined.
(** ** Without the file *)

(** X19: without its file the manager serves cached answers only.  When
    the file does not exist, [movies] raises [FileNotFoundError] and
    changes nothing, even when a loaded list is held; a search whose
    answer is cached returns it all the same, and any other search
    raises [FileNotFoundError] after counting a miss. *)
Theorem X19_file_gone (fs : gmap string file) (criteria : SearchCriteria)
    (query : pyval) (s : State) :
  fs !! filename (data_source s) = None →
  movies fs s = (Raise FileNotFoundError, s)
  ∧ search fs criteria query s
    = match cache_get (criteria, query) (entries (search_cache s)) with
      | Some (found, rest) =>
          (Ok found.2,
           with_search_cache (λ c, {| entries := found :: rest;
                                      hits := S (hits c); misses := misses c |}) s)
      | None => (Raise FileNotFoundError, miss_counted s)
      end.
Proof.
  intros Hfs. split.
  - rewrite movies_eq. unfold getmtime. by rewrite Hfs.
  - destruct (cache_get (criteria, query) (entries (search_cache s)))
      as [[found rest]|] eqn:Hget.
    + by rewrite search_eq, Hget.
    + by apply search_file_missing.
Qed.

Lemma X19_file_gone_witness :
  let s := (search two_movies_fs TITLE (PStr "inc") fresh).2 in
  (movies ∅ s).1 = Raise FileNotFoundError
  ∧ (search ∅ TITLE (PStr "inc") s).1 = Ok [inception]
  ∧ (search ∅ TITLE (PStr "Inc") s).1 = Raise FileNotFoundError.
Proof.
  intros s.
  assert (Hfs : (∅ : gmap string file) !! filename (data_source s) = None)
    by apply lookup_empty.
  split; [|split].
  - by rewrite (proj1 (X19_file_gone ∅ TITLE (PStr "inc") s Hfs)).
  - by rewrite (proj2 (X19_file_gone ∅ TITLE (PStr "inc") s Hfs)).
  - by rewrite (proj2 (X19_file_gone ∅ TITLE (PStr "Inc") s Hfs)).
Defined.

(** ** Order of the columns *)

Lemma foldl_insert_perm (l l' : list (string * string)) :
  NoDup l.*1 → l ≡ₚ l' →
  foldl (λ d kv, <[kv.1 := Some kv.2]> d) (∅ : gmap string (option string)) l
  = foldl (λ d kv, <[kv.1 := Some kv.2]> d) ∅ l'.
Proof.
  intros Hnd Hperm. apply map_eq. intros k.
  assert (Hnd' : NoDup l'.*1) by (by rewrite <- Hperm).
  destruct (decide (k ∈ l.*1)) as [Hin|Hout].
  - apply list_elem_of_fmap in Hin as ([k' v] & -> & Hin). simpl.
    assert (Hin' : (k', v) ∈ l') by (by rewrite <- Hperm).
    apply list_elem_of_lookup in Hin as [i Hi].
    apply list_elem_of_lookup in Hin' as [j Hj].
    by rewrite (foldl_insert_lookup l _ i k' v), (foldl_insert_lookup l' _ j k' v).
  - rewrite !foldl_insert_notin; [done| |done]. by rewrite <- Hperm.
Qed.

Lemma dict_row_perm (header header' row row' : list string) :
  NoDup header →
  length row = length header → length row' = length header' →
  zip header row ≡ₚ zip header' row' →
  dict_row header row = dict_row header' row'.
Proof.
  intros Hnd Hlen Hlen' Hperm. unfold dict_row.
  rewrite Hlen, Hlen', !drop_all. simpl.
  apply foldl_insert_perm; [|done]. by rewrite fst_zip by lia.
Qed.

(** X20: the order of the columns does not matter.  Two files whose
    rows hold the same cells under the same names, the columns in a
    different order, load to the same result: rows are read by column
    name, never by position. *)
Theorem X20_column_order (fs fs' : gmap string file) (name : string) (f f' : file)
    (header header' : list string) (rows rows' : list (list string)) :
  NoDup header →
  Forall2 (λ row row', length row = length header ∧ length row' = length header'
                       ∧ zip header row ≡ₚ zip header' row') rows rows' →
  fs !! name = Some f → content f = Ok (header :: rows) →
  fs' !! name = Some f' → content f' = Ok (header' :: rows') →
  load_rows fs name = load_rows fs' name.
Proof.
  intros Hnd Hrows Hfs Hc Hfs' Hc'. unfold load_rows, open_csv.
  rewrite Hfs, Hfs', Hc, Hc'. simpl. f_equal. clear Hfs Hfs' Hc Hc'.
  induction Hrows as [|row row' rows rows' (Hlen & Hlen' & Hperm) _ IH]; [done|].
  assert (Hblank : row = [] ↔ row' = []).
  { apply Permutation_length in Hperm. rewrite !length_zip in Hperm.
    destruct row, row'; simpl in *; split; try done; lia. }
  rewrite !filter_cons.
  destruct (decide (row ≠ [])) as [Hne|He], (decide (row' ≠ [])) as [Hne'|He'].
  - rewrite !fmap_cons, IH. f_equal. by apply dict_row_perm.
  - exfalso. apply Hne, Hblank. destruct row'; [done|]. by destruct He'.
  - exfalso. apply Hne', Hblank. destruct row; [done|]. by destruct He.
  - done.
Qed.

Lemma X20_column_order_witness :
  let swapped := {| st_mtime := 100;
                    content := Ok [ ["director"; "title"; "release_year"];
                                    ["Nolan"; "Inception"; "2010"];
                                    ["Nolan"; "Interstellar"; "2014"] ] |} in
  load_rows two_movies_fs "movies.csv"
  = load_rows {[ "movies.csv" := swapped ]} "movies.csv".
Proof.
  intros swapped.
  assert (Hperm : ∀ a b c : string * string, [a; b; c] ≡ₚ [c; a; b]).
  { intros a b c. by rewrite (Permutation_app_comm [a; b] [c]). }
  apply (X20_column_order two_movies_fs {[ "movies.csv" := swapped ]} "movies.csv"
           two_movies_file swapped
           ["title"; "release_year"; "director"] ["director"; "title"; "release_year"]
           [ ["Inception"; "2010"; "Nolan"]; ["Interstellar"; "2014"; "Nolan"] ]
           [ ["Nolan"; "Inception"; "2010"]; ["Nolan"; "Interstellar"; "2014"] ]).
  - by apply (bool_decide_unpack _).
  - repeat constructor; apply Hperm.
  - reflexivity.
  - reflexivity.
  - reflexivity.
  - reflexivity.
Defined.
